(** * Quote relocation engine: a shallow embedding and its properties

    The development follows the TypeScript sources of the quote matcher
    (normalisation, n-gram similarity, Boyer-Moore-Horspool search, the
    transcript index, the three-stage text matcher and the offset mappers)
    and of the per-quote orchestrator [findExactQuotes], and those of the
    helpers of the topic generator around them: the chunks of a transcript,
    the fallback topics, the removal of duplicate candidates, and the
    cleaning and ordering of themes.

    Conventions.
    - A JavaScript string is the list of its UTF-16 code units ([list N]);
      [length], indexing, [substring], [includes] and the regular expressions
      used by the sources (none has the [u] flag) all work on code units.
    - JavaScript integers (indices, lengths, the [-1] sentinels) are [Z].
    - Similarities, confidences and times are rationals ([Q]).  The sources
      compute them in binary floating point; every similarity or confidence
      compared here is a quotient of two small integers or a short decimal
      literal.  Sums of times are exact here and rounded in the sources; the
      two agree on whole numbers of seconds, and a statement that depends on
      the exact value of such a sum assumes them.
    - [Map] objects that are only read through [get]/[has] are [gmap]s, [Set]s
      that are only read through [size]/[has] are [gset]s; the score map, whose
      iteration order is observable, is an insertion-ordered association
      list. *)

From Stdlib Require Import ZArith QArith Qround Lia Bool String Ascii.
From stdpp Require Import gmap list.

Local Open Scope Z_scope.

(** ** Strings *)

Abbreviation jsstring := (list N).

(** [s.length] *)
Definition len {A} (s : list A) : Z := Z.of_nat (length s).

(** [s[k]]: [None] stands for [undefined]. *)
Definition charAt (s : jsstring) (k : Z) : option N :=
  if k <? 0 then None else s !! Z.to_nat k.

(** Code units of an ASCII literal, to write examples. *)
Definition js (s : string) : jsstring :=
  map N_of_ascii (list_ascii_of_string s).

(** The class [\s] of ECMAScript regular expressions, which is also the set
    of code units removed by [String.prototype.trim]: WhiteSpace and
    LineTerminator. *)
Definition isWhitespace (c : N) : bool :=
  (((9 <=? c) && (c <=? 13)) || (c =? 32) || (c =? 160) || (c =? 5760)
   || ((8192 <=? c) && (c <=? 8202)) || (c =? 8232) || (c =? 8233)
   || (c =? 8239) || (c =? 8287) || (c =? 12288) || (c =? 65279))%N.

(** The class [[\r\n]]. *)
Definition isLineBreak (c : N) : bool := ((c =? 13) || (c =? 10))%N.

(** The punctuation class of [normalizeForMatching]: full stop, comma,
    question mark, double quote, apostrophe, exclamation mark, em dash
    (U+2014), horizontal ellipsis (U+2026) and en dash (U+2013). *)
Definition isStrippedPunctuation (c : N) : bool :=
  ((c =? 46) || (c =? 44) || (c =? 63) || (c =? 34) || (c =? 39) || (c =? 33)
   || (c =? 8212) || (c =? 8230) || (c =? 8211))%N.

(** [s.replace(/[class]+/g, r)]: every maximal run of characters of the class
    is replaced by [r]. [inRun] tells that the previous character was in the
    class. *)
Fixpoint replaceRunsFrom (p : N → bool) (r : jsstring) (inRun : bool)
    (s : jsstring) : jsstring :=
  match s with
  | [] => []
  | c :: t =>
      if p c then
        if inRun then replaceRunsFrom p r true t
        else r ++ replaceRunsFrom p r true t
      else c :: replaceRunsFrom p r false t
  end.

Definition replaceRuns (p : N → bool) (r : jsstring) (s : jsstring) : jsstring :=
  replaceRunsFrom p r false s.

(** [s.replace(/[class]/g, '')] *)
Definition removeChars (p : N → bool) (s : jsstring) : jsstring :=
  filter (λ c, p c = false) s.

Fixpoint trimStart (s : jsstring) : jsstring :=
  match s with
  | [] => []
  | c :: t => if isWhitespace c then trimStart t else s
  end.

Definition trimEnd (s : jsstring) : jsstring := rev (trimStart (rev s)).

(** [s.trim()] *)
Definition trim (s : jsstring) : jsstring := trimEnd (trimStart s).

(** [s.split(/\s+/)]: the pieces between maximal runs of whitespace; a string
    that starts or ends with whitespace yields an empty first or last piece,
    and the empty string yields one empty piece. [cur] is the piece being
    read, reversed. *)
Fixpoint splitWhitespaceFrom (cur : jsstring) (inRun : bool) (s : jsstring)
    : list jsstring :=
  match s with
  | [] => [rev cur]
  | c :: t =>
      if isWhitespace c then
        if inRun then splitWhitespaceFrom cur true t
        else rev cur :: splitWhitespaceFrom [] true t
      else splitWhitespaceFrom (c :: cur) false t
  end.

Definition splitWhitespace (s : jsstring) : list jsstring :=
  splitWhitespaceFrom [] false s.

(** [p] is a prefix of [s]. *)
Fixpoint startsWith (s p : jsstring) : bool :=
  match p, s with
  | [], _ => true
  | _ :: _, [] => false
  | a :: p', b :: s' => (a =? b)%N && startsWith s' p'
  end.

(** [s.includes(p)] *)
Fixpoint includes (s p : jsstring) : bool :=
  startsWith s p ||
  match s with
  | [] => false
  | _ :: t => includes t p
  end.

(** ** Text normalisation (quote-matcher) *)

Definition SPACE : jsstring := [32%N].

Definition normalizeWhitespace (text : jsstring) : jsstring :=
  trim (replaceRuns isWhitespace SPACE (replaceRuns isLineBreak SPACE text)).

(** [String.prototype.toLowerCase] follows the Unicode case tables, which are
    not part of the program: the development is parametric in it. *)
Definition normalizeForMatching (toLowerCase : jsstring → jsstring)
    (text : jsstring) : jsstring :=
  trim (replaceRuns isWhitespace SPACE
          (removeChars isStrippedPunctuation (toLowerCase text))).

(** Lower-casing of the ASCII letters, the behaviour of [toLowerCase] on
    ASCII text; used to run the functions on examples. *)
Definition asciiLower (s : jsstring) : jsstring :=
  map (λ c, if ((65 <=? c) && (c <=? 90))%N then (c + 32)%N else c) s.

(** ** N-gram similarity *)

(** The substrings visited by [for (i = 0; i <= clean.length - 3; i++)
    clean.substring(i, i + 3)], in order. *)
Fixpoint ngramList (clean : jsstring) : list jsstring :=
  match clean with
  | a :: ((b :: c :: _) as t) => [a; b; c] :: ngramList t
  | _ => []
  end.

(** The [Set] obtained by adding them one by one. *)
Definition ngramsOf (clean : jsstring) : gset jsstring :=
  list_to_set (ngramList clean).

(** The counter [intersection]: the members of [s1] that [s2] has. *)
Definition countShared (s1 s2 : gset jsstring) : nat :=
  length (filter (λ g, g ∈ s2) (elements s1)).

Definition calculateNgramSimilarity (str1 str2 : jsstring) : Q :=
  if (len str1 =? 0) || (len str2 =? 0) then 0%Q
  else
    let clean1 := replaceRuns isWhitespace [] str1 in
    let clean2 := replaceRuns isWhitespace [] str2 in
    let ngrams1 := ngramsOf clean1 in
    let ngrams2 := ngramsOf clean2 in
    if (Nat.eqb (size ngrams1) 0) || (Nat.eqb (size ngrams2) 0) then
      if includes clean1 clean2 || includes clean2 clean1
      then (8 # 10)%Q else 0%Q
    else
      let intersection := countShared ngrams1 ngrams2 in
      let union := (size ngrams1 + size ngrams2 - intersection)%nat in
      (inject_Z (Z.of_nat intersection) / inject_Z (Z.of_nat union))%Q.

(** ** Boyer-Moore-Horspool search *)

(** The loop [for (i = 0; i < pattern.length - 1; i++)
    badChar.set(pattern[i], pattern.length - 1 - i)], from index [i] on;
    [rest] is the pattern from index [i]. *)
Fixpoint badCharLoop (m : Z) (rest : jsstring) (i : Z) (badChar : gmap N Z)
    : gmap N Z :=
  match rest with
  | [] => badChar
  | c :: rest' =>
      if i <? m - 1
      then badCharLoop m rest' (i + 1) (<[c := m - 1 - i]> badChar)
      else badChar
  end.

Definition badCharTable (pattern : jsstring) : gmap N Z :=
  badCharLoop (len pattern) pattern 0 ∅.

(** The inner loop [while (j >= 0 && k >= 0 && text[k] === pattern[j])]:
    [Some k] is [return k], [None] is leaving the loop. It runs at most
    [pattern.length] times, the fuel it is given. *)
Fixpoint matchBackward (fuel : nat) (text pattern : jsstring) (k j : Z)
    : option Z :=
  match fuel with
  | O => None
  | S fuel' =>
      if (0 <=? j) && (0 <=? k)
         && bool_decide (charAt text k = charAt pattern j)
      then if j =? 0 then Some k
           else matchBackward fuel' text pattern (k - 1) (j - 1)
      else None
  end.

Definition skipAt (text : jsstring) (badChar : gmap N Z) (m i : Z) : Z :=
  if i <? len text then
    match charAt text i with
    | Some c => match badChar !! c with Some s => s | None => m end
    | None => m
    end
  else m.

(** The outer loop [while (i < text.length)]; [i] grows at every turn, so
    [text.length] turns are enough. *)
Fixpoint searchLoop (fuel : nat) (text pattern : jsstring)
    (badChar : gmap N Z) (i : Z) : Z :=
  match fuel with
  | O => -1
  | S fuel' =>
      if i <? len text then
        match matchBackward (length pattern) text pattern i (len pattern - 1) with
        | Some k => k
        | None =>
            searchLoop fuel' text pattern badChar
              (i + skipAt text badChar (len pattern) i)
        end
      else -1
  end.

Definition boyerMooreSearch (text pattern : jsstring) : Z :=
  if len pattern =? 0 then 0
  else if len text <? len pattern then -1
  else searchLoop (length text) text pattern (badCharTable pattern)
         (len pattern - 1).

(** ** The transcript index *)

Record TranscriptSegment := {
  text : jsstring;
  start : Q;
  duration : Q
}.

Record SegmentBoundary := {
  segmentIdx : Z;
  startPos : Z;
  endPos : Z;
  boundaryText : jsstring;
  boundaryNormalizedText : jsstring
}.

Record TranscriptIndex := {
  fullTextSpace : jsstring;
  fullTextNewline : jsstring;
  normalizedText : jsstring;
  segmentBoundaries : list SegmentBoundary;
  wordIndex : gmap jsstring (list Z);
  ngramIndex : gmap jsstring (gset Z)
}.

Definition emptyIndex : TranscriptIndex :=
  {| fullTextSpace := []; fullTextNewline := []; normalizedText := [];
     segmentBoundaries := []; wordIndex := ∅; ngramIndex := ∅ |}.

(** [wordIndex.get(word) || []] *)
Definition postings (wi : gmap jsstring (list Z)) (word : jsstring) : list Z :=
  default [] (wi !! word).

(** The body of [words.forEach]. *)
Definition addWord (idx : Z) (wi : gmap jsstring (list Z)) (word : jsstring)
    : gmap jsstring (list Z) :=
  if 2 <? len word then <[word := postings wi word ++ [idx]]> wi else wi.

(** The body of the n-gram loop. *)
Definition addNgram (idx : Z) (ni : gmap jsstring (gset Z)) (ngram : jsstring)
    : gmap jsstring (gset Z) :=
  <[ngram := default ∅ (ni !! ngram) ∪ {[idx]}]> ni.

Section Matcher.

Variable toLowerCase : jsstring → jsstring.

(** The body of [transcript.forEach((segment, idx) => ...)]. *)
Definition indexSegment (st : TranscriptIndex) (idx : Z)
    (segment : TranscriptSegment) : TranscriptIndex :=
  let sep (c : N) (s : jsstring) := if 0 <? idx then s ++ [c] else s in
  let fullTextSpace0 := sep 32%N (fullTextSpace st) in
  let fullTextNewline0 := sep 10%N (fullTextNewline st) in
  let normalizedText0 := sep 32%N (normalizedText st) in
  let segmentStartPos := len fullTextSpace0 in
  let segmentNormalized := normalizeForMatching toLowerCase (text segment) in
  let fullTextSpace1 := fullTextSpace0 ++ text segment in
  let words := splitWhitespace segmentNormalized in
  let cleanText := replaceRuns isWhitespace [] segmentNormalized in
  {| fullTextSpace := fullTextSpace1;
     fullTextNewline := fullTextNewline0 ++ text segment;
     normalizedText := normalizedText0 ++ segmentNormalized;
     segmentBoundaries :=
       segmentBoundaries st ++
       [ {| segmentIdx := idx;
            startPos := segmentStartPos;
            endPos := len fullTextSpace1;
            boundaryText := text segment;
            boundaryNormalizedText := segmentNormalized |} ];
     wordIndex := foldl (addWord idx) (wordIndex st) words;
     ngramIndex := foldl (addNgram idx) (ngramIndex st) (ngramList cleanText) |}.

Fixpoint indexFrom (st : TranscriptIndex) (idx : Z)
    (segments : list TranscriptSegment) : TranscriptIndex :=
  match segments with
  | [] => st
  | segment :: rest => indexFrom (indexSegment st idx segment) (idx + 1) rest
  end.

Definition buildTranscriptIndex (transcript : list TranscriptSegment)
    : TranscriptIndex :=
  indexFrom emptyIndex 0 transcript.

(** ** Mapping a match to segments *)

Record SegmentSpan := {
  spanStartSegmentIdx : Z;
  spanEndSegmentIdx : Z;
  spanStartCharOffset : Z;
  spanEndCharOffset : Z
}.

(** The [for ... of index.segmentBoundaries] loop of [mapMatchToSegments];
    the four accumulators are the loop's variables, and the second branch is
    the [break]. *)
Fixpoint mapMatchLoop (matchStart matchEnd : Z) (bs : list SegmentBoundary)
    (startSegmentIdx endSegmentIdx startCharOffset endCharOffset : Z)
    : SegmentSpan :=
  match bs with
  | [] => Build_SegmentSpan startSegmentIdx endSegmentIdx
            startCharOffset endCharOffset
  | boundary :: rest =>
      let hit := (startSegmentIdx =? -1) && (startPos boundary <=? matchStart)
                 && (matchStart <? endPos boundary) in
      let startSegmentIdx' := if hit then segmentIdx boundary else startSegmentIdx in
      let startCharOffset' :=
        if hit then matchStart - startPos boundary else startCharOffset in
      if (startPos boundary <? matchEnd) && (matchEnd <=? endPos boundary) then
        Build_SegmentSpan startSegmentIdx' (segmentIdx boundary)
          startCharOffset' (matchEnd - startPos boundary)
      else if endPos boundary <? matchEnd then
        mapMatchLoop matchStart matchEnd rest startSegmentIdx'
          (segmentIdx boundary) startCharOffset' (len (boundaryText boundary))
      else
        mapMatchLoop matchStart matchEnd rest startSegmentIdx' endSegmentIdx
          startCharOffset' endCharOffset
  end.

Definition spanIfFound (s : SegmentSpan) : option SegmentSpan :=
  if negb (spanStartSegmentIdx s =? -1) && negb (spanEndSegmentIdx s =? -1)
  then Some s else None.

Definition mapMatchToSegments (matchStart matchLength : Z)
    (index : TranscriptIndex) : option SegmentSpan :=
  let matchEnd := matchStart + matchLength in
  spanIfFound
    (mapMatchLoop matchStart matchEnd (segmentBoundaries index) (-1) (-1) 0 0).

(** The loop of [mapNormalizedMatchToSegments]; [currentNormPos] is carried
    along with the four result variables. *)
Fixpoint mapNormalizedLoop (normalizedMatchIdx matchEnd : Z)
    (bs : list SegmentBoundary) (currentNormPos : Z)
    (startSegmentIdx endSegmentIdx startCharOffset endCharOffset : Z)
    : SegmentSpan :=
  match bs with
  | [] => Build_SegmentSpan startSegmentIdx endSegmentIdx
            startCharOffset endCharOffset
  | boundary :: rest =>
      let segmentNormLength := len (boundaryNormalizedText boundary) in
      let segmentNormEnd := currentNormPos + segmentNormLength in
      let hit := (startSegmentIdx =? -1)
                 && (currentNormPos <=? normalizedMatchIdx)
                 && (normalizedMatchIdx <? segmentNormEnd) in
      let startSegmentIdx' := if hit then segmentIdx boundary else startSegmentIdx in
      let startCharOffset' :=
        if hit then Z.min (normalizedMatchIdx - currentNormPos)
                          (len (boundaryText boundary) - 1)
        else startCharOffset in
      if (currentNormPos <? matchEnd) && (matchEnd <=? segmentNormEnd) then
        Build_SegmentSpan startSegmentIdx' (segmentIdx boundary)
          startCharOffset'
          (Z.min (matchEnd - currentNormPos) (len (boundaryText boundary)))
      else
        mapNormalizedLoop normalizedMatchIdx matchEnd rest (segmentNormEnd + 1)
          startSegmentIdx' endSegmentIdx startCharOffset' endCharOffset
  end.

Definition mapNormalizedMatchToSegments (normalizedMatchIdx : Z)
    (normalizedTargetText : jsstring) (index : TranscriptIndex)
    : option SegmentSpan :=
  let matchEnd := normalizedMatchIdx + len normalizedTargetText in
  spanIfFound
    (mapNormalizedLoop normalizedMatchIdx matchEnd (segmentBoundaries index)
       0 (-1) (-1) 0 0).

(** ** The three-stage matcher *)

Inductive MatchStrategy := Exact | Normalized | FuzzyNgram.

Record MatchResult := {
  found : bool;
  startSegmentIdx : Z;
  endSegmentIdx : Z;
  startCharOffset : Z;
  endCharOffset : Z;
  matchStrategy : MatchStrategy;
  similarity : Q;
  confidence : Q
}.

(** The options read by [findTextInTranscript]; its [strategy] option is
    never read by the function and is left out. *)
Record MatchOptions := {
  startIdx : Z;
  minSimilarity : Q;
  maxSegmentWindow : Z
}.

(** [FUZZY_MATCH_THRESHOLD] and the other defaults of the destructuring. *)
Definition defaultOptions : MatchOptions :=
  {| startIdx := 0; minSimilarity := (85 # 100)%Q; maxSegmentWindow := 30 |}.

Definition withStrategy (s : SegmentSpan) (strategy : MatchStrategy)
    (sim conf : Q) : MatchResult :=
  {| found := true;
     startSegmentIdx := spanStartSegmentIdx s;
     endSegmentIdx := spanEndSegmentIdx s;
     startCharOffset := spanStartCharOffset s;
     endCharOffset := spanEndCharOffset s;
     matchStrategy := strategy;
     similarity := sim;
     confidence := conf |}.

(** [segmentScores], a [Map<number, number>]: keys in insertion order. *)
Fixpoint scoreGet (segIdx : Z) (scores : list (Z * Z)) : option Z :=
  match scores with
  | [] => None
  | (k, v) :: rest => if k =? segIdx then Some v else scoreGet segIdx rest
  end.

Fixpoint scoreSet (segIdx v : Z) (scores : list (Z * Z)) : list (Z * Z) :=
  match scores with
  | [] => [(segIdx, v)]
  | (k, w) :: rest =>
      if k =? segIdx then (k, v) :: rest else (k, w) :: scoreSet segIdx v rest
  end.

(** The body of [for (const segIdx of segments)]. *)
Definition voteFor (startIdx : Z) (scores : list (Z * Z)) (segIdx : Z)
    : list (Z * Z) :=
  if startIdx <=? segIdx
  then scoreSet segIdx (default 0 (scoreGet segIdx scores) + 1) scores
  else scores.

(** The body of [for (const word of targetWords)]. *)
Definition voteWord (wi : gmap jsstring (list Z)) (startIdx : Z)
    (scores : list (Z * Z)) (word : jsstring) : list (Z * Z) :=
  foldl (voteFor startIdx) scores (postings wi word).

Definition tallyVotes (wi : gmap jsstring (list Z)) (startIdx : Z)
    (targetWords : list jsstring) : list (Z * Z) :=
  foldl (voteWord wi startIdx) [] targetWords.

(** [entries.sort((a, b) => b[1] - a[1])]: [Array.prototype.sort] is stable,
    so the result is the one of a stable insertion sort by decreasing
    score. *)
Fixpoint insertByScore (x : Z * Z) (l : list (Z * Z)) : list (Z * Z) :=
  match l with
  | [] => [x]
  | y :: l' => if x.2 <? y.2 then y :: insertByScore x l' else x :: l
  end.

Definition sortByScore (l : list (Z * Z)) : list (Z * Z) :=
  foldr insertByScore [] l.

Definition qmin (a b : Q) : Q := if Qle_bool a b then a else b.

(** [targetWords]: the words of the normalised target longer than 2. *)
Definition wordsOf (targetText : jsstring) : list jsstring :=
  filter (λ w, 2 < len w) (splitWhitespace (normalizeForMatching toLowerCase targetText)).

(** The loop [for (let i = windowStart; i <= windowEnd; i++)]; [segs] holds
    [transcript[i]], ..., [transcript[windowEnd]]. *)
Fixpoint growWindow (targetText : jsstring) (minSim : Q)
    (windowStart score nWords : Z) (segs : list TranscriptSegment) (i : Z)
    (combinedText : jsstring) : option MatchResult :=
  match segs with
  | [] => None
  | seg :: rest =>
      let combinedText' :=
        (if windowStart <? i then combinedText ++ SPACE else combinedText)
        ++ text seg in
      let normalizedCombined := normalizeForMatching toLowerCase combinedText' in
      let sim := calculateNgramSimilarity
                   (normalizeForMatching toLowerCase targetText)
                   normalizedCombined in
      if Qle_bool minSim sim then
        Some {| found := true;
                startSegmentIdx := windowStart;
                endSegmentIdx := i;
                startCharOffset := 0;
                endCharOffset := len (text seg);
                matchStrategy := FuzzyNgram;
                similarity := sim;
                confidence :=
                  qmin 1 (inject_Z score / inject_Z nWords) |}
      else growWindow targetText minSim windowStart score nWords rest (i + 1)
             combinedText'
  end.

(** One turn of [for (const [candidateIdx, score] of scoredSegments)]. *)
Definition tryCandidate (transcript : list TranscriptSegment)
    (targetText : jsstring) (options : MatchOptions) (nWords : Z)
    (candidate : Z * Z) : option MatchResult :=
  let '(candidateIdx, score) := candidate in
  let windowStart := Z.max 0 (candidateIdx - 2) in
  let windowEnd :=
    Z.min (len transcript - 1) (candidateIdx + maxSegmentWindow options) in
  let segs := take (Z.to_nat (windowEnd - windowStart + 1))
                (drop (Z.to_nat windowStart) transcript) in
  growWindow targetText (minSimilarity options) windowStart score nWords
    segs windowStart [].

Fixpoint tryCandidates (transcript : list TranscriptSegment)
    (targetText : jsstring) (options : MatchOptions) (nWords : Z)
    (candidates : list (Z * Z)) : option MatchResult :=
  match candidates with
  | [] => None
  | c :: rest =>
      match tryCandidate transcript targetText options nWords c with
      | Some r => Some r
      | None => tryCandidates transcript targetText options nWords rest
      end
  end.

Definition exactStage (targetText : jsstring) (index : TranscriptIndex)
    : option MatchResult :=
  let exactMatch := boyerMooreSearch (fullTextSpace index) targetText in
  if negb (exactMatch =? -1) then
    match mapMatchToSegments exactMatch (len targetText) index with
    | Some result => Some (withStrategy result Exact 1 1)
    | None => None
    end
  else None.

Definition normalizedStage (targetText : jsstring) (index : TranscriptIndex)
    : option MatchResult :=
  let normalizedTarget := normalizeWhitespace targetText in
  let normalizedMatch := boyerMooreSearch (normalizedText index) normalizedTarget in
  if negb (normalizedMatch =? -1) then
    match mapNormalizedMatchToSegments normalizedMatch normalizedTarget index with
    | Some result =>
        Some (withStrategy result Normalized (95 # 100) (95 # 100))
    | None => None
    end
  else None.

Definition fuzzyStage (transcript : list TranscriptSegment)
    (targetText : jsstring) (index : TranscriptIndex) (options : MatchOptions)
    : option MatchResult :=
  let targetWords := wordsOf targetText in
  if 0 <? len targetWords then
    let segmentScores := tallyVotes (wordIndex index) (startIdx options) targetWords in
    let scoredSegments := take 15 (sortByScore segmentScores) in
    tryCandidates transcript targetText options (len targetWords) scoredSegments
  else None.

Definition findTextInTranscript (transcript : list TranscriptSegment)
    (targetText : jsstring) (index : TranscriptIndex) (options : MatchOptions)
    : option MatchResult :=
  match exactStage targetText index with
  | Some r => Some r
  | None =>
      match normalizedStage targetText index with
      | Some r => Some r
      | None => fuzzyStage transcript targetText index options
      end
  end.

End Matcher.

(** ** The orchestrator: [findExactQuotes] *)

Record Quote := {
  quoteTimestamp : jsstring;
  quoteText : jsstring
}.

Record ResolvedQuote := {
  rStart : Q;
  rEnd : Q;
  rText : jsstring;
  rStartSegmentIdx : Z;
  rEndSegmentIdx : Z;
  rStartCharOffset : Z;
  rEndCharOffset : Z;
  hasCompleteSentences : bool;
  rConfidence : Q
}.

(** How a call ends: with a value, or with a [TypeError] (reading a property
    of [undefined]). *)
Inductive Completion (A : Type) :=
  | Normal (a : A)
  | Throw.
Arguments Normal {A} a.
Arguments Throw {A}.

(** [transcript[i]] *)
Definition segmentAt (transcript : list TranscriptSegment) (i : Z)
    : option TranscriptSegment :=
  if i <? 0 then None else transcript !! Z.to_nat i.

(** [parts.join(' ')] *)
Fixpoint joinWithSpace (parts : list jsstring) : jsstring :=
  match parts with
  | [] => []
  | [p] => p
  | p :: rest => p ++ SPACE ++ joinWithSpace rest
  end.

(** The loop that fills [segmentsInRange], from index [i] on. *)
Fixpoint segmentsInRangeFrom (timestampStart timestampEnd : Q) (i : Z)
    (segments : list TranscriptSegment) : list (Z * TranscriptSegment) :=
  match segments with
  | [] => []
  | segment :: rest =>
      let segmentEnd := (start segment + duration segment)%Q in
      let tail := segmentsInRangeFrom timestampStart timestampEnd (i + 1) rest in
      if Qle_bool (start segment) timestampEnd
         && Qle_bool timestampStart segmentEnd
      then (i, segment) :: tail else tail
  end.

(** The object returned for a match of the text matcher; reading [.start] of
    a segment that does not exist throws. *)
Definition resolvedFromMatch (transcript : list TranscriptSegment)
    (quoteText : jsstring) (m : MatchResult)
    : Completion (option ResolvedQuote) :=
  match segmentAt transcript (startSegmentIdx m),
        segmentAt transcript (endSegmentIdx m) with
  | Some startSegment, Some endSegment =>
      Normal (Some
        {| rStart := start startSegment;
           rEnd := (start endSegment + duration endSegment)%Q;
           rText := quoteText;
           rStartSegmentIdx := startSegmentIdx m;
           rEndSegmentIdx := endSegmentIdx m;
           rStartCharOffset := startCharOffset m;
           rEndCharOffset := endCharOffset m;
           hasCompleteSentences :=
             match matchStrategy m with FuzzyNgram => false | _ => true end;
           rConfidence := confidence m |})
  | _, _ => Throw
  end.

(** The final fallback, built from the first and last overlapping segment. *)
Definition timestampFallback (firstSegment lastSegment : Z * TranscriptSegment)
    (segmentsInRange : list (Z * TranscriptSegment)) : ResolvedQuote :=
  {| rStart := start firstSegment.2;
     rEnd := (start lastSegment.2 + duration lastSegment.2)%Q;
     rText := joinWithSpace (map (λ s, text s.2) segmentsInRange);
     rStartSegmentIdx := firstSegment.1;
     rEndSegmentIdx := lastSegment.1;
     rStartCharOffset := 0;
     rEndCharOffset := len (text lastSegment.2);
     hasCompleteSentences := false;
     rConfidence := (5 # 10)%Q |}.

Definition globalOptions : MatchOptions :=
  {| startIdx := 0; minSimilarity := (8 # 10)%Q; maxSegmentWindow := 20 |}.

Definition rangeOptions (startSearchIdx endSearchIdx : Z) : MatchOptions :=
  {| startIdx := Z.max 0 (startSearchIdx - 2);
     minSimilarity := (75 # 100)%Q;
     maxSegmentWindow := Z.min 20 (endSearchIdx - startSearchIdx + 5) |}.

Section Orchestrator.

Variable toLowerCase : jsstring → jsstring.

(** [parseTimestampRange] lives in [lib/timestamp-utils], which is not among
    the sources; the orchestrator is parametric in it. [None] is [null]. *)
Variable parseTimestampRange : jsstring → option (Q * Q).

(** The [else] branch of the per-quote function: no match of the text
    matcher over the whole transcript. *)
Definition resolveByTimestamp (transcript : list TranscriptSegment)
    (quoteText : jsstring) (index : TranscriptIndex)
    (timestampStart timestampEnd : Q) : Completion (option ResolvedQuote) :=
  let segmentsInRange :=
    segmentsInRangeFrom timestampStart timestampEnd 0 transcript in
  match segmentsInRange with
  | [] => Normal None
  | firstSegment :: _ =>
      let lastSegment := List.last segmentsInRange firstSegment in
      let startSearchIdx := firstSegment.1 in
      let endSearchIdx := lastSegment.1 in
      let fallback :=
        Normal (Some (timestampFallback firstSegment lastSegment segmentsInRange)) in
      match findTextInTranscript toLowerCase transcript quoteText index
              (rangeOptions startSearchIdx endSearchIdx) with
      | Some rangeMatch =>
          if startSegmentIdx rangeMatch <=? endSearchIdx + 2
          then resolvedFromMatch transcript quoteText rangeMatch
          else fallback
      | None => fallback
      end
  end.

(** The function mapped over [quotes]. *)
Definition findExactQuote (transcript : list TranscriptSegment)
    (quote : Quote) (index : TranscriptIndex)
    : Completion (option ResolvedQuote) :=
  let timestampRange :=
    if len (quoteTimestamp quote) =? 0 then None
    else parseTimestampRange (quoteTimestamp quote) in
  match timestampRange with
  | None => Normal None
  | Some (timestampStart, timestampEnd) =>
      let quoteText := trim (quoteText quote) in
      if len quoteText =? 0 then Normal None
      else
        match findTextInTranscript toLowerCase transcript quoteText index
                globalOptions with
        | Some m => resolvedFromMatch transcript quoteText m
        | None =>
            resolveByTimestamp transcript quoteText index
              timestampStart timestampEnd
        end
  end.

(** [Promise.all] over the per-quote results, then the filter on
    [r !== null]. *)
Fixpoint findExactQuotes (transcript : list TranscriptSegment)
    (quotes : list Quote) (index : TranscriptIndex)
    : Completion (list ResolvedQuote) :=
  match quotes with
  | [] => Normal []
  | quote :: rest =>
      match findExactQuote transcript quote index,
            findExactQuotes transcript rest index with
      | Normal (Some r), Normal rs => Normal (r :: rs)
      | Normal None, Normal rs => Normal rs
      | _, _ => Throw
      end
  end.

End Orchestrator.

(** ** The timestamp parser *)

(** The pieces of [s] between the occurrences of the character [sep];
    [cur] is the piece being read, reversed. *)
Fixpoint splitOnFrom (sep : N) (cur : jsstring) (s : jsstring) : list jsstring :=
  match s with
  | [] => [rev cur]
  | c :: t => if (c =? sep)%N then rev cur :: splitOnFrom sep [] t
              else splitOnFrom sep (c :: cur) t
  end.

(** A decimal number: one digit at least, digits only. *)
Fixpoint parseDigitsFrom (acc : Z) (s : jsstring) : option Z :=
  match s with
  | [] => Some acc
  | c :: t => if ((48 <=? c) && (c <=? 57))%N
              then parseDigitsFrom (10 * acc + (Z.of_N c - 48)) t
              else None
  end.

Definition parseDigits (s : jsstring) : option Z :=
  match s with
  | [] => None
  | _ => parseDigitsFrom 0 s
  end.

(** Modelled from the spec: one side of a range, read as [MM:SS] or
    [HH:MM:SS] and counted in seconds. *)
Definition parseClock (s : jsstring) : option Z :=
  match map parseDigits (splitOnFrom 58 [] s) with
  | [Some m; Some sec] => Some (60 * m + sec)
  | [Some h; Some m; Some sec] => Some (3600 * h + 60 * m + sec)
  | _ => None
  end.

(** Modelled from the spec: [parseTimestampRange] of [lib/timestamp-utils],
    which is not among the sources. The spec gives the format of a range,
    [MM:SS-MM:SS] or [HH:MM:SS-HH:MM:SS] between square brackets, each side
    of the hyphen being read as [MM:SS] or [HH:MM:SS]; anything else does not
    parse. The orchestrator and its theorems are parametric in the parser;
    this model only serves to run the orchestrator on examples. *)
Definition parseTimestampRangeModel (s : jsstring) : option (Q * Q) :=
  match s with
  | 91%N :: rest =>
      match rev rest with
      | 93%N :: body =>
          match map parseClock (splitOnFrom 45 [] (rev body)) with
          | [Some a; Some b] => Some (inject_Z a, inject_Z b)
          | _ => None
          end
      | _ => None
      end
  | _ => None
  end.

(** ** The full text of a transcript (ai-processing) *)

(** [segments.map(s => s.text).join(' ')] *)
Definition combineTranscript (segments : list TranscriptSegment) : jsstring :=
  joinWithSpace (map text segments).

(** ** Candidate topics (ai-processing) *)

(** [CandidateTopic]: a parsed topic with the chunk it comes from. [None]
    is a missing [quote]. *)
Record CandidateTopic := {
  topicTitle : jsstring;
  topicQuote : option Quote;
  sourceChunkId : jsstring;
  chunkStart : Q;
  chunkEnd : Q
}.

(** The template [timestamp|normalizeWhitespace(text)]. *)
Definition candidateKey (q : Quote) : jsstring :=
  quoteTimestamp q ++ [124%N] ++ normalizeWhitespace (quoteText q).

(** The loop of [dedupeCandidates], with the set [seen] so far. *)
Fixpoint dedupeFrom (seen : gset jsstring) (candidates : list CandidateTopic)
    : list CandidateTopic :=
  match candidates with
  | [] => []
  | candidate :: rest =>
      match topicQuote candidate with
      | None => dedupeFrom seen rest
      | Some q =>
          if (len (quoteTimestamp q) =? 0) || (len (quoteText q) =? 0)
          then dedupeFrom seen rest
          else
            let key := candidateKey q in
            if decide (key ∈ seen) then dedupeFrom seen rest
            else candidate :: dedupeFrom ({[key]} ∪ seen) rest
      end
  end.

Definition dedupeCandidates (candidates : list CandidateTopic)
    : list CandidateTopic :=
  dedupeFrom ∅ candidates.

(** ** Themes (ai-processing) *)

(** The loop of [sanitizeThemeList], with the set [unique] so far. *)
Fixpoint sanitizeFrom (toLowerCase : jsstring → jsstring)
    (unique : gset jsstring) (themes : list jsstring) : list jsstring :=
  match themes with
  | [] => []
  | theme :: rest =>
      let trimmed := trim theme in
      if len trimmed =? 0 then sanitizeFrom toLowerCase unique rest
      else
        let normalized := toLowerCase trimmed in
        if decide (normalized ∈ unique) then sanitizeFrom toLowerCase unique rest
        else trimmed :: sanitizeFrom toLowerCase ({[normalized]} ∪ unique) rest
  end.

Definition sanitizeThemeList (toLowerCase : jsstring → jsstring)
    (themes : list jsstring) : list jsstring :=
  sanitizeFrom toLowerCase ∅ themes.

Definition THEME_STOP_WORDS : gset jsstring :=
  list_to_set (map js
    ["a"; "an"; "the"; "and"; "or"; "but"; "for"; "nor"; "with"; "without";
     "of"; "on"; "in"; "into"; "onto"; "to"; "from"; "by"; "about"; "over";
     "under"; "across"; "between"; "vs"; "versus"; "per"; "via"]%string).

(** The class [[a-z0-9]]. *)
Definition isThemeChar (c : N) : bool :=
  (((97 <=? c) && (c <=? 122)) || ((48 <=? c) && (c <=? 57)))%N.

(** [s.replace(/[^a-z0-9\s]/g, ' ')] *)
Definition blankOthers (s : jsstring) : jsstring :=
  map (λ c, if isThemeChar c || isWhitespace c then c else 32%N) s.

(** [s.endsWith(suffix)] *)
Definition endsWith (s suffix : jsstring) : bool :=
  startsWith (rev s) (rev suffix).

(** [s.slice(0, -n)] for [n > 0] *)
Definition dropLast (n : nat) (s : jsstring) : jsstring :=
  take (length s - n) s.

(** [token.replace(/'s$/, '')] *)
Definition stripPossessive (token : jsstring) : jsstring :=
  if endsWith token (js "'s") then dropLast 2 token else token.

(** The second [map] of [extractThemeTokens]. *)
Definition stripPlural (token : jsstring) : jsstring :=
  if endsWith token (js "s") && (3 <? len token) then dropLast 1 token
  else token.

Definition extractThemeTokens (toLowerCase : jsstring → jsstring)
    (theme : jsstring) : list jsstring :=
  filter (λ token, 0 < len token ∧ token ∉ THEME_STOP_WORDS)
    (map stripPlural
       (map stripPossessive
          (splitWhitespace (blankOthers (toLowerCase theme))))).

(** [tokens[tokens.length - 1]] of a non-empty array. *)
Definition lastToken (tokens : list jsstring) : jsstring :=
  default [] (last tokens).

Definition areThemesSimilar (aTokens bTokens : list jsstring) : bool :=
  if (len aTokens =? 0) || (len bTokens =? 0) then false
  else
    let setA : gset jsstring := list_to_set aTokens in
    let setB : gset jsstring := list_to_set bTokens in
    let overlap := countShared setA setB in
    if Nat.eqb overlap 0 then false
    else
      let smallerSize := Nat.min (size setA) (size setB) in
      let containment :=
        (inject_Z (Z.of_nat overlap) / inject_Z (Z.of_nat smallerSize))%Q in
      let unionSize := (size setA + size setB - overlap)%nat in
      let jaccard :=
        (inject_Z (Z.of_nat overlap) / inject_Z (Z.of_nat unionSize))%Q in
      let lastTokenA := lastToken aTokens in
      let lastTokenB := lastToken bTokens in
      let shareSpecificLastToken :=
        bool_decide (lastTokenA = lastTokenB) && (3 <? len lastTokenA)
        && negb (bool_decide (lastTokenA ∈ THEME_STOP_WORDS)) in
      Qle_bool (75 # 100) containment || Qle_bool (6 # 10) jaccard
      || shareSpecificLastToken.

Record ThemeTokenInfo := {
  themeValue : jsstring;
  themeTokens : list jsstring
}.

(** The loop of [promoteDistinctThemes] over the themes with their tokens. *)
Fixpoint promoteLoop (primaryCount : Z) (selected deferred : list ThemeTokenInfo)
    (items : list ThemeTokenInfo) : list ThemeTokenInfo * list ThemeTokenInfo :=
  match items with
  | [] => (selected, deferred)
  | item :: rest =>
      if (len selected <? primaryCount)
         && negb (existsb (λ sel, areThemesSimilar (themeTokens sel)
                                    (themeTokens item)) selected)
      then promoteLoop primaryCount (selected ++ [item]) deferred rest
      else promoteLoop primaryCount selected (deferred ++ [item]) rest
  end.

(** [promoteDistinctThemes(themes, primaryCount)]; the source gives
    [primaryCount] the default 3. [deferred.splice(0, needed)] removes the
    first [needed] entries of [deferred] and returns them. *)
Definition promoteDistinctThemes (toLowerCase : jsstring → jsstring)
    (themes : list jsstring) (primaryCount : Z) : list jsstring :=
  if len themes <=? 1 then themes
  else
    let themedTokens :=
      map (λ theme, {| themeValue := theme;
                       themeTokens := extractThemeTokens toLowerCase theme |})
          themes in
    let '(selected, deferred) := promoteLoop primaryCount [] [] themedTokens in
    let '(selected, deferred) :=
      if len selected <? primaryCount then
        let needed := Z.to_nat (primaryCount - len selected) in
        (selected ++ take needed deferred, drop needed deferred)
      else (selected, deferred) in
    map themeValue (selected ++ deferred).

(** ** Chunks of a transcript (ai-processing) *)

(** [a < b] on numbers. *)
Definition qlt (a b : Q) : bool := negb (Qle_bool b a).

(** [Math.max(a, b)] *)
Definition qmax (a b : Q) : Q := if Qle_bool a b then b else a.

(** The decimal digits of a number written in base ten. *)
Fixpoint uintChars (d : Decimal.uint) : jsstring :=
  match d with
  | Decimal.Nil => []
  | Decimal.D0 d => 48%N :: uintChars d
  | Decimal.D1 d => 49%N :: uintChars d
  | Decimal.D2 d => 50%N :: uintChars d
  | Decimal.D3 d => 51%N :: uintChars d
  | Decimal.D4 d => 52%N :: uintChars d
  | Decimal.D5 d => 53%N :: uintChars d
  | Decimal.D6 d => 54%N :: uintChars d
  | Decimal.D7 d => 55%N :: uintChars d
  | Decimal.D8 d => 56%N :: uintChars d
  | Decimal.D9 d => 57%N :: uintChars d
  end.

(** [n.toString()] for an integer [n]. *)
Definition decimal (n : Z) : jsstring :=
  match n with
  | Z0 => [48%N]
  | Zpos p => uintChars (Pos.to_uint p)
  | Zneg p => 45%N :: uintChars (Pos.to_uint p)
  end.

Record TranscriptChunk := {
  cId : jsstring;
  cStart : Q;
  cEnd : Q;
  cSegments : list TranscriptSegment
}.

(** The chunk pushed on [chunks]; its id is numbered after the length of
    [chunks]. *)
Definition makeChunk (chunks : list TranscriptChunk) (chunkStart chunkEnd : Q)
    (chunkSegments : list TranscriptSegment) : TranscriptChunk :=
  {| cId := js "chunk-" ++ decimal (len chunks + 1);
     cStart := chunkStart;
     cEnd := chunkEnd;
     cSegments := chunkSegments |}.

(** The loop that moves [anchorIdx] past the segments that end at
    [windowStart] or before; [rest] is [segments] from [anchorIdx] on. The
    sum [start + duration] is exact, where the source rounds it to a
    double. *)
Fixpoint advanceAnchor (windowStart : Q) (anchorIdx : Z)
    (rest : list TranscriptSegment) : Z :=
  match rest with
  | [] => anchorIdx
  | segment :: rest' =>
      if Qle_bool (start segment + duration segment) windowStart
      then advanceAnchor windowStart (anchorIdx + 1) rest'
      else anchorIdx
  end.

(** The loop that fills [chunkSegments]; [rest] is [segments] from [idx]
    on. The variable [windowEnd] of the source is never read. *)
Fixpoint collectChunk (windowEndTarget : Q)
    (chunkSegments rest : list TranscriptSegment) : list TranscriptSegment :=
  match rest with
  | [] => chunkSegments
  | segment :: rest' =>
      let segmentEnd := (start segment + duration segment)%Q in
      if qlt windowEndTarget (start segment) && (0 <? len chunkSegments)
      then chunkSegments
      else
        let chunkSegments := chunkSegments ++ [segment] in
        if Qle_bool windowEndTarget segmentEnd && (0 <? len chunkSegments)
        then chunkSegments
        else collectChunk windowEndTarget chunkSegments rest'
  end.

(** The main loop; [fuel] bounds the number of its turns, and [None] is a
    run that needs more. [anchorIdx >= segments.length] is the absence of
    [segments[anchorIdx]], the index never being negative. *)
Fixpoint chunkLoop (fuel : nat) (segments : list TranscriptSegment)
    (effectiveChunkDuration step totalDuration windowStart : Q) (anchorIdx : Z)
    (chunks : list TranscriptChunk) : option (Completion (list TranscriptChunk)) :=
  match fuel with
  | O => None
  | S fuel' =>
      if qlt windowStart totalDuration && (anchorIdx <? len segments) then
        let anchorIdx :=
          advanceAnchor windowStart anchorIdx
            (drop (Z.to_nat anchorIdx) segments) in
        match segmentAt segments anchorIdx with
        | None => Some (Normal chunks)
        | Some anchor =>
            let windowEndTarget := (windowStart + effectiveChunkDuration)%Q in
            let chunkSegments :=
              collectChunk windowEndTarget []
                (drop (Z.to_nat anchorIdx) segments) in
            let chunkSegments :=
              if len chunkSegments =? 0 then [anchor] else chunkSegments in
            match head chunkSegments, last chunkSegments with
            | Some firstOfChunk, Some lastOfChunk =>
                let chunkStart := start firstOfChunk in
                let chunkEnd := (start lastOfChunk + duration lastOfChunk)%Q in
                chunkLoop fuel' segments effectiveChunkDuration step
                  totalDuration (chunkStart + step)%Q anchorIdx
                  (chunks ++ [makeChunk chunks chunkStart chunkEnd chunkSegments])
            | _, _ => Some Throw
            end
        end
      else Some (Normal chunks)
  end.

(** The chunk added when the last chunk stops more than five seconds
    before the end. *)
Definition addTail (segments : list TranscriptSegment)
    (firstSegment : TranscriptSegment)
    (effectiveChunkDuration totalDuration : Q) (chunks : list TranscriptChunk)
    : list TranscriptChunk :=
  match last chunks with
  | None => chunks
  | Some lastChunk =>
      let coverageGap := (totalDuration - cEnd lastChunk)%Q in
      if qlt 5 coverageGap then
        let tailStartTime :=
          qmax (start firstSegment) (totalDuration - effectiveChunkDuration) in
        let tailSegments :=
          filter (λ seg, Qle_bool tailStartTime (start seg + duration seg) = true)
                 segments in
        match head tailSegments, last tailSegments with
        | Some tailFirst, Some tailLast =>
            let tailEnd := (start tailLast + duration tailLast)%Q in
            if qlt (cEnd lastChunk + 1) tailEnd
            then chunks ++ [makeChunk chunks (start tailFirst) tailEnd tailSegments]
            else chunks
        | _, _ => chunks
        end
      else chunks
  end.

Definition effectiveChunkDurationOf (chunkDurationSeconds : Q) : Q :=
  qmax 180 chunkDurationSeconds.

Definition effectiveOverlapOf (chunkDurationSeconds overlapSeconds : Q) : Q :=
  qmin (qmax overlapSeconds 0)
       (inject_Z (Qfloor (effectiveChunkDurationOf chunkDurationSeconds / 2))).

Definition stepOf (chunkDurationSeconds overlapSeconds : Q) : Q :=
  qmax 60 (effectiveChunkDurationOf chunkDurationSeconds
           - effectiveOverlapOf chunkDurationSeconds overlapSeconds).

Definition chunkTranscript (fuel : nat) (segments : list TranscriptSegment)
    (chunkDurationSeconds overlapSeconds : Q)
    : option (Completion (list TranscriptChunk)) :=
  match segments, last segments with
  | firstSegment :: _, Some lastSegment =>
      let totalDuration := (start lastSegment + duration lastSegment)%Q in
      let effectiveChunkDuration := effectiveChunkDurationOf chunkDurationSeconds in
      let step := stepOf chunkDurationSeconds overlapSeconds in
      match chunkLoop fuel segments effectiveChunkDuration step totalDuration
              (start firstSegment) 0 [] with
      | Some (Normal chunks) =>
          Some (Normal (addTail segments firstSegment effectiveChunkDuration
                          totalDuration chunks))
      | other => other
      end
  | _, _ => Some (Normal [])
  end.

(** ** Fallback topics (ai-processing) *)

Record ParsedTopic := {
  pTitle : jsstring;
  pQuote : option Quote
}.

(** [x % m] for a positive [m]: the remainder of the division truncated
    toward zero. *)
Definition jsRem (x : Q) (m : Z) : Q :=
  let q := (x / inject_Z m)%Q in
  let truncated := if Qle_bool 0 q then Qfloor q else Qceiling q in
  (x - inject_Z (m * truncated))%Q.

(** [s.padStart(2, '0')] *)
Definition padStart2 (s : jsstring) : jsstring :=
  repeat 48%N (Z.to_nat (2 - len s)) ++ s.

Definition formatTime (seconds : Q) : jsstring :=
  let mins := Qfloor (seconds / 60) in
  let secs := Qfloor (jsRem seconds 60) in
  padStart2 (decimal mins) ++ js ":" ++ padStart2 (decimal secs).

(** [if (theme)]: the theme is given and is not the empty string. *)
Definition truthy (theme : option jsstring) : bool :=
  match theme with
  | Some t => negb (len t =? 0)
  | None => false
  end.

(** [theme ? themed : plain] *)
Definition titleFor (theme : option jsstring) (themed : jsstring → jsstring)
    (plain : jsstring) : jsstring :=
  match theme with
  | Some t => if negb (len t =? 0) then themed t else plain
  | None => plain
  end.

(** [l.slice(s, e)] for [0 <= s]. *)
Definition slice {A} (s e : Z) (l : list A) : list A :=
  take (Z.to_nat (e - s)) (drop (Z.to_nat s) l).

(** The topic that covers the whole video. *)
Definition wholeVideoTopic (theme : option jsstring) (suffix : jsstring)
    (fullText : jsstring) : ParsedTopic :=
  {| pTitle := titleFor theme (λ t, t ++ suffix) (js "Full Video");
     pQuote := Some {| quoteTimestamp := js "[00:00-00:30]";
                       quoteText := take 200 fullText |} |}.

(** The loop of [buildFallbackTopics]; [fuel] bounds the number of its
    turns, and [None] is a run that needs more. *)
Fixpoint fallbackLoop (fuel : nat) (transcript : list TranscriptSegment)
    (theme : option jsstring) (fallbackCount : Q) (chunkSize i : Z)
    (fallbackTopics : list ParsedTopic) : option (list ParsedTopic) :=
  if qlt (inject_Z i) fallbackCount && (i * chunkSize <? len transcript) then
    match fuel with
    | O => None
    | S fuel' =>
        let startIdx := i * chunkSize in
        let endIdx := Z.min ((i + 1) * chunkSize) (len transcript) in
        let chunkSegments := slice startIdx endIdx transcript in
        match head chunkSegments, last chunkSegments with
        | Some firstOfChunk, Some endSegment =>
            let startTime := start firstOfChunk in
            let endTime := (start endSegment + duration endSegment)%Q in
            let topic :=
              {| pTitle :=
                   titleFor theme
                     (λ t, t ++ [32%N; 8212%N; 32%N] ++ js "part "
                             ++ decimal (i + 1))
                     (js "Part " ++ decimal (i + 1));
                 pQuote :=
                   Some {| quoteTimestamp :=
                             js "[" ++ formatTime startTime ++ js "-"
                             ++ formatTime endTime ++ js "]";
                           quoteText :=
                             take 200 (joinWithSpace (map text chunkSegments))
                             ++ js "..." |} |} in
            fallbackLoop fuel' transcript theme fallbackCount chunkSize (i + 1)
              (fallbackTopics ++ [topic])
        | _, _ =>
            fallbackLoop fuel' transcript theme fallbackCount chunkSize (i + 1)
              fallbackTopics
        end
    end
  else Some fallbackTopics.

Definition buildFallbackTopics (fuel : nat) (transcript : list TranscriptSegment)
    (maxTopics : Q) (fullText : jsstring) (theme : option jsstring)
    : option (list ParsedTopic) :=
  if truthy theme then Some []
  else if len transcript =? 0 then
    if len fullText =? 0 then Some []
    else Some [wholeVideoTopic theme (js " overview") fullText]
  else
    let fallbackCount := qmin 6 (qmax 1 maxTopics) in
    let chunkSize := Qceiling (inject_Z (len transcript) / fallbackCount) in
    match fallbackLoop fuel transcript theme fallbackCount chunkSize 0 [] with
    | Some fallbackTopics =>
        if (len fallbackTopics =? 0) && negb (len fullText =? 0)
        then Some (fallbackTopics ++ [wholeVideoTopic theme (js " spotlight") fullText])
        else Some fallbackTopics
    | None => None
    end.

(** ** Vocabulary of the statements *)

(** Number of occurrences of [x] in [l]. *)
Definition countOf {A} `{EqDecision A} (x : A) (l : list A) : Z :=
  len (filter (λ y, y = x) l).

(** The words of segment [segIdx], as the indexer splits them. *)
Definition segmentWords (toLowerCase : jsstring → jsstring)
    (transcript : list TranscriptSegment) (segIdx : Z) : list jsstring :=
  match segmentAt transcript segIdx with
  | Some segment => splitWhitespace (normalizeForMatching toLowerCase (text segment))
  | None => []
  end.





(** [p] occurs in [s] at offset [i]: [i + p.length <= s.length] and
    [s.substring(i, i + p.length) === p]. *)
Definition occursAt (s p : jsstring) (i : Z) : Prop :=
  0 <= i ∧ i + len p <= len s ∧ take (length p) (drop (Z.to_nat i) s) = p.

(** What the bad-character table knows about the pattern positions below
    [bound]: the entry of [c] is the distance from the last position to the
    last occurrence of [c], and characters without entry do not occur. *)
Definition badCharInv (pattern : jsstring) (bound : Z) (badChar : gmap N Z)
    : Prop :=
  ∀ c, match badChar !! c with
       | Some v =>
           ∃ i0, 0 <= i0 < bound ∧ charAt pattern i0 = Some c ∧
                 v = len pattern - 1 - i0 ∧
                 ∀ i', i0 < i' < bound → charAt pattern i' ≠ Some c
       | None => ∀ i', 0 <= i' < bound → charAt pattern i' ≠ Some c
       end.

(** [clean1.includes(clean2) || clean2.includes(clean1)], as a
    proposition. *)
Definition oneContainsOther (clean1 clean2 : jsstring) : Prop :=
  (∃ pre post, clean1 = pre ++ clean2 ++ post) ∨
  (∃ pre post, clean2 = pre ++ clean1 ++ post).

(** The boundary records of the segments [segs], the first of which has
    index [idx] and starts at offset [pos] of [fullTextSpace]. *)
Fixpoint boundariesFrom (toLowerCase : jsstring → jsstring) (idx pos : Z)
    (segs : list TranscriptSegment) : list SegmentBoundary :=
  match segs with
  | [] => []
  | segment :: rest =>
      {| segmentIdx := idx;
         startPos := pos;
         endPos := pos + len (text segment);
         boundaryText := text segment;
         boundaryNormalizedText := normalizeForMatching toLowerCase (text segment) |}
      :: boundariesFrom toLowerCase (idx + 1) (pos + len (text segment) + 1) rest
  end.

(** The indices [ss] and [es] designate existing segments, in order. *)
Definition validIndices (transcript : list TranscriptSegment) (ss es : Z) : Prop :=
  0 <= ss ∧ ss <= es ∧ es < len transcript.

(** A span designates existing segments, in order, with offsets inside
    their texts, and is not empty when it lies in one segment. *)
Definition validSpan (transcript : list TranscriptSegment)
    (ss es so eo : Z) : Prop :=
  ∃ segS segE,
    segmentAt transcript ss = Some segS ∧
    segmentAt transcript es = Some segE ∧
    ss <= es ∧
    0 <= so <= len (text segS) ∧
    0 <= eo <= len (text segE) ∧
    (ss = es → so < eo).

(** Between two turns of the loop of [mapMatchToSegments], before the
    boundary of index [idx]. *)
Definition exactInv (transcript : list TranscriptSegment) (idx ss es so eo : Z)
    : Prop :=
  (ss = -1 ∨
   (0 <= ss < idx ∧ ss <= es ∧
    ∃ segment, segmentAt transcript ss = Some segment ∧ 0 <= so < len (text segment)))
  ∧
  (es = -1 ∨
   (0 <= es < idx ∧
    ∃ segment, segmentAt transcript es = Some segment ∧ eo = len (text segment))).

(** Between two turns of the loop of [mapNormalizedMatchToSegments]. *)
Definition normalizedInv (toLowerCase : jsstring → jsstring)
    (transcript : list TranscriptSegment) (idx ss so : Z)
    : Prop :=
  ss = -1 ∨
  (0 <= ss < idx ∧
   ∃ segment, segmentAt transcript ss = Some segment ∧
     (toLowerCase [] = [] → 0 <= so < len (text segment))).

(** Every key of the score map is a posting at or after [startIdx]. *)
Definition keysFrom (startIdx : Z) (scores : list (Z * Z)) : Prop :=
  ∀ k v, (k, v) ∈ scores → startIdx <= k.

(** A segment overlaps the range of a quote. *)
Definition overlaps (timestampStart timestampEnd : Q) (segment : TranscriptSegment)
    : Prop :=
  (start segment <= timestampEnd)%Q ∧
  (timestampStart <= start segment + duration segment)%Q.

(** The test of the loop that fills [segmentsInRange]. *)
Definition overlapsb (timestampStart timestampEnd : Q) (segment : TranscriptSegment)
    : bool :=
  Qle_bool (start segment) timestampEnd
  && Qle_bool timestampStart (start segment + duration segment)%Q.

(** The overlapping segments with their indices, in transcript order. *)
Definition overlapping (timestampStart timestampEnd : Q)
    (transcript : list TranscriptSegment) : list (Z * TranscriptSegment) :=
  filter (λ p, overlapsb timestampStart timestampEnd p.2 = true)
    (imap (λ i segment, (Z.of_nat i, segment)) transcript).

(** Length taken in [fullTextSpace] by the segments [segs], each with the
    space that follows it. *)
Fixpoint spanLen (segs : list TranscriptSegment) : Z :=
  match segs with
  | [] => 0
  | segment :: rest => len (text segment) + 1 + spanLen rest
  end.

(** Offset in [fullTextSpace] at which the text of segment [i] starts. *)
Definition segmentOffset (transcript : list TranscriptSegment) (i : Z) : Z :=
  spanLen (take (Z.to_nat i) transcript).

(** Whitespace of [s] is made of single U+0020 characters: every whitespace
    character is U+0020 and is not preceded by whitespace; [prev] tells that
    the character before [s] is whitespace. *)
Fixpoint spaced (prev : bool) (s : jsstring) : Prop :=
  match s with
  | [] => True
  | c :: t =>
      if isWhitespace c then c = 32%N ∧ prev = false ∧ spaced true t
      else spaced false t
  end.

(** [s] does not end with whitespace. *)
Definition endsClean (s : jsstring) : Prop :=
  ∀ c, last s = Some c → isWhitespace c = false.

(** [s] does not start with whitespace. *)
Definition startsClean (s : jsstring) : Prop :=
  ∀ c, head s = Some c → isWhitespace c = false.

(** The shape of a normalised text: words separated by single spaces. *)
Definition tidy (s : jsstring) : Prop :=
  spaced true s ∧ endsClean s.

(** The state of the loop of [mapMatchToSegments] before the boundary that
    follows the segments [pre], in the coordinates of the full text. *)
Definition coordsInv (transcript pre : list TranscriptSegment)
    (matchStart matchEnd ss es so eo : Z) : Prop :=
  (ss = -1 ∨ (0 <= ss ∧ segmentOffset transcript ss + so = matchStart)) ∧
  (es = -1 ∨
   (0 <= es ∧ segmentOffset transcript es + eo < matchEnd ∧
    (matchEnd <= segmentOffset transcript es + eo + 1 ∨
     (es = len pre - 1 ∧ segmentOffset transcript es + eo = spanLen pre - 1)))).

(** No key of the word index holds an empty list. *)
Definition noEmptyPostings (wi : gmap jsstring (list Z)) : Prop :=
  ∀ w l, wi !! w = Some l → l ≠ [].

(** No key of the n-gram index holds an empty set. *)
Definition noEmptySets (ni : gmap jsstring (gset Z)) : Prop :=
  ∀ g s, ni !! g = Some s → s ≠ ∅.

(** The 3-grams of a segment, as the indexer computes them. *)
Definition segmentNgrams (toLowerCase : jsstring → jsstring)
    (transcript : list TranscriptSegment) (i : Z) : list jsstring :=
  match segmentAt transcript i with
  | Some segment =>
      ngramList (replaceRuns isWhitespace []
                   (normalizeForMatching toLowerCase (text segment)))
  | None => []
  end.

(** What a resolved quote promises to the code that renders it: its two
    indices designate segments of the transcript, in order; its times are
    the start of the first and the end of the second; its offsets lie within
    the texts of these segments. *)
Definition resolvedValid (transcript : list TranscriptSegment)
    (r : ResolvedQuote) : Prop :=
  ∃ startSegment endSegment,
    segmentAt transcript (rStartSegmentIdx r) = Some startSegment ∧
    segmentAt transcript (rEndSegmentIdx r) = Some endSegment ∧
    rStartSegmentIdx r <= rEndSegmentIdx r ∧
    rStart r = start startSegment ∧
    rEnd r = (start endSegment + duration endSegment)%Q ∧
    0 <= rStartCharOffset r <= len (text startSegment) ∧
    0 <= rEndCharOffset r <= len (text endSegment).

(** Keeping the first entry of every key: the loop shared by
    [dedupeCandidates] and [sanitizeThemeList], [None] being an entry that is
    skipped. *)
Fixpoint keepFirst {A} (key : A → option jsstring) (seen : gset jsstring)
    (l : list A) : list A :=
  match l with
  | [] => []
  | x :: rest =>
      match key x with
      | None => keepFirst key seen rest
      | Some k =>
          if decide (k ∈ seen) then keepFirst key seen rest
          else x :: keepFirst key ({[k]} ∪ seen) rest
      end
  end.

(** The key under which [dedupeCandidates] files a candidate; [None] for a
    candidate it skips. *)
Definition candidateKeyOf (c : CandidateTopic) : option jsstring :=
  match topicQuote c with
  | None => None
  | Some q =>
      if (len (quoteTimestamp q) =? 0) || (len (quoteText q) =? 0) then None
      else Some (candidateKey q)
  end.

(** The key under which [sanitizeThemeList] files a trimmed theme. *)
Definition themeKeyOf (toLowerCase : jsstring → jsstring) (trimmed : jsstring)
    : option jsstring :=
  if len trimmed =? 0 then None else Some (toLowerCase trimmed).

(** The themes of [l] are pairwise dissimilar, each compared with the ones
    before it. *)
Definition distinctThemes (toLowerCase : jsstring → jsstring)
    (l : list jsstring) : Prop :=
  ∀ (i j : nat) a b, (i < j)%nat → l !! i = Some a → l !! j = Some b →
    areThemesSimilar (extractThemeTokens toLowerCase a)
                     (extractThemeTokens toLowerCase b) = false.

(** The entries of [l] are pairwise dissimilar, each compared with the
    ones before it. *)
Definition distinctInfos (l : list ThemeTokenInfo) : Prop :=
  ∀ (i j : nat) a b, (i < j)%nat → l !! i = Some a → l !! j = Some b →
    areThemesSimilar (themeTokens a) (themeTokens b) = false.

(** A theme with its tokens, as [promoteDistinctThemes] pairs them. *)
Definition withTokens (toLowerCase : jsstring → jsstring) (theme : jsstring)
    : ThemeTokenInfo :=
  {| themeValue := theme; themeTokens := extractThemeTokens toLowerCase theme |}.

(** A whole number of seconds, small enough for the sums of the chunking
    loop to be exact in double precision. *)
Definition wholeSeconds (x : Q) : Prop :=
  ∃ z : Z, 0 <= z < 2 ^ 50 ∧ (x == inject_Z z)%Q.

(** The end of the last segment. *)
Definition totalDurationOf (segments : list TranscriptSegment) : Q :=
  match last segments with
  | Some lastSegment => (start lastSegment + duration lastSegment)%Q
  | None => 0%Q
  end.

(** A chunk is made of segments of the transcript, in their order, and
    starts and ends with them. *)
Definition chunkOk (segments : list TranscriptSegment) (c : TranscriptChunk)
    : Prop :=
  sublist (cSegments c) segments ∧
  ∃ firstOfChunk lastOfChunk,
    head (cSegments c) = Some firstOfChunk ∧
    last (cSegments c) = Some lastOfChunk ∧
    cStart c = start firstOfChunk ∧
    cEnd c = (start lastOfChunk + duration lastOfChunk)%Q.

(** The chunks are numbered from 1 on. *)
Definition numbered (chunks : list TranscriptChunk) : Prop :=
  ∀ (i : nat) c, chunks !! i = Some c →
    cId c = js "chunk-" ++ decimal (Z.of_nat i + 1).

(** A topic that the caller keeps: it has a quote with a timestamp and a
    text, and the text is a cut of at most 200 code units followed by three
    dots. *)
Definition usableTopic (topic : ParsedTopic) : Prop :=
  ∃ q, pQuote topic = Some q ∧ quoteTimestamp q ≠ [] ∧ quoteText q ≠ [] ∧
       len (quoteText q) <= 203.

(** ** Example data *)

Definition seg (t : string) (s d : Z) : TranscriptSegment :=
  {| text := js t; start := inject_Z s; duration := inject_Z d |}.

Definition scenarioA : list TranscriptSegment :=
  [seg "Welcome to the show." 0 5; seg "Today we discuss AI." 5 4].

Definition greeting : list TranscriptSegment :=
  [seg "Hello, world! This is great." 0 5].


Definition fox : list TranscriptSegment :=
  [seg "the quick" 0 2; seg "brown fox" 2 2; seg "jumps high" 4 2].

Definition narrowOptions : MatchOptions :=
  {| startIdx := 0; minSimilarity := (7 # 10)%Q; maxSegmentWindow := 1 |}.

Definition foxMatch : MatchResult :=
  {| found := true; startSegmentIdx := 0; endSegmentIdx := 2;
     startCharOffset := 0; endCharOffset := 10;
     matchStrategy := FuzzyNgram; similarity := (20 # 27)%Q;
     confidence := (2 # 6)%Q |}.

Definition echo : list TranscriptSegment :=
  [seg "a" 0 1; seg "a" 1 1; seg "a" 2 1].

Definition drift : list TranscriptSegment :=
  [seg "abcde" 0 10; seg "xyz" 10 10; seg "def" 20 10; seg "uvw" 30 10;
   seg "rst" 40 10; seg "opq" 50 10].

Definition driftQuote : Quote :=
  {| quoteTimestamp := js "[00:45-00:50]"; quoteText := js "abc def" |}.


Definition lecture : list TranscriptSegment :=
  [seg "good morning everyone" 0 5; seg "please take a seat" 5 5;
   seg "we start with thermodynamics" 10 5; seg "heat flows from hot to cold" 15 5;
   seg "that is the second law" 20 5].

Definition lectureQuote : Quote :=
  {| quoteTimestamp := js "[00:10-00:20]";
     quoteText := js "quantum entanglement lecture" |}.

Definition hollow : list TranscriptSegment :=
  [seg "" 0 1; seg "hello there" 1 1].

Definition blankQuote : Quote :=
  {| quoteTimestamp := js "[00:00-00:05]"; quoteText := js "   " |}.

Definition discussMatch : MatchResult :=
  {| found := true; startSegmentIdx := 1; endSegmentIdx := 1;
     startCharOffset := 6; endCharOffset := 16;
     matchStrategy := Exact; similarity := 1; confidence := 1 |}.

Definition discussQuote : Quote :=
  {| quoteTimestamp := js "[00:00-00:02]"; quoteText := js "  we discuss " |}.

Definition longTalk : list TranscriptSegment := [seg "a very long monologue" 0 1000].

Definition talk : list TranscriptSegment :=
  [seg "opening" 0 100; seg "first part" 100 150; seg "second part" 250 200;
   seg "closing" 450 30].

(** * Properties *)

(** ** The scenarios of the specification *)

Example scenarioA_exact :
  findTextInTranscript asciiLower scenarioA
    (js "Welcome to the show. Today we discuss AI.")
    (buildTranscriptIndex asciiLower scenarioA) defaultOptions
  = Some {| found := true; startSegmentIdx := 0; endSegmentIdx := 1;
            startCharOffset := 0; endCharOffset := 20;
            matchStrategy := Exact; similarity := 1; confidence := 1 |}.
Proof. vm_compute. reflexivity. Qed.

Example scenarioB_normalized :
  findTextInTranscript asciiLower scenarioA (js "today we discuss ai")
    (buildTranscriptIndex asciiLower scenarioA) defaultOptions
  = Some {| found := true; startSegmentIdx := 1; endSegmentIdx := 1;
            startCharOffset := 0; endCharOffset := 19;
            matchStrategy := Normalized; similarity := (95 # 100)%Q;
            confidence := (95 # 100)%Q |}.
Proof. vm_compute. reflexivity. Qed.

Example parse_ex : parseTimestampRangeModel (js "[00:45-01:02:03]") = Some (45%Q, 3723%Q).
Proof. vm_compute. reflexivity. Qed.

(** ** Substring tests *)

Lemma startsWith_spec (s p : jsstring) :
  startsWith s p = true ↔ take (length p) s = p.
Proof.
  revert s; induction p as [|a p IH]; intros [|b s]; simpl; try easy.
  rewrite andb_true_iff, IH, N.eqb_eq. split.
  - intros [-> ->]; reflexivity.
  - intros H. injection H as -> H. rewrite H. easy.
Qed.

Lemma includes_unfold (s p : jsstring) :
  includes s p =
  startsWith s p || match s with [] => false | _ :: t => includes t p end.
Proof. destruct s; reflexivity. Qed.

Lemma includes_spec (s p : jsstring) :
  includes s p = true ↔ ∃ pre post, s = pre ++ p ++ post.
Proof.
  induction s as [|c s IH]; rewrite includes_unfold.
  - rewrite orb_false_r, startsWith_spec. split.
    + intros H. exists [], []. rewrite take_nil in H. subst p. reflexivity.
    + intros (pre & post & H). symmetry in H.
      destruct (app_eq_nil _ _ H) as [_ H'].
      destruct (app_eq_nil _ _ H') as [-> _]. reflexivity.
  - rewrite orb_true_iff, startsWith_spec, IH. split.
    + intros [H | (pre & post & ->)].
      * exists [], (drop (length p) (c :: s)). simpl.
        rewrite <- H at 1. symmetry. apply take_drop.
      * exists (c :: pre), post. reflexivity.
    + intros ([|d pre] & post & H).
      * left. simpl in H. rewrite H. rewrite take_app_length. reflexivity.
      * right. injection H as -> ->. eauto.
Qed.

(** ** Boyer-Moore-Horspool search *)

Lemma charAt_Some (s : jsstring) (k : Z) :
  0 <= k → charAt s k = s !! Z.to_nat k.
Proof. intros H. unfold charAt. destruct (Z.ltb_spec k 0); [lia | reflexivity]. Qed.

Lemma charAt_in_range (s : jsstring) (k : Z) :
  0 <= k < len s → ∃ c, charAt s k = Some c.
Proof.
  intros H. rewrite charAt_Some by lia.
  apply lookup_lt_is_Some. unfold len in H. lia.
Qed.

Lemma occursAt_chars (t p : jsstring) (s : Z) :
  occursAt t p s ↔
  0 <= s ∧ s + len p <= len t ∧
  ∀ j, 0 <= j < len p → charAt t (s + j) = charAt p j.
Proof.
  unfold occursAt, len. split.
  - intros (Hs & Hlen & H). split; [exact Hs|]. split; [exact Hlen|].
    intros j Hj. rewrite !charAt_Some by lia.
    transitivity (take (length p) (drop (Z.to_nat s) t) !! Z.to_nat j);
      [|by rewrite H].
    rewrite lookup_take_lt by lia. rewrite lookup_drop. f_equal. lia.
  - intros (Hs & Hlen & H). split; [exact Hs|]. split; [exact Hlen|].
    apply list_eq. intros j.
    destruct (decide (j < length p)%nat) as [Hj | Hj].
    + rewrite lookup_take_lt by lia. rewrite lookup_drop.
      specialize (H (Z.of_nat j)). rewrite !charAt_Some in H by lia.
      rewrite Nat2Z.id in H. rewrite <- H by lia. f_equal. lia.
    + rewrite lookup_take_ge by lia. symmetry. apply lookup_ge_None. lia.
Qed.

Lemma matchBackward_spec (text pattern : jsstring) (fuel : nat) (k j : Z) :
  0 <= j → j <= k → j < Z.of_nat fuel →
  match matchBackward fuel text pattern k j with
  | Some r => r = k - j ∧ ∀ j', 0 <= j' <= j → charAt text (k - j + j') = charAt pattern j'
  | None => ∃ j', 0 <= j' <= j ∧ charAt text (k - j + j') ≠ charAt pattern j'
  end.
Proof.
  revert k j. induction fuel as [|fuel IH]; intros k j Hj Hk Hf; [lia|].
  simpl.
  destruct (Z.leb_spec 0 j); [|lia]. destruct (Z.leb_spec 0 k); [|lia]. simpl.
  case_bool_decide as Heq.
  - destruct (Z.eqb_spec j 0) as [-> | Hne].
    + split; [lia|]. intros j' Hj'. assert (j' = 0) as -> by lia.
      rewrite Z.sub_0_r, Z.add_0_r. exact Heq.
    + specialize (IH (k - 1) (j - 1)).
      destruct (matchBackward fuel text pattern (k - 1) (j - 1)) as [r|].
      * destruct IH as [-> IH]; [lia..|]. split; [lia|].
        intros j' Hj'. destruct (decide (j' = j)) as [-> | Hne'].
        -- replace (k - j + j) with k by lia. exact Heq.
        -- replace (k - j + j') with (k - 1 - (j - 1) + j') by lia.
           apply IH. lia.
      * destruct IH as (j' & Hj' & Hne'); [lia..|].
        exists j'. split; [lia|].
        replace (k - j + j') with (k - 1 - (j - 1) + j') by lia. exact Hne'.
  - exists j. split; [lia|]. replace (k - j + j) with k by lia. exact Heq.
Qed.

Lemma badCharLoop_inv (pattern rest : jsstring) (i : Z) (badChar : gmap N Z) :
  0 <= i → drop (Z.to_nat i) pattern = rest →
  badCharInv pattern (Z.min i (len pattern - 1)) badChar →
  badCharInv pattern (len pattern - 1)
    (badCharLoop (len pattern) rest i badChar).
Proof.
  revert i badChar. induction rest as [|c rest IH]; intros i badChar Hi Hrest Hinv.
  - simpl. apply (f_equal length) in Hrest. rewrite length_drop in Hrest.
    simpl in Hrest. replace (Z.min i (len pattern - 1)) with (len pattern - 1) in Hinv
      by (unfold len; lia). exact Hinv.
  - simpl. destruct (Z.ltb_spec i (len pattern - 1)) as [Hlt | Hge].
    + apply IH; [lia | |].
      * replace (Z.to_nat (i + 1)) with (Z.to_nat i + 1)%nat by lia.
        rewrite <- drop_drop, Hrest. reflexivity.
      * assert (Hc : charAt pattern i = Some c).
        { rewrite charAt_Some by lia.
          rewrite <- (Nat.add_0_r (Z.to_nat i)), <- lookup_drop, Hrest.
          reflexivity. }
        replace (Z.min i (len pattern - 1)) with i in Hinv by lia.
        replace (Z.min (i + 1) (len pattern - 1)) with (i + 1) by lia.
        intros d. destruct (decide (c = d)) as [<- | Hne].
        -- rewrite lookup_insert_eq. exists i. repeat split; try lia; auto.
        -- rewrite lookup_insert_ne by exact Hne. specialize (Hinv d).
           destruct (badChar !! d) as [v|].
           ++ destruct Hinv as (i0 & Hi0 & Hc0 & Hv & Hlast).
              exists i0. repeat split; try lia; auto.
              intros i' Hi'. destruct (decide (i' = i)) as [-> | Hne'].
              ** rewrite Hc. congruence.
              ** apply Hlast. lia.
           ++ intros i' Hi'. destruct (decide (i' = i)) as [-> | Hne'].
              ** rewrite Hc. congruence.
              ** apply Hinv. lia.
    + replace (Z.min i (len pattern - 1)) with (len pattern - 1) in Hinv by lia.
      exact Hinv.
Qed.

Lemma badCharTable_inv (pattern : jsstring) :
  badCharInv pattern (len pattern - 1) (badCharTable pattern).
Proof.
  unfold badCharTable. apply badCharLoop_inv; [lia | reflexivity |].
  intros c. rewrite lookup_empty. intros i' Hi'. unfold len in Hi'. lia.
Qed.

(** A mismatch at the alignment that ends at [i] rules out the alignments
    skipped by the shift. *)
Lemma skipAt_safe (text pattern : jsstring) (i : Z) :
  1 <= len pattern → len pattern - 1 <= i < len text →
  let sk := skipAt text (badCharTable pattern) (len pattern) i in
  1 <= sk ∧
  ∀ d, 1 <= d < sk → ¬ occursAt text pattern (i - (len pattern - 1) + d).
Proof.
  intros Hm Hi sk.
  destruct (charAt_in_range text i) as [c Hc]; [lia|].
  pose proof (badCharTable_inv pattern c) as Hinv.
  assert (Hsk : sk = match badCharTable pattern !! c with
                     | Some s => s | None => len pattern end).
  { unfold sk, skipAt. destruct (Z.ltb_spec i (len text)); [|lia].
    rewrite Hc. reflexivity. }
  assert (Hocc : ∀ d, 1 <= d < len pattern →
            occursAt text pattern (i - (len pattern - 1) + d) →
            charAt pattern (len pattern - 1 - d) = Some c).
  { intros d Hd Ho. apply occursAt_chars in Ho as (_ & _ & Ho).
    rewrite <- Ho by lia. rewrite <- Hc. f_equal. lia. }
  destruct (badCharTable pattern !! c) as [v|].
  - destruct Hinv as (i0 & Hi0 & _ & Hv & Hlast). subst sk. split; [lia|].
    intros d Hd Ho. apply (Hlast (len pattern - 1 - d)); [lia|].
    apply (Hocc d); [lia | exact Ho].
  - subst sk. split.
    + lia.
    + intros d Hd Ho. apply (Hinv (len pattern - 1 - d)); [lia|].
      apply (Hocc d); [lia | exact Ho].
Qed.

Lemma alignment_spec (text pattern : jsstring) (i : Z) :
  1 <= len pattern → len pattern - 1 <= i < len text →
  match matchBackward (length pattern) text pattern i (len pattern - 1) with
  | Some r => r = i - (len pattern - 1) ∧ occursAt text pattern r
  | None => ¬ occursAt text pattern (i - (len pattern - 1))
  end.
Proof.
  intros Hm Hi.
  pose proof (matchBackward_spec text pattern (length pattern) i (len pattern - 1)) as H.
  destruct (matchBackward _ _ _ _ _) as [r|].
  - destruct H as [-> H]; [unfold len in *; lia..|]. split; [reflexivity|].
    apply occursAt_chars. repeat split; try lia. intros j Hj. apply H. lia.
  - destruct H as (j' & Hj' & Hne); [unfold len in *; lia..|].
    intros Ho. apply occursAt_chars in Ho as (_ & _ & Ho).
    apply Hne, Ho. lia.
Qed.

Lemma searchLoop_spec (text pattern : jsstring) (fuel : nat) (i : Z) :
  1 <= len pattern → len pattern - 1 <= i →
  len text - i <= Z.of_nat fuel →
  (∀ s, s < i - (len pattern - 1) → ¬ occursAt text pattern s) →
  let r := searchLoop fuel text pattern (badCharTable pattern) i in
  (r = -1 ∧ ∀ s, ¬ occursAt text pattern s) ∨
  (occursAt text pattern r ∧ ∀ s, s < r → ¬ occursAt text pattern s).
Proof.
  intros Hm. revert i. induction fuel as [|fuel IH]; intros i Hi Hfuel Hbefore r.
  - left. split; [reflexivity|]. intros s Ho.
    apply (Hbefore s); [|exact Ho].
    apply occursAt_chars in Ho as (_ & Hs & _). lia.
  - subst r. simpl. destruct (Z.ltb_spec i (len text)) as [Hlt | Hge].
    + pose proof (alignment_spec text pattern i Hm (conj Hi Hlt)) as Ha.
      destruct (matchBackward _ _ _ _ _) as [k|].
      * right. destruct Ha as [-> Ho]. split; [exact Ho | exact Hbefore].
      * destruct (skipAt_safe text pattern i Hm (conj Hi Hlt)) as [Hsk Hsafe].
        apply IH; [lia | lia |].
        intros s Hs.
        destruct (Z.lt_trichotomy s (i - (len pattern - 1))) as [H | [-> | H]].
        -- apply Hbefore, H.
        -- exact Ha.
        -- replace s with (i - (len pattern - 1) + (s - (i - (len pattern - 1)))) by lia.
           apply Hsafe. lia.
    + left. split; [reflexivity|]. intros s Ho.
      apply (Hbefore s); [|exact Ho].
      apply occursAt_chars in Ho as (_ & Hs & _). lia.
Qed.

Lemma boyerMooreSearch_spec (text pattern : jsstring) :
  let r := boyerMooreSearch text pattern in
  (r = -1 ∧ ∀ s, ¬ occursAt text pattern s) ∨
  (occursAt text pattern r ∧ ∀ s, s < r → ¬ occursAt text pattern s).
Proof.
  unfold boyerMooreSearch.
  destruct (Z.eqb_spec (len pattern) 0) as [H0 | H0].
  - right. split.
    + destruct pattern; [|discriminate]. unfold occursAt, len. simpl.
      repeat split; lia.
    + intros s Hs [Hs' _]. lia.
  - destruct (Z.ltb_spec (len text) (len pattern)) as [Hlt | Hge].
    + left. split; [reflexivity|]. intros s (Hs & Hlen & _). lia.
    + apply searchLoop_spec.
      * unfold len in *. lia.
      * lia.
      * unfold len in *. lia.
      * intros s Hs [Hs' _]. lia.
Qed.

(** C6. [boyerMooreSearch] returns the smallest offset at which the pattern
    occurs in the text (offset 0 for the empty pattern), and -1 exactly when
    the pattern does not occur. *)
Theorem boyerMooreSearch_leftmost (text pattern : jsstring) :
  let r := boyerMooreSearch text pattern in
  (pattern = [] → r = 0) ∧
  (r = -1 ↔ ∀ i, ¬ occursAt text pattern i) ∧
  (∀ i, occursAt text pattern i → occursAt text pattern r ∧ r <= i).
Proof.
  intros r. split; [intros ->; reflexivity|].
  destruct (boyerMooreSearch_spec text pattern) as [[Hr Hno] | [Ho Hleft]];
    fold r in Hr || fold r in Ho, Hleft.
  - split; [tauto|]. intros i Hi. destruct (Hno i Hi).
  - split.
    + split.
      * intros Hr. destruct Ho as [Ho _]. lia.
      * intros Hno. destruct (Hno r Ho).
    + intros i Hi. split; [exact Ho|].
      destruct (Z.le_gt_cases r i) as [H | H]; [exact H|].
      destruct (Hleft i H Hi).
Qed.

(** ** N-gram similarity *)

Lemma ngramList_nil (clean : jsstring) :
  ngramList clean = [] ↔ len clean < 3.
Proof.
  unfold len. destruct clean as [|a [|b [|c t]]]; simpl; split; try easy; lia.
Qed.

Lemma ngramsOf_size_0 (clean : jsstring) :
  size (ngramsOf clean) = 0%nat ↔ len clean < 3.
Proof.
  rewrite <- ngramList_nil. unfold ngramsOf. rewrite size_empty_iff.
  split.
  - intros H. destruct (ngramList clean) as [|g l]; [reflexivity|].
    exfalso. simpl in H. set_solver.
  - intros ->. reflexivity.
Qed.

Lemma countShared_size (s1 s2 : gset jsstring) :
  countShared s1 s2 = size (s1 ∩ s2).
Proof.
  unfold countShared, size, set_size. simpl.
  apply Permutation_length, NoDup_Permutation.
  - apply NoDup_filter, NoDup_elements.
  - apply NoDup_elements.
  - intros g.
    rewrite list_elem_of_filter, !elem_of_elements, elem_of_intersection.
    tauto.
Qed.

Lemma countShared_comm (s1 s2 : gset jsstring) :
  countShared s1 s2 = countShared s2 s1.
Proof. rewrite !countShared_size. f_equal. apply (comm_L (∩)). Qed.

(** C10. [calculateNgramSimilarity] is symmetric in its two arguments. *)
Theorem calculateNgramSimilarity_sym (a b : jsstring) :
  calculateNgramSimilarity a b = calculateNgramSimilarity b a.
Proof.
  unfold calculateNgramSimilarity.
  rewrite (orb_comm (len a =? 0)).
  destruct ((len b =? 0) || (len a =? 0)); [reflexivity|].
  rewrite (orb_comm (Nat.eqb (size (ngramsOf (replaceRuns isWhitespace [] a))) 0)).
  destruct (_ || _).
  - rewrite (orb_comm (includes _ _)). reflexivity.
  - rewrite (countShared_comm (ngramsOf (replaceRuns isWhitespace [] a))).
    rewrite (Nat.add_comm (size (ngramsOf (replaceRuns isWhitespace [] a)))).
    reflexivity.
Qed.

(** C9, as the code has it. For two non-empty strings of which one has fewer
    than 3 characters once its whitespace is stripped, the similarity is 0.8
    when one stripped string contains the other and 0 otherwise; when one of
    the two inputs is the empty string, the similarity is 0. *)
Theorem calculateNgramSimilarity_short (str1 str2 : jsstring) :
  let clean1 := replaceRuns isWhitespace [] str1 in
  let clean2 := replaceRuns isWhitespace [] str2 in
  (str1 = [] ∨ str2 = [] → calculateNgramSimilarity str1 str2 = 0%Q) ∧
  (str1 ≠ [] → str2 ≠ [] → len clean1 < 3 ∨ len clean2 < 3 →
   (oneContainsOther clean1 clean2 →
      calculateNgramSimilarity str1 str2 = (8 # 10)%Q) ∧
   (¬ oneContainsOther clean1 clean2 →
      calculateNgramSimilarity str1 str2 = 0%Q)).
Proof.
  intros clean1 clean2. split.
  - intros [-> | ->]; unfold calculateNgramSimilarity; simpl.
    + reflexivity.
    + rewrite orb_true_r. reflexivity.
  - intros H1 H2 Hshort. unfold calculateNgramSimilarity.
    assert ((len str1 =? 0) = false) as ->
      by (destruct str1; [congruence | reflexivity]).
    assert ((len str2 =? 0) = false) as ->
      by (destruct str2; [congruence | reflexivity]).
    simpl. fold clean1 clean2.
    assert ((Nat.eqb (size (ngramsOf clean1)) 0
             || Nat.eqb (size (ngramsOf clean2)) 0) = true) as ->.
    { rewrite orb_true_iff, !Nat.eqb_eq, !ngramsOf_size_0. exact Hshort. }
    unfold oneContainsOther. rewrite <- !includes_spec.
    destruct (includes clean1 clean2), (includes clean2 clean1); simpl;
      split; intros H; try reflexivity; try (exfalso; apply H; auto);
      destruct H; discriminate.
Qed.

Lemma calculateNgramSimilarity_short_witness :
  calculateNgramSimilarity (js "ab") (js "x ab yz") = (8 # 10)%Q.
Proof.
  apply (calculateNgramSimilarity_short (js "ab") (js "x ab yz")).
  - discriminate.
  - discriminate.
  - left. vm_compute. reflexivity.
  - right. exists (js "x"), (js "yz"). vm_compute. reflexivity.
Defined.

(** C9 as stated fails on the empty string: it has no 3-gram and is
    contained in every string, yet the similarity is 0, not 0.8. *)
Lemma calculateNgramSimilarity_empty_counterexample :
  let clean1 := replaceRuns isWhitespace [] (js "") in
  let clean2 := replaceRuns isWhitespace [] (js "abc") in
  len clean1 < 3 ∧ oneContainsOther clean1 clean2 ∧
  calculateNgramSimilarity (js "") (js "abc") ≠ (8 # 10)%Q.
Proof.
  split; [vm_compute; reflexivity|]. split.
  - right. exists [], (js "abc"). reflexivity.
  - vm_compute. discriminate.
Qed.

(** ** The normalised stage *)

(** C2 at a capitalised quote: the pattern searched in [normalizedText] is
    [normalizeWhitespace] of the quote, which differs from the normalisation
    of the segments, and the stage misses a quote that the segment
    normalisation would find at offset 0. *)
Theorem normalizedStage_pattern_not_normalized :
  let q := js "Hello world this is great" in
  let index := buildTranscriptIndex asciiLower greeting in
  normalizeWhitespace q = q ∧
  normalizeForMatching asciiLower q = js "hello world this is great" ∧
  normalizedText index = js "hello world this is great" ∧
  boyerMooreSearch (normalizedText index) (normalizeWhitespace q) = -1 ∧
  boyerMooreSearch (normalizedText index) (normalizeForMatching asciiLower q) = 0 ∧
  normalizedStage q index = None.
Proof. vm_compute. repeat split; reflexivity. Qed.

(** ** Vote counting *)

Lemma countOf_nil {A} `{EqDecision A} (x : A) : countOf x [] = 0.
Proof. reflexivity. Qed.

Lemma countOf_cons {A} `{EqDecision A} (x y : A) (l : list A) :
  countOf x (y :: l) = (if decide (y = x) then 1 else 0) + countOf x l.
Proof.
  unfold countOf, len. rewrite filter_cons.
  destruct (decide (y = x)); simpl; lia.
Qed.

Lemma countOf_app {A} `{EqDecision A} (x : A) (l1 l2 : list A) :
  countOf x (l1 ++ l2) = countOf x l1 + countOf x l2.
Proof. unfold countOf, len. rewrite filter_app, length_app. lia. Qed.

Lemma countOf_nonneg {A} `{EqDecision A} (x : A) (l : list A) : 0 <= countOf x l.
Proof. unfold countOf, len. lia. Qed.

(** *** The score map *)








(** *** The posting lists *)

Lemma postings_addWord (idx : Z) (wi : gmap jsstring (list Z)) (word w : jsstring) :
  postings (addWord idx wi word) w =
  if decide (word = w ∧ 2 < len word) then postings wi w ++ [idx]
  else postings wi w.
Proof.
  unfold addWord. destruct (Z.ltb_spec 2 (len word)) as [Hlong | Hshort].
  - unfold postings at 1. destruct (decide (word = w)) as [-> | Hne].
    + rewrite lookup_insert_eq. simpl. rewrite decide_True by auto. reflexivity.
    + rewrite lookup_insert_ne by exact Hne. rewrite decide_False by tauto.
      reflexivity.
  - rewrite decide_False by lia. reflexivity.
Qed.

Lemma postings_foldl_addWord (idx : Z) (words : list jsstring)
    (wi : gmap jsstring (list Z)) (w : jsstring) (segIdx : Z) :
  countOf segIdx (postings (foldl (addWord idx) wi words) w) =
  countOf segIdx (postings wi w) +
  (if decide (idx = segIdx ∧ 2 < len w) then countOf w words else 0).
Proof.
  revert wi. induction words as [|word words IH]; intros wi; simpl.
  - rewrite countOf_nil. destruct (decide _); lia.
  - rewrite IH, postings_addWord, countOf_cons.
    destruct (decide (word = w ∧ 2 < len word)) as [[-> Hl] | Hn].
    + rewrite countOf_app, countOf_cons, countOf_nil.
      repeat case_decide; try lia; tauto.
    + repeat case_decide; subst; try lia; tauto.
Qed.

Lemma segmentAt_cons (x : TranscriptSegment) (l : list TranscriptSegment) (k : Z) :
  segmentAt (x :: l) k = if k =? 0 then Some x else segmentAt l (k - 1).
Proof.
  unfold segmentAt. destruct (Z.eqb_spec k 0) as [-> | Hne]; [reflexivity|].
  destruct (Z.ltb_spec k 0), (Z.ltb_spec (k - 1) 0); try lia; try reflexivity.
  replace (Z.to_nat k) with (S (Z.to_nat (k - 1))) by lia. reflexivity.
Qed.

Section Votes.

Variable toLowerCase : jsstring → jsstring.

Lemma wordIndex_indexFrom (segs : list TranscriptSegment) (st : TranscriptIndex)
    (idx : Z) (w : jsstring) (segIdx : Z) :
  countOf segIdx (postings (wordIndex (indexFrom toLowerCase st idx segs)) w) =
  countOf segIdx (postings (wordIndex st) w) +
  (if decide (2 < len w)
   then countOf w (segmentWords toLowerCase segs (segIdx - idx)) else 0).
Proof.
  revert st idx. induction segs as [|segment rest IH]; intros st idx.
  - simpl. unfold segmentWords, segmentAt. rewrite lookup_nil.
    destruct (_ <? _); rewrite countOf_nil; case_decide; lia.
  - simpl. rewrite IH. simpl. rewrite postings_foldl_addWord.
    unfold segmentWords. rewrite segmentAt_cons.
    replace (segIdx - (idx + 1)) with (segIdx - idx - 1) by lia.
    destruct (Z.eqb_spec (segIdx - idx) 0) as [H0 | H0].
    + assert (segmentAt rest (segIdx - idx - 1) = None) as ->.
      { unfold segmentAt. destruct (Z.ltb_spec (segIdx - idx - 1) 0); [reflexivity | lia]. }
      rewrite countOf_nil. repeat case_decide; lia.
    + repeat case_decide; try lia.
Qed.







End Votes.


(** ** Spans of the matches *)

Lemma len_app {A} (l1 l2 : list A) : len (l1 ++ l2) = len l1 + len l2.
Proof. unfold len. rewrite length_app. lia. Qed.

Lemma len_nonneg {A} (l : list A) : 0 <= len l.
Proof. unfold len. lia. Qed.

Lemma segmentAt_app_here (pre : list TranscriptSegment) (segment : TranscriptSegment)
    (rest : list TranscriptSegment) :
  segmentAt (pre ++ segment :: rest) (len pre) = Some segment.
Proof.
  unfold segmentAt, len. destruct (Z.ltb_spec (Z.of_nat (length pre)) 0); [lia|].
  rewrite Nat2Z.id. apply list_lookup_middle. reflexivity.
Qed.

Lemma segmentAt_Some (transcript : list TranscriptSegment) (i : Z)
    (segment : TranscriptSegment) :
  segmentAt transcript i = Some segment → 0 <= i < len transcript.
Proof.
  unfold segmentAt, len. destruct (Z.ltb_spec i 0); [discriminate|].
  intros Hl. apply lookup_lt_Some in Hl. lia.
Qed.

Lemma validSpan_indices (transcript : list TranscriptSegment) (ss es so eo : Z) :
  validSpan transcript ss es so eo → validIndices transcript ss es.
Proof.
  intros (segS & segE & HS & HE & Hle & _).
  apply segmentAt_Some in HS, HE. unfold validIndices. lia.
Qed.

Section Spans.

Variable toLowerCase : jsstring → jsstring.

Lemma indexFrom_boundaries (segs : list TranscriptSegment) (st : TranscriptIndex)
    (idx : Z) :
  0 <= idx →
  segmentBoundaries (indexFrom toLowerCase st idx segs) =
  segmentBoundaries st ++
  boundariesFrom toLowerCase idx
    (len (fullTextSpace st) + (if 0 <? idx then 1 else 0)) segs.
Proof.
  revert st idx. induction segs as [|segment rest IH]; intros st idx Hidx; simpl.
  - rewrite app_nil_r. reflexivity.
  - rewrite IH by lia. simpl. rewrite <- app_assoc. simpl.
    assert (Hpos : len (if 0 <? idx then fullTextSpace st ++ [32%N] else fullTextSpace st)
                   = len (fullTextSpace st) + (if 0 <? idx then 1 else 0)).
    { destruct (0 <? idx); [rewrite len_app; reflexivity | lia]. }
    rewrite len_app, Hpos.
    destruct (Z.ltb_spec 0 (idx + 1)) as [_ | Hneg]; [|lia].
    reflexivity.
Qed.

Lemma exactInv_valid (transcript : list TranscriptSegment) (idx ss es so eo : Z) :
  exactInv transcript idx ss es so eo → ss ≠ -1 → es ≠ -1 →
  validSpan transcript ss es so eo.
Proof.
  intros [[? | (Hs & Hle & segS & HS & Hso)] [? | (He & segE & HE & Heo)]] ? ?;
    try lia.
  exists segS, segE. repeat split; try lia; auto.
  - subst eo. apply len_nonneg.
  - intros ->. rewrite HS in HE. injection HE as ->. lia.
Qed.

Lemma mapMatchLoop_valid (transcript : list TranscriptSegment)
    (matchStart matchEnd : Z) (segs pre : list TranscriptSegment)
    (pos ss es so eo : Z) :
  transcript = pre ++ segs → matchStart < matchEnd →
  exactInv transcript (len pre) ss es so eo →
  let r := mapMatchLoop matchStart matchEnd
             (boundariesFrom toLowerCase (len pre) pos segs) ss es so eo in
  spanStartSegmentIdx r ≠ -1 → spanEndSegmentIdx r ≠ -1 →
  validSpan transcript (spanStartSegmentIdx r) (spanEndSegmentIdx r)
    (spanStartCharOffset r) (spanEndCharOffset r).
Proof.
  revert pre pos ss es so eo.
  induction segs as [|segment rest IH]; intros pre pos ss es so eo Ht Hlt Hinv.
  - simpl. exact (exactInv_valid _ _ _ _ _ _ Hinv).
  - assert (Hhere : segmentAt transcript (len pre) = Some segment)
      by (rewrite Ht; apply segmentAt_app_here).
    assert (Ht' : transcript = (pre ++ [segment]) ++ rest)
      by (rewrite <- app_assoc; exact Ht).
    assert (Hlen' : len (pre ++ [segment]) = len pre + 1)
      by (rewrite len_app; reflexivity).
    pose proof (len_nonneg pre) as Hpre.
    pose proof (len_nonneg (text segment)) as Htext.
    specialize (IH (pre ++ [segment]) (pos + len (text segment) + 1)).
    rewrite Hlen' in IH.
    destruct Hinv as [Hs He].
    simpl.
    set (hit := (ss =? -1) && (pos <=? matchStart)
                && (matchStart <? pos + len (text segment))).
    assert (Hhit : hit = true →
              ss = -1 ∧ pos <= matchStart < pos + len (text segment)).
    { subst hit. rewrite !andb_true_iff, Z.eqb_eq, Z.leb_le, Z.ltb_lt. tauto. }
    clearbody hit.
    destruct (Z.ltb_spec pos matchEnd) as [Hp | Hp];
      destruct (Z.leb_spec matchEnd (pos + len (text segment))) as [Hq | Hq];
      simpl.
    + (* the end lies in this segment *)
      intros Hss _. destruct hit.
      * destruct Hhit as [_ Hhit]; [reflexivity|].
        exists segment, segment. repeat split; try lia; auto.
      * destruct Hs as [? | (Hr & Hle & sg & Hsg & Hoff)]; [contradiction|].
        exists sg, segment. repeat split; try lia; auto.
    + (* the match goes on after this segment *)
      destruct (Z.ltb_spec (pos + len (text segment)) matchEnd); [|lia].
      apply IH; [exact Ht' | exact Hlt |]. split.
      * destruct hit.
        -- destruct Hhit as [_ Hhit]; [reflexivity|].
           right. repeat split; try lia. exists segment. split; [exact Hhere | lia].
        -- destruct Hs as [? | (Hr & Hle & sg & Hsg & Hoff)]; [left; assumption|].
           right. repeat split; try lia. eauto.
      * right. split; [lia|]. eauto.
    + (* the match ends before this segment *)
      destruct (Z.ltb_spec (pos + len (text segment)) matchEnd); [lia|].
      apply IH; [exact Ht' | exact Hlt |]. split.
      * destruct hit.
        -- destruct Hhit as [_ Hhit]; [reflexivity|]. lia.
        -- destruct Hs as [? | (Hr & Hle & sg & Hsg & Hoff)]; [left; assumption|].
           right. repeat split; try lia. eauto.
      * destruct He as [? | (? & sg & ? & ?)]; [left; assumption|].
        right. split; [lia|]. eauto.
    + lia.
Qed.

Lemma boundaries_buildTranscriptIndex (transcript : list TranscriptSegment) :
  segmentBoundaries (buildTranscriptIndex toLowerCase transcript) =
  boundariesFrom toLowerCase 0 0 transcript.
Proof.
  unfold buildTranscriptIndex. rewrite indexFrom_boundaries by lia. reflexivity.
Qed.

Lemma spanIfFound_Some (s r : SegmentSpan) :
  spanIfFound s = Some r →
  r = s ∧ spanStartSegmentIdx s ≠ -1 ∧ spanEndSegmentIdx s ≠ -1.
Proof.
  unfold spanIfFound.
  destruct (Z.eqb_spec (spanStartSegmentIdx s) (-1)),
           (Z.eqb_spec (spanEndSegmentIdx s) (-1)); simpl; try discriminate.
  intros [= <-]. auto.
Qed.

Lemma mapMatchToSegments_valid (transcript : list TranscriptSegment)
    (matchStart matchLength : Z) (r : SegmentSpan) :
  0 < matchLength →
  mapMatchToSegments matchStart matchLength
    (buildTranscriptIndex toLowerCase transcript) = Some r →
  validSpan transcript (spanStartSegmentIdx r) (spanEndSegmentIdx r)
    (spanStartCharOffset r) (spanEndCharOffset r).
Proof.
  intros Hlen Hr. unfold mapMatchToSegments in Hr.
  apply spanIfFound_Some in Hr as (-> & Hs & He).
  rewrite boundaries_buildTranscriptIndex in Hs, He |- *.
  apply (mapMatchLoop_valid transcript _ _ transcript [] 0 (-1) (-1) 0 0);
    [reflexivity | lia | | exact Hs | exact He].
  split; left; reflexivity.
Qed.

Lemma exactStage_valid (transcript : list TranscriptSegment)
    (targetText : jsstring) (m : MatchResult) :
  targetText ≠ [] →
  exactStage targetText (buildTranscriptIndex toLowerCase transcript) = Some m →
  matchStrategy m = Exact ∧
  validSpan transcript (startSegmentIdx m) (endSegmentIdx m)
    (startCharOffset m) (endCharOffset m).
Proof.
  intros Hne. unfold exactStage.
  destruct (negb _); [|discriminate].
  destruct (mapMatchToSegments _ _ _) as [r|] eqn:Hr; [|discriminate].
  intros [= <-]. split; [reflexivity|]. simpl.
  apply mapMatchToSegments_valid in Hr; [exact Hr|].
  destruct targetText; [congruence | unfold len; simpl; lia].
Qed.

(** *** The normalised stage *)

Lemma normalizeForMatching_nil :
  toLowerCase [] = [] → normalizeForMatching toLowerCase [] = [].
Proof. intros H. unfold normalizeForMatching. rewrite H. reflexivity. Qed.

Lemma normalized_nonempty (t : jsstring) :
  toLowerCase [] = [] → 0 < len (normalizeForMatching toLowerCase t) → 0 < len t.
Proof.
  intros H Hn. destruct t as [|c t]; [|unfold len; simpl; lia].
  rewrite normalizeForMatching_nil in Hn by exact H. unfold len in Hn. simpl in Hn. lia.
Qed.

Lemma mapNormalizedLoop_valid (transcript : list TranscriptSegment)
    (matchStart matchEnd : Z) (segs pre : list TranscriptSegment)
    (pos cur ss so eo : Z) :
  transcript = pre ++ segs → matchStart < matchEnd →
  normalizedInv toLowerCase transcript (len pre) ss so →
  let r := mapNormalizedLoop matchStart matchEnd
             (boundariesFrom toLowerCase (len pre) pos segs) cur ss (-1) so eo in
  spanStartSegmentIdx r ≠ -1 → spanEndSegmentIdx r ≠ -1 →
  validIndices transcript (spanStartSegmentIdx r) (spanEndSegmentIdx r) ∧
  (toLowerCase [] = [] →
   validSpan transcript (spanStartSegmentIdx r) (spanEndSegmentIdx r)
     (spanStartCharOffset r) (spanEndCharOffset r)).
Proof.
  revert pre pos cur ss so eo.
  induction segs as [|segment rest IH]; intros pre pos cur ss so eo Ht Hlt Hinv.
  - simpl. intros _ He. congruence.
  - assert (Hhere : segmentAt transcript (len pre) = Some segment)
      by (rewrite Ht; apply segmentAt_app_here).
    assert (Ht' : transcript = (pre ++ [segment]) ++ rest)
      by (rewrite <- app_assoc; exact Ht).
    assert (Hlen' : len (pre ++ [segment]) = len pre + 1)
      by (rewrite len_app; reflexivity).
    pose proof (len_nonneg pre) as Hpre.
    pose proof (len_nonneg (text segment)) as Htext.
    pose proof (segmentAt_Some _ _ _ Hhere) as Hrange.
    specialize (IH (pre ++ [segment]) (pos + len (text segment) + 1)).
    rewrite Hlen' in IH.
    simpl.
    set (nlen := len (normalizeForMatching toLowerCase (text segment))).
    set (hit := (ss =? -1) && (cur <=? matchStart) && (matchStart <? cur + nlen)).
    assert (Hhit : hit = true → ss = -1 ∧ cur <= matchStart < cur + nlen).
    { subst hit. rewrite !andb_true_iff, Z.eqb_eq, Z.leb_le, Z.ltb_lt. tauto. }
    assert (Hpos : toLowerCase [] = [] → 0 < nlen → 0 < len (text segment))
      by (intros Hl; apply normalized_nonempty, Hl).
    clearbody hit.
    destruct (Z.ltb_spec cur matchEnd) as [Hp | Hp];
      destruct (Z.leb_spec matchEnd (cur + nlen)) as [Hq | Hq]; simpl.
    + intros Hss _. destruct hit.
      * destruct Hhit as [_ Hhit]; [reflexivity|]. split.
        -- unfold validIndices. lia.
        -- intros Hl. specialize (Hpos Hl). exists segment, segment.
           repeat split; try lia; auto.
      * destruct Hinv as [? | (Hr & sg & Hsg & Hoff)]; [contradiction|]. split.
        -- unfold validIndices. lia.
        -- intros Hl. specialize (Hoff Hl). exists sg, segment.
           repeat split; try lia; auto.
    + apply IH; [exact Ht' | exact Hlt |]. destruct hit.
      * destruct Hhit as [_ Hhit]; [reflexivity|]. right. split; [lia|].
        exists segment. split; [exact Hhere|]. intros Hl. specialize (Hpos Hl). lia.
      * destruct Hinv as [? | (Hr & sg & Hsg & Hoff)]; [left; assumption|].
        right. split; [lia|]. eauto.
    + apply IH; [exact Ht' | exact Hlt |]. destruct hit.
      * destruct Hhit as [_ Hhit]; [reflexivity|]. right. split; [lia|].
        exists segment. split; [exact Hhere|]. intros Hl. specialize (Hpos Hl). lia.
      * destruct Hinv as [? | (Hr & sg & Hsg & Hoff)]; [left; assumption|].
        right. split; [lia|]. eauto.
    + apply IH; [exact Ht' | exact Hlt |]. destruct hit.
      * destruct Hhit as [_ Hhit]; [reflexivity|]. right. split; [lia|].
        exists segment. split; [exact Hhere|]. intros Hl. specialize (Hpos Hl). lia.
      * destruct Hinv as [? | (Hr & sg & Hsg & Hoff)]; [left; assumption|].
        right. split; [lia|]. eauto.
Qed.

(** With an empty pattern the loop never finds an end segment. *)
Lemma mapNormalizedLoop_no_end (matchStart matchEnd : Z)
    (bs : list SegmentBoundary) (cur ss es so eo : Z) :
  matchEnd <= cur →
  spanEndSegmentIdx
    (mapNormalizedLoop matchStart matchEnd bs cur ss es so eo) = es.
Proof.
  revert cur ss so. induction bs as [|b bs IH]; intros cur ss so Hcur; simpl.
  - reflexivity.
  - destruct (Z.ltb_spec cur matchEnd); [lia|]. simpl.
    apply IH. pose proof (len_nonneg (boundaryNormalizedText b)). lia.
Qed.

Lemma normalizedStage_valid (transcript : list TranscriptSegment)
    (targetText : jsstring) (m : MatchResult) :
  normalizedStage targetText (buildTranscriptIndex toLowerCase transcript) = Some m →
  matchStrategy m = Normalized ∧
  validIndices transcript (startSegmentIdx m) (endSegmentIdx m) ∧
  (toLowerCase [] = [] →
   validSpan transcript (startSegmentIdx m) (endSegmentIdx m)
     (startCharOffset m) (endCharOffset m)).
Proof.
  unfold normalizedStage.
  set (index := buildTranscriptIndex toLowerCase transcript).
  set (pattern := normalizeWhitespace targetText).
  destruct (negb _); [|discriminate].
  destruct (mapNormalizedMatchToSegments _ _ _) as [r|] eqn:Hr; [|discriminate].
  intros [= <-]. split; [reflexivity|]. simpl.
  unfold mapNormalizedMatchToSegments in Hr.
  apply spanIfFound_Some in Hr as (-> & Hs & He).
  unfold index in *. rewrite boundaries_buildTranscriptIndex in Hs, He |- *.
  destruct (decide (len pattern = 0)) as [H0 | H0].
  - exfalso. apply He. rewrite H0.
    assert (boyerMooreSearch
              (normalizedText (buildTranscriptIndex toLowerCase transcript))
              pattern = 0) as ->
      by (unfold boyerMooreSearch; rewrite H0; reflexivity).
    apply mapNormalizedLoop_no_end. lia.
  - apply (mapNormalizedLoop_valid transcript _ _ transcript [] 0 0 (-1) 0 0);
      [reflexivity | | left; reflexivity | exact Hs | exact He].
    pose proof (len_nonneg pattern). lia.
Qed.

(** *** The fuzzy stage *)

Lemma growWindow_spec (targetText : jsstring) (minSim : Q)
    (windowStart score nWords : Z) (segs : list TranscriptSegment) (i : Z)
    (combinedText : jsstring) (m : MatchResult) :
  growWindow toLowerCase targetText minSim windowStart score nWords segs i
    combinedText = Some m →
  startSegmentIdx m = windowStart ∧ startCharOffset m = 0 ∧
  matchStrategy m = FuzzyNgram ∧
  i <= endSegmentIdx m < i + len segs ∧
  ∃ segment, segs !! Z.to_nat (endSegmentIdx m - i) = Some segment ∧
             endCharOffset m = len (text segment).
Proof.
  revert i combinedText.
  induction segs as [|segment rest IH]; intros i combinedText; simpl; [discriminate|].
  destruct (Qle_bool minSim _).
  - intros [= <-]. simpl. repeat split; try lia.
    + unfold len. simpl. lia.
    + exists segment. rewrite Z.sub_diag. split; reflexivity.
  - intros H. apply IH in H as (Hs & Ho & Hst & Hr & sg & Hsg & He).
    repeat split; try assumption; try lia.
    + unfold len in *. simpl. lia.
    + exists sg. split; [|exact He].
      replace (Z.to_nat (endSegmentIdx m - i))
        with (S (Z.to_nat (endSegmentIdx m - (i + 1)))) by lia.
      exact Hsg.
Qed.

(** A match that ends at the first segment of the window was accepted on
    the text of that segment alone. *)
Lemma growWindow_first (targetText : jsstring) (minSim : Q)
    (windowStart score nWords : Z) (segs : list TranscriptSegment)
    (m : MatchResult) :
  growWindow toLowerCase targetText minSim windowStart score nWords segs
    windowStart [] = Some m →
  endSegmentIdx m = windowStart →
  ∃ segment, segs !! 0%nat = Some segment ∧
    Qle_bool minSim
      (calculateNgramSimilarity (normalizeForMatching toLowerCase targetText)
         (normalizeForMatching toLowerCase (text segment))) = true.
Proof.
  destruct segs as [|segment rest]; simpl; [discriminate|].
  rewrite Z.ltb_irrefl. simpl.
  destruct (Qle_bool minSim _) eqn:Hq.
  - intros _ _. exists segment. split; [reflexivity | exact Hq].
  - intros H He. apply growWindow_spec in H as (_ & _ & _ & Hr & _). lia.
Qed.

Lemma calculateNgramSimilarity_nil_r (s : jsstring) :
  calculateNgramSimilarity s [] = 0%Q.
Proof. unfold calculateNgramSimilarity. rewrite orb_true_r. reflexivity. Qed.

Lemma tryCandidate_spec (transcript : list TranscriptSegment)
    (targetText : jsstring) (options : MatchOptions) (nWords : Z)
    (candidateIdx score : Z) (m : MatchResult) :
  tryCandidate toLowerCase transcript targetText options nWords
    (candidateIdx, score) = Some m →
  startSegmentIdx m = Z.max 0 (candidateIdx - 2) ∧
  startCharOffset m = 0 ∧
  matchStrategy m = FuzzyNgram ∧
  startSegmentIdx m <= endSegmentIdx m ∧
  endSegmentIdx m <= candidateIdx + maxSegmentWindow options ∧
  ∃ segment, segmentAt transcript (endSegmentIdx m) = Some segment ∧
    endCharOffset m = len (text segment) ∧
    (toLowerCase [] = [] → (0 < minSimilarity options)%Q →
     endSegmentIdx m = startSegmentIdx m → 0 < len (text segment)).
Proof.
  unfold tryCandidate.
  set (windowStart := Z.max 0 (candidateIdx - 2)).
  set (windowEnd := Z.min (len transcript - 1)
                      (candidateIdx + maxSegmentWindow options)).
  set (segs := take _ _).
  intros H. pose proof (growWindow_first _ _ _ _ _ _ _ H) as Hfirst.
  apply growWindow_spec in H as (Hs & Ho & Hst & Hr & sg & Hsg & He).
  assert (Hsegs : len segs <= windowEnd - windowStart + 1 ∨ len segs = 0).
  { unfold len, segs. rewrite length_take. lia. }
  assert (Hat : ∀ k x, segs !! k = Some x →
            segmentAt transcript (windowStart + Z.of_nat k) = Some x).
  { intros k x Hk. unfold segs in Hk. apply lookup_take_Some in Hk as [Hk _].
    rewrite lookup_drop in Hk. unfold segmentAt.
    destruct (Z.ltb_spec (windowStart + Z.of_nat k) 0); [lia|].
    rewrite <- Hk. f_equal. lia. }
  repeat split; try assumption; try lia.
  exists sg. split; [|split; [exact He|]].
  - apply Hat in Hsg. rewrite <- Hsg. f_equal. lia.
  - intros Hl Hmin Heq. rewrite Hs in Heq.
    destruct (Hfirst Heq) as (sg' & Hsg' & Hq).
    rewrite Heq, Z.sub_diag in Hsg. change (Z.to_nat 0) with 0%nat in Hsg.
    rewrite Hsg' in Hsg.
    injection Hsg as ->.
    apply normalized_nonempty; [exact Hl|].
    destruct (normalizeForMatching toLowerCase (text sg)) as [|c t] eqn:Hn;
      [|unfold len; simpl; lia].
    rewrite calculateNgramSimilarity_nil_r in Hq.
    apply Qle_bool_iff in Hq. exfalso. exact (Qlt_not_le _ _ Hmin Hq).
Qed.

Lemma tryCandidates_spec (transcript : list TranscriptSegment)
    (targetText : jsstring) (options : MatchOptions) (nWords : Z)
    (candidates : list (Z * Z)) (m : MatchResult) :
  tryCandidates toLowerCase transcript targetText options nWords candidates
    = Some m →
  ∃ candidate, candidate ∈ candidates ∧
    tryCandidate toLowerCase transcript targetText options nWords candidate
      = Some m.
Proof.
  induction candidates as [|c rest IH]; simpl; [discriminate|].
  destruct (tryCandidate _ _ _ _ _ c) as [r|] eqn:Hc.
  - intros [= <-]. exists c. split; [left | exact Hc].
  - intros H. destruct (IH H) as (c' & Hin & Hc'). exists c'. split; [right|]; assumption.
Qed.

Lemma elem_of_scoreSet (k v : Z) (scores : list (Z * Z)) (x : Z * Z) :
  x ∈ scoreSet k v scores → x.1 = k ∨ x ∈ scores.
Proof.
  induction scores as [|[k0 w] scores IH]; simpl.
  - intros H. apply list_elem_of_singleton in H as ->. left. reflexivity.
  - destruct (Z.eqb_spec k0 k) as [-> | Hne]; intros H;
      apply elem_of_cons in H as [-> | H].
    + left. reflexivity.
    + right. right. exact H.
    + right. left.
    + destruct (IH H) as [? | ?]; [left | right; right]; assumption.
Qed.

Lemma tallyVotes_keysFrom (wi : gmap jsstring (list Z)) (startIdx : Z)
    (targetWords : list jsstring) :
  keysFrom startIdx (tallyVotes wi startIdx targetWords).
Proof.
  unfold tallyVotes.
  assert (Hfold : ∀ scores, keysFrom startIdx scores →
            keysFrom startIdx (foldl (voteWord wi startIdx) scores targetWords)).
  { induction targetWords as [|w ws IH]; intros scores Hk; simpl; [exact Hk|].
    apply IH. unfold voteWord. clear IH. revert scores Hk.
    induction (postings wi w) as [|s l IHl]; intros scores Hk; simpl; [exact Hk|].
    apply IHl. unfold voteFor. destruct (Z.leb_spec startIdx s); [|exact Hk].
    intros k v Hin. apply elem_of_scoreSet in Hin as [Hin | Hin].
    - simpl in Hin. lia.
    - exact (Hk k v Hin). }
  apply Hfold. intros k v Hin. inversion Hin.
Qed.

Lemma elem_of_insertByScore (x y : Z * Z) (l : list (Z * Z)) :
  y ∈ insertByScore x l → y = x ∨ y ∈ l.
Proof.
  induction l as [|z l IH]; simpl.
  - intros H. apply list_elem_of_singleton in H. left. exact H.
  - destruct (x.2 <? z.2); intros H; apply elem_of_cons in H as [-> | H].
    + right. left.
    + destruct (IH H) as [? | ?]; [left | right; right]; assumption.
    + left. reflexivity.
    + right. exact H.
Qed.

Lemma elem_of_sortByScore (y : Z * Z) (l : list (Z * Z)) :
  y ∈ sortByScore l → y ∈ l.
Proof.
  unfold sortByScore. induction l as [|x l IH]; simpl; [auto|].
  intros H. apply elem_of_insertByScore in H as [-> | H]; [left | right; auto].
Qed.

Lemma fuzzyStage_spec (transcript : list TranscriptSegment)
    (targetText : jsstring) (index : TranscriptIndex) (options : MatchOptions)
    (m : MatchResult) :
  fuzzyStage toLowerCase transcript targetText index options = Some m →
  ∃ candidateIdx score,
    startIdx options <= candidateIdx ∧
    tryCandidate toLowerCase transcript targetText options
      (len (wordsOf toLowerCase targetText)) (candidateIdx, score) = Some m.
Proof.
  unfold fuzzyStage. destruct (0 <? _); [|discriminate].
  intros H. apply tryCandidates_spec in H as ([c score] & Hin & Hc).
  exists c, score. split; [|exact Hc].
  apply elem_of_take in Hin as (i & Hin & _).
  apply list_elem_of_lookup_2, elem_of_sortByScore in Hin.
  exact (tallyVotes_keysFrom _ _ _ _ _ Hin).
Qed.

(** *** The cascade *)

Lemma findTextInTranscript_cases (transcript : list TranscriptSegment)
    (targetText : jsstring) (index : TranscriptIndex) (options : MatchOptions)
    (m : MatchResult) :
  findTextInTranscript toLowerCase transcript targetText index options = Some m →
  exactStage targetText index = Some m ∨
  (exactStage targetText index = None ∧
   normalizedStage targetText index = Some m) ∨
  (exactStage targetText index = None ∧
   normalizedStage targetText index = None ∧
   fuzzyStage toLowerCase transcript targetText index options = Some m).
Proof.
  unfold findTextInTranscript.
  destruct (exactStage targetText index); [intros [= <-]; auto|].
  destruct (normalizedStage targetText index); [intros [= <-]; auto|].
  auto.
Qed.


Lemma exactStage_strategy (targetText : jsstring) (index : TranscriptIndex)
    (m : MatchResult) :
  exactStage targetText index = Some m →
  matchStrategy m = Exact ∧ similarity m = 1%Q ∧ confidence m = 1%Q.
Proof.
  unfold exactStage. destruct (negb _); [|discriminate].
  destruct (mapMatchToSegments _ _ _); [|discriminate].
  intros [= <-]. auto.
Qed.

Lemma normalizedStage_strategy (targetText : jsstring) (index : TranscriptIndex)
    (m : MatchResult) :
  normalizedStage targetText index = Some m → matchStrategy m = Normalized.
Proof.
  unfold normalizedStage. destruct (negb _); [|discriminate].
  destruct (mapNormalizedMatchToSegments _ _ _); [|discriminate].
  intros [= <-]. auto.
Qed.

(** Every match designates existing segments, in order. *)
Lemma findTextInTranscript_indices (transcript : list TranscriptSegment)
    (targetText : jsstring) (options : MatchOptions) (m : MatchResult) :
  targetText ≠ [] →
  findTextInTranscript toLowerCase transcript targetText
    (buildTranscriptIndex toLowerCase transcript) options = Some m →
  validIndices transcript (startSegmentIdx m) (endSegmentIdx m).
Proof.
  intros Hne H.
  apply findTextInTranscript_cases in H as [H | [[_ H] | (_ & _ & H)]].
  - apply exactStage_valid in H as [_ H]; [|exact Hne].
    exact (validSpan_indices _ _ _ _ _ H).
  - apply normalizedStage_valid in H as (_ & H & _). exact H.
  - apply fuzzyStage_spec in H as (c & score & _ & H).
    apply tryCandidate_spec in H as (Hs & _ & _ & Hle & _ & sg & Hsg & _).
    apply segmentAt_Some in Hsg. unfold validIndices. lia.
Qed.

(** C8, as the code has it. A match of a non-empty quote has its offsets within the texts of
    its start and end segments, its start segment is not after its end
    segment, and when both are the same segment the start offset is below
    the end offset. The fuzzy stage is run with a positive threshold, and
    [toLowerCase] maps the empty string to itself. *)
Theorem findTextInTranscript_offsets (transcript : list TranscriptSegment)
    (targetText : jsstring) (options : MatchOptions) (m : MatchResult) :
  toLowerCase [] = [] →
  targetText ≠ [] →
  (0 < minSimilarity options)%Q →
  findTextInTranscript toLowerCase transcript targetText
    (buildTranscriptIndex toLowerCase transcript) options = Some m →
  ∃ startSegment endSegment,
    segmentAt transcript (startSegmentIdx m) = Some startSegment ∧
    segmentAt transcript (endSegmentIdx m) = Some endSegment ∧
    startSegmentIdx m <= endSegmentIdx m ∧
    0 <= startCharOffset m <= len (text startSegment) ∧
    0 <= endCharOffset m <= len (text endSegment) ∧
    (startSegmentIdx m = endSegmentIdx m → startCharOffset m < endCharOffset m).
Proof.
  intros Hlower Hne Hmin H.
  apply findTextInTranscript_cases in H as [H | [[_ H] | (_ & _ & H)]].
  - apply exactStage_valid in H as [_ H]; [exact H | exact Hne].
  - apply normalizedStage_valid in H as (_ & _ & H). exact (H Hlower).
  - apply fuzzyStage_spec in H as (c & score & _ & H).
    apply tryCandidate_spec in H
      as (Hs & Ho & _ & Hle & _ & sgE & HsgE & He & Hsingle).
    pose proof (segmentAt_Some _ _ _ HsgE) as Hrange.
    assert (HsgS : ∃ sgS, segmentAt transcript (startSegmentIdx m) = Some sgS).
    { unfold segmentAt.
      destruct (Z.ltb_spec (startSegmentIdx m) 0); [lia|].
      apply lookup_lt_is_Some. unfold len in Hrange. lia. }
    destruct HsgS as [sgS HsgS]. exists sgS, sgE.
    pose proof (len_nonneg (text sgS)). pose proof (len_nonneg (text sgE)).
    repeat split; try assumption; try lia.
    intros Heq. rewrite Ho, He. apply Hsingle; auto.
Qed.

(** The window of the fuzzy stage, as the code builds it. A match of the
    fuzzy stage comes from one of the 15 best voted candidates: its window
    starts two segments before the candidate (at segment 0 at the earliest)
    and ends at most [maxSegmentWindow] segments after the candidate itself
    (at the last segment at the latest), so it spans at most
    [maxSegmentWindow + 3] segments. *)
Lemma fuzzy_window_span (transcript : list TranscriptSegment)
    (targetText : jsstring) (index : TranscriptIndex) (options : MatchOptions)
    (m : MatchResult) :
  findTextInTranscript toLowerCase transcript targetText index options = Some m →
  matchStrategy m = FuzzyNgram →
  ∃ candidateIdx score,
    (candidateIdx, score) ∈
      take 15 (sortByScore
                 (tallyVotes (wordIndex index) (startIdx options)
                    (wordsOf toLowerCase targetText))) ∧
    startSegmentIdx m = Z.max 0 (candidateIdx - 2) ∧
    startSegmentIdx m <= endSegmentIdx m ∧
    endSegmentIdx m
      <= Z.min (len transcript - 1) (candidateIdx + maxSegmentWindow options) ∧
    endSegmentIdx m - startSegmentIdx m + 1 <= maxSegmentWindow options + 3.
Proof.
  intros H Hst.
  apply findTextInTranscript_cases in H as [H | [[_ H] | (_ & _ & H)]].
  - apply exactStage_strategy in H as [H _]. congruence.
  - apply normalizedStage_strategy in H. congruence.
  - unfold fuzzyStage in H. destruct (0 <? _); [|discriminate].
    apply tryCandidates_spec in H as ([c score] & Hin & H).
    apply tryCandidate_spec in H as (Hs & _ & _ & Hle & Hend & sg & Hsg & _).
    apply segmentAt_Some in Hsg.
    exists c, score. split; [exact Hin|]. repeat split; try assumption; lia.
Qed.

End Spans.

Lemma fox_fuzzy_match :
  findTextInTranscript asciiLower fox (js "the quick brown fox jumped high")
    (buildTranscriptIndex asciiLower fox) narrowOptions = Some foxMatch.
Proof. vm_compute. reflexivity. Qed.

Lemma fuzzy_window_span_witness :
  ∃ candidateIdx score,
    (candidateIdx, score) ∈
      take 15 (sortByScore
                 (tallyVotes (wordIndex (buildTranscriptIndex asciiLower fox))
                    (startIdx narrowOptions)
                    (wordsOf asciiLower (js "the quick brown fox jumped high")))) ∧
    startSegmentIdx foxMatch = Z.max 0 (candidateIdx - 2) ∧
    startSegmentIdx foxMatch <= endSegmentIdx foxMatch ∧
    endSegmentIdx foxMatch
      <= Z.min (len fox - 1) (candidateIdx + maxSegmentWindow narrowOptions) ∧
    endSegmentIdx foxMatch - startSegmentIdx foxMatch + 1
      <= maxSegmentWindow narrowOptions + 3.
Proof.
  apply (fuzzy_window_span asciiLower fox (js "the quick brown fox jumped high")
           (buildTranscriptIndex asciiLower fox) narrowOptions foxMatch).
  - vm_compute. reflexivity.
  - reflexivity.
Defined.

(** C3 at a window of one segment. With [maxSegmentWindow = 1] the three
    segments of the transcript get 2, 2 and 1 votes. The window of candidate
    0 is made of segments 0 to 1 and does not reach the threshold; the window
    of candidate 1 starts at segment 0 and is allowed to grow to segment
    [1 + 1], and the match returned spans the three segments 0 to 2, more
    than [maxSegmentWindow]. *)
Theorem fuzzy_window_exceeds_maxSegmentWindow :
  let q := js "the quick brown fox jumped high" in
  let index := buildTranscriptIndex asciiLower fox in
  maxSegmentWindow narrowOptions = 1 ∧
  take 15 (sortByScore (tallyVotes (wordIndex index) (startIdx narrowOptions)
                          (wordsOf asciiLower q)))
    = [(0, 2); (1, 2); (2, 1)] ∧
  tryCandidate asciiLower fox q narrowOptions (len (wordsOf asciiLower q)) (0, 2)
    = None ∧
  tryCandidate asciiLower fox q narrowOptions (len (wordsOf asciiLower q)) (1, 2)
    = Some foxMatch ∧
  findTextInTranscript asciiLower fox q index narrowOptions = Some foxMatch ∧
  matchStrategy foxMatch = FuzzyNgram ∧
  startSegmentIdx foxMatch = 0 ∧ endSegmentIdx foxMatch = 2 ∧
  ¬ (endSegmentIdx foxMatch - startSegmentIdx foxMatch + 1
     <= maxSegmentWindow narrowOptions).
Proof.
  vm_compute. repeat split; try reflexivity. intros H. apply H. reflexivity.
Qed.

Lemma findTextInTranscript_offsets_witness :
  ∃ startSegment endSegment,
    segmentAt fox (startSegmentIdx foxMatch) = Some startSegment ∧
    segmentAt fox (endSegmentIdx foxMatch) = Some endSegment ∧
    startSegmentIdx foxMatch <= endSegmentIdx foxMatch ∧
    0 <= startCharOffset foxMatch <= len (text startSegment) ∧
    0 <= endCharOffset foxMatch <= len (text endSegment) ∧
    (startSegmentIdx foxMatch = endSegmentIdx foxMatch →
     startCharOffset foxMatch < endCharOffset foxMatch).
Proof.
  apply (findTextInTranscript_offsets asciiLower fox
           (js "the quick brown fox jumped high") narrowOptions foxMatch).
  - reflexivity.
  - discriminate.
  - reflexivity.
  - vm_compute. reflexivity.
Defined.

(** The positive threshold matters for the last part of C8: with the
    threshold 0 the fuzzy stage accepts the window made of an empty first
    segment, a match of one segment whose two offsets are 0. *)
Example offsets_with_threshold_zero :
  findTextInTranscript asciiLower hollow (js "hello world")
    (buildTranscriptIndex asciiLower hollow)
    {| startIdx := 0; minSimilarity := 0; maxSegmentWindow := 30 |}
  = Some {| found := true; startSegmentIdx := 0; endSegmentIdx := 0;
            startCharOffset := 0; endCharOffset := 0;
            matchStrategy := FuzzyNgram; similarity := 0;
            confidence := (1 # 2)%Q |}.
Proof. vm_compute. reflexivity. Qed.

(** C8 as stated fails at the threshold 0: the quote is not empty, the
    match lies in the single segment 0, and its start offset is not below its
    end offset. *)
Lemma findTextInTranscript_offsets_counterexample :
  ∃ m, js "hello world" ≠ [] ∧
       findTextInTranscript asciiLower hollow (js "hello world")
         (buildTranscriptIndex asciiLower hollow)
         {| startIdx := 0; minSimilarity := 0; maxSegmentWindow := 30 |} = Some m ∧
       startSegmentIdx m = endSegmentIdx m ∧
       ¬ (startCharOffset m < endCharOffset m).
Proof.
  eexists. split; [discriminate|]. split; [exact offsets_with_threshold_zero|].
  split; [reflexivity|]. simpl. lia.
Qed.

(** ** The orchestrator *)

Lemma overlapsb_spec (ts te : Q) (segment : TranscriptSegment) :
  overlapsb ts te segment = true ↔ overlaps ts te segment.
Proof.
  unfold overlapsb, overlaps. rewrite andb_true_iff, !Qle_bool_iff. reflexivity.
Qed.

Lemma segmentsInRangeFrom_filter (ts te : Q) (segs : list TranscriptSegment) (idx : Z) :
  segmentsInRangeFrom ts te idx segs =
  filter (λ p, overlapsb ts te p.2 = true)
    (imap (λ i segment, (idx + Z.of_nat i, segment)) segs).
Proof.
  revert idx. induction segs as [|segment rest IH]; intros idx; [reflexivity|].
  simpl. rewrite IH.
  assert (Hext : imap (λ i s, (idx + 1 + Z.of_nat i, s)) rest =
                 imap ((λ i s, (idx + Z.of_nat i, s)) ∘ S) rest).
  { apply imap_ext. intros i x _. simpl. f_equal. lia. }
  rewrite Hext. rewrite filter_cons.
  change (Z.of_nat 0) with 0. rewrite Z.add_0_r.
  change ((idx, segment).2) with segment.
  change (Qle_bool (start segment) te
          && Qle_bool ts (start segment + duration segment)%Q)
    with (overlapsb ts te segment).
  destruct (decide (overlapsb ts te segment = true)) as [-> | Hn].
  - reflexivity.
  - apply not_true_is_false in Hn. rewrite Hn. reflexivity.
Qed.

Lemma segmentsInRange_overlapping (ts te : Q) (transcript : list TranscriptSegment) :
  segmentsInRangeFrom ts te 0 transcript = overlapping ts te transcript.
Proof. apply segmentsInRangeFrom_filter. Qed.

Lemma overlapping_nonempty (ts te : Q) (transcript : list TranscriptSegment)
    (i : Z) (segment : TranscriptSegment) :
  segmentAt transcript i = Some segment → overlaps ts te segment →
  overlapping ts te transcript ≠ [].
Proof.
  intros Hat Hov Hnil.
  assert (Hin : (i, segment) ∈ overlapping ts te transcript).
  { unfold overlapping. apply list_elem_of_filter. split.
    - apply overlapsb_spec. exact Hov.
    - unfold segmentAt in Hat. destruct (Z.ltb_spec i 0); [discriminate|].
      apply list_elem_of_lookup. exists (Z.to_nat i).
      rewrite list_lookup_imap, Hat. simpl. f_equal. f_equal. lia. }
  rewrite Hnil in Hin. inversion Hin.
Qed.

Lemma last_cons_default {A} (x d : A) (l : list A) :
  last (x :: l) = Some (List.last (x :: l) d).
Proof.
  revert x. induction l as [|y l IH]; intros x; [reflexivity|].
  specialize (IH y). simpl in *. exact IH.
Qed.

Section Resolution.

Variable toLowerCase : jsstring → jsstring.
Variable parseTimestampRange : jsstring → option (Q * Q).

Lemma resolvedFromMatch_valid (transcript : list TranscriptSegment)
    (quoteText : jsstring) (m : MatchResult) :
  validIndices transcript (startSegmentIdx m) (endSegmentIdx m) →
  ∃ r, resolvedFromMatch transcript quoteText m = Normal (Some r).
Proof.
  intros (Hs & Hle & He). unfold resolvedFromMatch, segmentAt.
  destruct (Z.ltb_spec (startSegmentIdx m) 0); [lia|].
  destruct (Z.ltb_spec (endSegmentIdx m) 0); [lia|].
  destruct (lookup_lt_is_Some_2 transcript (Z.to_nat (startSegmentIdx m)))
    as [sgS ->]; [unfold len in He; lia|].
  destruct (lookup_lt_is_Some_2 transcript (Z.to_nat (endSegmentIdx m)))
    as [sgE ->]; [unfold len in He; lia|].
  eauto.
Qed.



(** C1, as the code has it. A quote whose trimmed text is empty is dropped
    ([null]), whatever its timestamp. A quote whose text is not blank and
    whose non-empty timestamp parses to a range that overlaps a segment of
    the transcript is resolved: the per-quote function returns a result, not
    [null], and does not throw. When moreover the run over the whole
    transcript fails and the constrained run fails or is rejected, the
    result is the fallback: the texts of all overlapping segments joined by
    single spaces, the span from the first to the last overlapping segment,
    start offset 0, end offset the length of the last overlapping text,
    confidence 0.5 and [hasCompleteSentences = false]. *)
Theorem findExactQuote_resolves (transcript : list TranscriptSegment)
    (quote : Quote) (timestampStart timestampEnd : Q) :
  let index := buildTranscriptIndex toLowerCase transcript in
  let q := trim (quoteText quote) in
  let segmentsInRange := overlapping timestampStart timestampEnd transcript in
  (q = [] →
   findExactQuote toLowerCase parseTimestampRange transcript quote index
     = Normal None) ∧
  (quoteTimestamp quote ≠ [] →
   parseTimestampRange (quoteTimestamp quote) = Some (timestampStart, timestampEnd) →
   q ≠ [] →
   (∃ i segment, segmentAt transcript i = Some segment ∧
                 overlaps timestampStart timestampEnd segment) →
   ∃ r, findExactQuote toLowerCase parseTimestampRange transcript quote index
          = Normal (Some r) ∧
     ∀ firstSegment lastSegment,
       head segmentsInRange = Some firstSegment →
       last segmentsInRange = Some lastSegment →
       findTextInTranscript toLowerCase transcript q index globalOptions = None →
       (∀ m, findTextInTranscript toLowerCase transcript q index
               (rangeOptions firstSegment.1 lastSegment.1) = Some m →
             lastSegment.1 + 2 < startSegmentIdx m) →
       rText r = joinWithSpace (map (λ s, text s.2) segmentsInRange) ∧
       rStartSegmentIdx r = firstSegment.1 ∧
       rEndSegmentIdx r = lastSegment.1 ∧
       rStartCharOffset r = 0 ∧
       rEndCharOffset r = len (text lastSegment.2) ∧
       rConfidence r = (5 # 10)%Q ∧
       hasCompleteSentences r = false).
Proof.
  intros index q segmentsInRange. split.
  { intros Hblank. unfold findExactQuote.
    destruct (if len (quoteTimestamp quote) =? 0 then None
              else parseTimestampRange (quoteTimestamp quote)) as [[ts te]|];
      [|reflexivity].
    fold q. rewrite Hblank. reflexivity. }
  intros Hts Hparse Hq (i & segment & Hat & Hov).
  pose proof (overlapping_nonempty _ _ _ _ _ Hat Hov) as Hne.
  fold segmentsInRange in Hne.
  unfold findExactQuote.
  assert ((len (quoteTimestamp quote) =? 0) = false) as ->.
  { destruct (quoteTimestamp quote); [congruence | reflexivity]. }
  rewrite Hparse. fold q.
  assert ((len q =? 0) = false) as ->.
  { destruct q; [congruence | reflexivity]. }
  fold index.
  destruct (findTextInTranscript toLowerCase transcript q index globalOptions)
    as [m|] eqn:Hglobal.
  - destruct (resolvedFromMatch_valid transcript q m) as [r Hr].
    { exact (findTextInTranscript_indices _ _ _ _ _ Hq Hglobal). }
    exists r. split; [exact Hr|]. intros; discriminate.
  - unfold resolveByTimestamp. rewrite segmentsInRange_overlapping.
    fold segmentsInRange.
    destruct segmentsInRange as [|firstSegment others] eqn:Hsegs; [congruence|].
    cbv beta iota zeta.
    set (lastSegment := List.last (firstSegment :: others) firstSegment).
    assert (Hlast : last (firstSegment :: others) = Some lastSegment).
    { apply last_cons_default. }
    assert (Hfallback : ∀ r,
      r = timestampFallback firstSegment lastSegment (firstSegment :: others) →
      ∀ f l, head (firstSegment :: others) = Some f →
             last (firstSegment :: others) = Some l →
             rText r = joinWithSpace (map (λ s, text s.2) (firstSegment :: others)) ∧
             rStartSegmentIdx r = f.1 ∧ rEndSegmentIdx r = l.1 ∧
             rStartCharOffset r = 0 ∧ rEndCharOffset r = len (text l.2) ∧
             rConfidence r = (5 # 10)%Q ∧ hasCompleteSentences r = false).
    { intros r -> f l [= <-] Hl. rewrite Hlast in Hl. injection Hl as <-.
      repeat split. }
    destruct (findTextInTranscript toLowerCase transcript q index
                (rangeOptions firstSegment.1 lastSegment.1))
      as [rangeMatch|] eqn:Hrange.
    + destruct (Z.leb_spec (startSegmentIdx rangeMatch) (lastSegment.1 + 2))
        as [Hacc | Hrej].
      * destruct (resolvedFromMatch_valid transcript q rangeMatch) as [r Hr].
        { exact (findTextInTranscript_indices _ _ _ _ _ Hq Hrange). }
        exists r. split; [exact Hr|].
        intros f l [= <-] Hl _ Hall. rewrite Hlast in Hl. injection Hl as <-.
        specialize (Hall rangeMatch Hrange). lia.
      * eexists. split; [reflexivity|].
        intros f l Hf Hl _ _. exact (Hfallback _ eq_refl f l Hf Hl).
    + eexists. split; [reflexivity|].
      intros f l Hf Hl _ _. exact (Hfallback _ eq_refl f l Hf Hl).
Qed.

End Resolution.

(** ** Adjacent segments *)

Lemma spanLen_nonneg (segs : list TranscriptSegment) : 0 <= spanLen segs.
Proof.
  induction segs as [|s l IH]; simpl; [lia|].
  pose proof (len_nonneg (text s)). lia.
Qed.

Lemma joinWithSpace_cons (x : jsstring) (xs : list jsstring) :
  joinWithSpace (x :: xs) = x ++ concat (map (λ y, SPACE ++ y) xs).
Proof.
  revert x. induction xs as [|y ys IH]; intros x.
  - simpl. rewrite app_nil_r. reflexivity.
  - change (joinWithSpace (x :: y :: ys)) with (x ++ SPACE ++ joinWithSpace (y :: ys)).
    rewrite IH. simpl. reflexivity.
Qed.

Lemma occursAt_middle (P q S : jsstring) : occursAt (P ++ q ++ S) q (len P).
Proof.
  unfold occursAt. split; [apply len_nonneg|]. split.
  - rewrite !len_app. pose proof (len_nonneg S). lia.
  - unfold len. rewrite Nat2Z.id, drop_app_length, take_app_length. reflexivity.
Qed.

Section Adjacent.

Variable toLowerCase : jsstring → jsstring.

Lemma fullTextSpace_indexFrom (segs : list TranscriptSegment)
    (st : TranscriptIndex) (idx : Z) :
  0 < idx →
  fullTextSpace (indexFrom toLowerCase st idx segs) =
  fullTextSpace st ++ concat (map (λ s, SPACE ++ text s) segs).
Proof.
  revert st idx. induction segs as [|s rest IH]; intros st idx Hidx; simpl.
  - rewrite app_nil_r. reflexivity.
  - rewrite IH by lia. simpl.
    destruct (Z.ltb_spec 0 idx); [|lia]. rewrite <- !app_assoc. reflexivity.
Qed.

Lemma fullTextSpace_buildTranscriptIndex (transcript : list TranscriptSegment) :
  fullTextSpace (buildTranscriptIndex toLowerCase transcript) =
  joinWithSpace (map text transcript).
Proof.
  unfold buildTranscriptIndex. destruct transcript as [|s rest]; [reflexivity|].
  simpl indexFrom. rewrite fullTextSpace_indexFrom by lia.
  simpl map. rewrite joinWithSpace_cons, map_map. reflexivity.
Qed.

(** The full text around two adjacent segments. *)
Lemma fullText_adjacent (pre post : list TranscriptSegment)
    (a b : TranscriptSegment) :
  ∃ P S, joinWithSpace (map text (pre ++ a :: b :: post)) =
         P ++ (text a ++ SPACE ++ text b) ++ S ∧
         len P = spanLen pre.
Proof.
  destruct pre as [|p pre].
  - exists [], (concat (map (λ y, SPACE ++ y) (map text post))). split; [|reflexivity].
    simpl app. simpl map. rewrite joinWithSpace_cons. simpl.
    rewrite <- !app_assoc. reflexivity.
  - exists (text p ++ concat (map (λ y, SPACE ++ y) (map text pre)) ++ SPACE),
           (concat (map (λ y, SPACE ++ y) (map text post))). split.
    + simpl app. simpl map. rewrite joinWithSpace_cons.
      rewrite map_app, map_app, concat_app. simpl.
      rewrite <- !app_assoc. reflexivity.
    + rewrite !len_app. simpl spanLen.
      assert (Hc : ∀ l, len (concat (map (λ y, SPACE ++ y) (map text l))) = spanLen l).
      { induction l as [|s l IH]; [reflexivity|].
        change (concat (map (λ y, SPACE ++ y) (map text (s :: l))))
          with ((SPACE ++ text s) ++ concat (map (λ y, SPACE ++ y) (map text l))).
        rewrite !len_app, IH. change (len SPACE) with 1. simpl spanLen. lia. }
      rewrite Hc. change (len SPACE) with 1. lia.
Qed.

(** The loop of [mapMatchToSegments] over segments that end before the
    match starts: no start is found, the end variables are overwritten. *)
Lemma mapMatchLoop_skip (matchStart matchEnd : Z)
    (pre rest : list TranscriptSegment) (idx pos es eo : Z) :
  pos + spanLen pre <= matchStart → matchStart < matchEnd →
  ∃ es' eo',
    mapMatchLoop matchStart matchEnd
      (boundariesFrom toLowerCase idx pos (pre ++ rest)) (-1) es 0 eo =
    mapMatchLoop matchStart matchEnd
      (boundariesFrom toLowerCase (idx + len pre) (pos + spanLen pre) rest)
      (-1) es' 0 eo'.
Proof.
  revert idx pos es eo. induction pre as [|p pre IH]; intros idx pos es eo Hpos Hlt.
  - exists es, eo. simpl. rewrite !Z.add_0_r. reflexivity.
  - simpl spanLen in *. pose proof (spanLen_nonneg pre) as Hn.
    pose proof (len_nonneg (text p)) as Hp.
    destruct (IH (idx + 1) (pos + len (text p) + 1) idx (len (text p)))
      as (es' & eo' & Heq); [lia | lia |].
    exists es', eo'. simpl.
    destruct (Z.ltb_spec matchStart (pos + len (text p))); [lia|].
    rewrite andb_false_r.
    destruct (Z.leb_spec matchEnd (pos + len (text p))); [lia|].
    rewrite andb_false_r.
    destruct (Z.ltb_spec (pos + len (text p)) matchEnd); [|lia].
    rewrite Heq. f_equal. f_equal.
    + unfold len. simpl. lia.
    + lia.
Qed.

(** The loop at two adjacent non-empty segments that the match covers
    exactly. *)
Lemma mapMatchLoop_adjacent (a b : TranscriptSegment)
    (post : list TranscriptSegment) (idx pos es eo : Z) :
  text a ≠ [] → text b ≠ [] →
  mapMatchLoop pos (pos + len (text a ++ SPACE ++ text b))
    (boundariesFrom toLowerCase idx pos (a :: b :: post)) (-1) es 0 eo =
  Build_SegmentSpan idx (idx + 1) 0 (len (text b)).
Proof.
  intros Ha Hb.
  assert (0 < len (text a)) by (destruct (text a); [congruence | unfold len; simpl; lia]).
  assert (0 < len (text b)) by (destruct (text b); [congruence | unfold len; simpl; lia]).
  rewrite !len_app. change (len SPACE) with 1. simpl.
  destruct (Z.leb_spec pos pos); [|lia].
  destruct (Z.ltb_spec pos (pos + len (text a))); [|lia]. simpl.
  destruct (Z.leb_spec (pos + (len (text a) + (1 + len (text b))))
              (pos + len (text a))); [lia|].
  rewrite andb_false_r.
  destruct (Z.ltb_spec (pos + len (text a))
              (pos + (len (text a) + (1 + len (text b))))); [|lia].
  destruct (Z.eqb_spec idx (-1)) as [-> | Hidx]; simpl.
  - destruct (Z.ltb_spec (pos + len (text a) + 1)
                (pos + (len (text a) + (1 + len (text b))))); [|lia].
    destruct (Z.leb_spec (pos + (len (text a) + (1 + len (text b))))
                (pos + len (text a) + 1 + len (text b))); [|lia].
    simpl.
    destruct (Z.leb_spec (pos + len (text a) + 1) pos); [lia|]. simpl.
    f_equal; lia.
  - destruct (Z.ltb_spec (pos + len (text a) + 1)
                (pos + (len (text a) + (1 + len (text b))))); [|lia].
    destruct (Z.leb_spec (pos + (len (text a) + (1 + len (text b))))
                (pos + len (text a) + 1 + len (text b))); [|lia].
    simpl. f_equal; lia.
Qed.

Lemma segmentAt_split (transcript : list TranscriptSegment) (i : Z)
    (a b : TranscriptSegment) :
  segmentAt transcript i = Some a → segmentAt transcript (i + 1) = Some b →
  ∃ pre post, transcript = pre ++ a :: b :: post ∧ len pre = i ∧
              take (Z.to_nat i) transcript = pre.
Proof.
  unfold segmentAt. destruct (Z.ltb_spec i 0); [discriminate|].
  destruct (Z.ltb_spec (i + 1) 0); [lia|]. intros Ha Hb.
  replace (Z.to_nat (i + 1)) with (S (Z.to_nat i)) in Hb by lia.
  exists (take (Z.to_nat i) transcript), (drop (S (S (Z.to_nat i))) transcript).
  pose proof (lookup_lt_Some _ _ _ Ha) as Hlt.
  split; [|split; [|reflexivity]].
  - rewrite <- (take_drop (Z.to_nat i) transcript) at 1. f_equal.
    rewrite (drop_S _ _ _ Ha). f_equal. rewrite (drop_S _ _ _ Hb). reflexivity.
  - unfold len. rewrite length_take. lia.
Qed.

(** C7, as the code has it. For two adjacent segments with non-empty texts
    whose space-joined text does not occur in the full text before the start
    of the first of them, the quote made of the two texts joined by a space
    is resolved by the exact stage, with similarity and confidence 1, to the
    span from offset 0 of segment [i] to the end of segment [i + 1]. *)
Theorem adjacent_segments_exact (transcript : list TranscriptSegment) (i : Z)
    (segmentA segmentB : TranscriptSegment) (options : MatchOptions) :
  let index := buildTranscriptIndex toLowerCase transcript in
  let quote := text segmentA ++ SPACE ++ text segmentB in
  segmentAt transcript i = Some segmentA →
  segmentAt transcript (i + 1) = Some segmentB →
  text segmentA ≠ [] → text segmentB ≠ [] →
  (∀ s, s < segmentOffset transcript i →
        ¬ occursAt (fullTextSpace index) quote s) →
  findTextInTranscript toLowerCase transcript quote index options =
  Some {| found := true; startSegmentIdx := i; endSegmentIdx := i + 1;
          startCharOffset := 0; endCharOffset := len (text segmentB);
          matchStrategy := Exact; similarity := 1; confidence := 1 |}.
Proof.
  intros index quote HA HB Ha Hb Hfirst.
  destruct (segmentAt_split _ _ _ _ HA HB) as (pre & post & Ht & Hpre & Htake).
  unfold segmentOffset in Hfirst. rewrite Htake in Hfirst.
  destruct (fullText_adjacent pre post segmentA segmentB) as (P & S & Hfull & HP).
  assert (Hocc : occursAt (fullTextSpace index) quote (spanLen pre)).
  { unfold index. rewrite fullTextSpace_buildTranscriptIndex, Ht, Hfull, <- HP.
    apply occursAt_middle. }
  assert (Hbm : boyerMooreSearch (fullTextSpace index) quote = spanLen pre).
  { destruct (boyerMooreSearch_spec (fullTextSpace index) quote)
      as [[_ Hno] | [Ho Hleft]].
    - destruct (Hno _ Hocc).
    - destruct (Z.lt_trichotomy (boyerMooreSearch (fullTextSpace index) quote)
                  (spanLen pre)) as [Hlt | [Heq | Hgt]].
      + destruct (Hfirst _ Hlt Ho).
      + exact Heq.
      + destruct (Hleft _ Hgt Hocc). }
  unfold findTextInTranscript, exactStage. rewrite Hbm.
  pose proof (spanLen_nonneg pre) as Hn.
  destruct (Z.eqb_spec (spanLen pre) (-1)); [lia|]. simpl.
  unfold mapMatchToSegments. unfold index.
  rewrite boundaries_buildTranscriptIndex, Ht.
  assert (Hquote : 0 < len quote).
  { unfold quote. rewrite !len_app. change (len SPACE) with 1.
    pose proof (len_nonneg (text segmentA)). pose proof (len_nonneg (text segmentB)).
    lia. }
  destruct (mapMatchLoop_skip (spanLen pre) (spanLen pre + len quote)
              pre (segmentA :: segmentB :: post) 0 0 (-1) 0)
    as (es' & eo' & ->); [lia | lia |].
  rewrite !Z.add_0_l. unfold quote.
  rewrite mapMatchLoop_adjacent by assumption.
  unfold spanIfFound. simpl.
  pose proof (len_nonneg pre).
  destruct (Z.eqb_spec (len pre) (-1)); [lia|].
  destruct (Z.eqb_spec (len pre + 1) (-1)); [lia|]. simpl.
  unfold withStrategy. simpl. rewrite Hpre. reflexivity.
Qed.

Lemma boundariesFrom_startPos (segs : list TranscriptSegment) (idx pos : Z)
    (k : nat) (b : SegmentBoundary) :
  boundariesFrom toLowerCase idx pos segs !! k = Some b →
  startPos b = pos + spanLen (take k segs).
Proof.
  revert idx pos k. induction segs as [|s rest IH]; intros idx pos k; simpl.
  - rewrite lookup_nil. discriminate.
  - destruct k as [|k]; simpl.
    + intros [= <-]. simpl. lia.
    + intros H. apply IH in H. lia.
Qed.

(** [segmentOffset] is the [startPos] of the boundary record. *)
Lemma segmentOffset_startPos (transcript : list TranscriptSegment) (i : Z)
    (b : SegmentBoundary) :
  segmentBoundaries (buildTranscriptIndex toLowerCase transcript)
    !! Z.to_nat i = Some b →
  startPos b = segmentOffset transcript i.
Proof.
  rewrite boundaries_buildTranscriptIndex. intros H.
  apply boundariesFrom_startPos in H. unfold segmentOffset. lia.
Qed.

End Adjacent.

(** C7 as stated fails when the joined text occurs earlier: for segments 1
    and 2 of three equal segments the exact stage answers segments 0 and
    1. *)
Lemma adjacent_segments_counterexample :
  segmentAt echo 1 = Some (seg "a" 1 1) ∧
  segmentAt echo 2 = Some (seg "a" 2 1) ∧
  ∃ m, findTextInTranscript asciiLower echo
         (text (seg "a" 1 1) ++ SPACE ++ text (seg "a" 2 1))
         (buildTranscriptIndex asciiLower echo) defaultOptions = Some m ∧
       startSegmentIdx m ≠ 1 ∧ endSegmentIdx m ≠ 2.
Proof.
  split; [reflexivity|]. split; [reflexivity|].
  eexists. split; [vm_compute; reflexivity|]. simpl. split; discriminate.
Qed.

Lemma adjacent_segments_exact_witness :
  findTextInTranscript asciiLower scenarioA
    (js "Welcome to the show. Today we discuss AI.")
    (buildTranscriptIndex asciiLower scenarioA) defaultOptions =
  Some {| found := true; startSegmentIdx := 0; endSegmentIdx := 1;
          startCharOffset := 0; endCharOffset := 20;
          matchStrategy := Exact; similarity := 1; confidence := 1 |}.
Proof.
  apply (adjacent_segments_exact asciiLower scenarioA 0
           (seg "Welcome to the show." 0 5) (seg "Today we discuss AI." 5 4)
           defaultOptions).
  - reflexivity.
  - reflexivity.
  - discriminate.
  - discriminate.
  - intros s Hs [Hs' _]. change (segmentOffset scenarioA 0) with 0 in Hs. lia.
Defined.

(** ** Concrete runs of the orchestrator *)






Lemma findExactQuote_resolves_witness :
  ∃ r, findExactQuote asciiLower parseTimestampRangeModel lecture lectureQuote
         (buildTranscriptIndex asciiLower lecture) = Normal (Some r) ∧
    ∀ firstSegment lastSegment,
      head (overlapping 10 20 lecture) = Some firstSegment →
      last (overlapping 10 20 lecture) = Some lastSegment →
      findTextInTranscript asciiLower lecture (trim (quoteText lectureQuote))
        (buildTranscriptIndex asciiLower lecture) globalOptions = None →
      (∀ m, findTextInTranscript asciiLower lecture (trim (quoteText lectureQuote))
              (buildTranscriptIndex asciiLower lecture)
              (rangeOptions firstSegment.1 lastSegment.1) = Some m →
            lastSegment.1 + 2 < startSegmentIdx m) →
      rText r = joinWithSpace (map (λ s, text s.2) (overlapping 10 20 lecture)) ∧
      rStartSegmentIdx r = firstSegment.1 ∧
      rEndSegmentIdx r = lastSegment.1 ∧
      rStartCharOffset r = 0 ∧
      rEndCharOffset r = len (text lastSegment.2) ∧
      rConfidence r = (5 # 10)%Q ∧
      hasCompleteSentences r = false.
Proof.
  apply (proj2 (findExactQuote_resolves asciiLower parseTimestampRangeModel
                  lecture lectureQuote 10 20)).
  - discriminate.
  - vm_compute. reflexivity.
  - vm_compute. discriminate.
  - exists 2, (seg "we start with thermodynamics" 10 5).
    split; [reflexivity|]. split; vm_compute; discriminate.
Defined.

(** The fallback of the witness, computed: the verbatim texts of segments 1
    to 4, which all touch the range from 10 s to 20 s. *)
Example lecture_fallback :
  findExactQuote asciiLower parseTimestampRangeModel lecture lectureQuote
    (buildTranscriptIndex asciiLower lecture) =
  Normal (Some
    {| rStart := 5; rEnd := 20 + 5;
       rText := js "please take a seat we start with thermodynamics heat flows from hot to cold that is the second law";
       rStartSegmentIdx := 1; rEndSegmentIdx := 4;
       rStartCharOffset := 0; rEndCharOffset := 22;
       hasCompleteSentences := false; rConfidence := (5 # 10)%Q |}).
Proof. vm_compute. reflexivity. Qed.

(** C1 as stated fails for a quote whose text is blank: its range parses
    and overlaps segment 0, and the result is [null]. *)
Lemma findExactQuote_blank_counterexample :
  parseTimestampRangeModel (quoteTimestamp blankQuote) = Some (0%Q, 5%Q) ∧
  (∃ i segment, segmentAt scenarioA i = Some segment ∧ overlaps 0 5 segment) ∧
  findExactQuote asciiLower parseTimestampRangeModel scenarioA blankQuote
    (buildTranscriptIndex asciiLower scenarioA) = Normal None.
Proof.
  split; [vm_compute; reflexivity|]. split.
  - exists 0, (seg "Welcome to the show." 0 5). split; [reflexivity|].
    split; vm_compute; discriminate.
  - vm_compute. reflexivity.
Qed.

(** ** Shape of the normalised texts *)

Lemma spaced_weaken (s : jsstring) : spaced true s → spaced false s.
Proof.
  destruct s as [|c t]; simpl; [auto|].
  destruct (isWhitespace c); [|auto]. intros (_ & H & _). discriminate.
Qed.

Lemma spaced_startsClean (s : jsstring) : spaced true s → startsClean s.
Proof.
  destruct s as [|c t]; intros H d; simpl; [discriminate|].
  intros [= <-]. simpl in H. destruct (isWhitespace c); [|reflexivity].
  destruct H as (_ & H & _). discriminate.
Qed.

Lemma spaced_app_l (p : bool) (s1 s2 : jsstring) :
  spaced p (s1 ++ s2) → spaced p s1.
Proof.
  revert p. induction s1 as [|c t IH]; intros p; simpl; [auto|].
  destruct (isWhitespace c).
  - intros (H1 & H2 & H3). eauto.
  - apply IH.
Qed.

Lemma replaceRunsFrom_spaced (inRun : bool) (s : jsstring) :
  spaced inRun (replaceRunsFrom isWhitespace SPACE inRun s).
Proof.
  revert inRun. induction s as [|c t IH]; intros inRun; simpl; [exact I|].
  destruct (isWhitespace c) eqn:Hc.
  - destruct inRun; [apply IH|]. simpl. repeat split. apply IH.
  - simpl. rewrite Hc. apply IH.
Qed.

(** [trimStart] removes a prefix made of whitespace and stops at a
    character that is not whitespace. *)
Lemma trimStart_spec (s : jsstring) :
  ∃ w, s = w ++ trimStart s ∧ Forall (λ c, isWhitespace c = true) w ∧
       startsClean (trimStart s).
Proof.
  induction s as [|c t (w & Hw & Hall & Hclean)]; simpl.
  - exists []. repeat split; [constructor | intros c; discriminate].
  - destruct (isWhitespace c) eqn:Hc.
    + exists (c :: w). simpl. rewrite <- Hw. repeat split; [|exact Hclean].
      constructor; assumption.
    + exists []. repeat split; [constructor|]. intros d [= <-]. exact Hc.
Qed.

Lemma trimStart_id (s : jsstring) : startsClean s → trimStart s = s.
Proof.
  destruct s as [|c t]; [reflexivity|]. intros H. simpl.
  rewrite (H c eq_refl). reflexivity.
Qed.

Lemma last_rev_head {A} (l : list A) : last (rev l) = head l.
Proof.
  destruct l as [|x l]; [reflexivity|]. simpl. rewrite last_snoc. reflexivity.
Qed.

Lemma head_rev_last {A} (l : list A) : head (rev l) = last l.
Proof. rewrite <- (rev_involutive l) at 2. symmetry. apply last_rev_head. Qed.

Lemma trimEnd_spec (s : jsstring) :
  ∃ w, s = trimEnd s ++ w ∧ Forall (λ c, isWhitespace c = true) w ∧
       endsClean (trimEnd s).
Proof.
  unfold trimEnd. destruct (trimStart_spec (rev s)) as (w & Hw & Hall & Hclean).
  exists (rev w). repeat split.
  - rewrite <- rev_app_distr, <- Hw, rev_involutive. reflexivity.
  - apply Forall_rev. exact Hall.
  - intros c. rewrite last_rev_head. apply Hclean.
Qed.

Lemma trimEnd_id (s : jsstring) : endsClean s → trimEnd s = s.
Proof.
  intros H. unfold trimEnd. rewrite trimStart_id; [apply rev_involutive|].
  intros c. rewrite head_rev_last. apply H.
Qed.

Lemma spaced_trimStart (s : jsstring) : spaced false s → spaced true (trimStart s).
Proof.
  destruct s as [|c t]; simpl; [auto|].
  destruct (isWhitespace c) eqn:Hc.
  - intros (_ & _ & H). rewrite trimStart_id; [exact H|].
    apply spaced_startsClean, H.
  - intros H. simpl. rewrite Hc. exact H.
Qed.

Lemma trim_tidy (s : jsstring) : spaced false s → tidy (trim s).
Proof.
  intros H. unfold trim.
  destruct (trimEnd_spec (trimStart s)) as (w & Hw & _ & Hclean).
  split; [|exact Hclean].
  apply spaced_trimStart in H. rewrite Hw in H. exact (spaced_app_l _ _ _ H).
Qed.

Lemma trim_id (s : jsstring) : tidy s → trim s = s.
Proof.
  intros [Hs He]. unfold trim.
  rewrite (trimStart_id s) by (apply spaced_startsClean, Hs).
  apply trimEnd_id, He.
Qed.

Lemma replaceRunsFrom_id (p : N → bool) (r : jsstring) (inRun : bool) (s : jsstring) :
  Forall (λ c, p c = false) s → replaceRunsFrom p r inRun s = s.
Proof.
  revert inRun. induction s as [|c t IH]; intros inRun H; [reflexivity|].
  inversion H as [|? ? Hc Ht]; subst. simpl. rewrite Hc, IH by exact Ht. reflexivity.
Qed.

Lemma collapse_spaced (prev : bool) (s : jsstring) :
  spaced prev s → replaceRunsFrom isWhitespace SPACE prev s = s.
Proof.
  revert prev. induction s as [|c t IH]; intros prev; simpl; [reflexivity|].
  destruct (isWhitespace c).
  - intros (-> & -> & H). rewrite (IH true H). reflexivity.
  - intros H. rewrite (IH false H). reflexivity.
Qed.

Lemma spaced_no_lineBreak (prev : bool) (s : jsstring) :
  spaced prev s → Forall (λ c, isLineBreak c = false) s.
Proof.
  revert prev. induction s as [|c t IH]; intros prev; simpl; [constructor|].
  destruct (isWhitespace c) eqn:Hc.
  - intros (-> & _ & H). constructor; [reflexivity | eauto].
  - intros H. constructor; [|eauto].
    unfold isLineBreak. unfold isWhitespace in Hc.
    destruct (N.eqb_spec c 13) as [-> | ?]; [discriminate|].
    destruct (N.eqb_spec c 10) as [-> | ?]; [discriminate|]. reflexivity.
Qed.

Lemma spaced_lookup (prev : bool) (s : jsstring) (i : nat) (c : N) :
  spaced prev s → s !! i = Some c → isWhitespace c = true →
  c = 32%N ∧ ∀ d, s !! S i = Some d → isWhitespace d = false.
Proof.
  revert prev i. induction s as [|x t IH]; intros prev i Hs Hi Hc; [discriminate|].
  destruct i as [|i]; simpl in Hi.
  - injection Hi as ->. simpl in Hs. rewrite Hc in Hs.
    destruct Hs as (-> & _ & Ht). split; [reflexivity|].
    intros d Hd. apply (spaced_startsClean t Ht). destruct t; [discriminate|].
    simpl in *. exact Hd.
  - simpl in Hs. destruct (isWhitespace x).
    + destruct Hs as (_ & _ & Ht). exact (IH true i Ht Hi Hc).
    + exact (IH false i Hs Hi Hc).
Qed.

Lemma tidy_lookup (s : jsstring) (i : nat) (c : N) :
  tidy s → s !! i = Some c → isWhitespace c = true →
  c = 32%N ∧ ∃ d, s !! S i = Some d ∧ isWhitespace d = false.
Proof.
  intros [Hs He] Hi Hc. destruct (spaced_lookup _ _ _ _ Hs Hi Hc) as [-> Hnext].
  split; [reflexivity|].
  destruct (s !! S i) as [d|] eqn:Hd; [eauto|].
  exfalso. apply lookup_ge_None in Hd. apply lookup_lt_Some in Hi as Hlt.
  assert (Hlast : last s = Some 32%N).
  { rewrite last_lookup. rewrite <- Hi. f_equal. lia. }
  specialize (He _ Hlast). discriminate.
Qed.

(** X1. The result of [normalizeWhitespace] neither starts nor ends with
    whitespace, and each of its whitespace characters is a single U+0020
    followed by a character that is not whitespace: line breaks, tabs and
    runs of blanks are gone. *)
Theorem normalizeWhitespace_shape (text : jsstring) :
  let r := normalizeWhitespace text in
  (∀ c, head r = Some c → isWhitespace c = false) ∧
  (∀ c, last r = Some c → isWhitespace c = false) ∧
  (∀ i c, r !! i = Some c → isWhitespace c = true →
          c = 32%N ∧ ∃ d, r !! S i = Some d ∧ isWhitespace d = false).
Proof.
  intros r. assert (Ht : tidy r) by (apply trim_tidy, replaceRunsFrom_spaced).
  split; [apply spaced_startsClean, Ht|]. split; [apply Ht|].
  intros i c. apply tidy_lookup, Ht.
Qed.

(** X2. [normalizeWhitespace] is idempotent: normalising a normalised text
    changes nothing, so the keys built from it are stable. *)
Theorem normalizeWhitespace_idempotent (text : jsstring) :
  normalizeWhitespace (normalizeWhitespace text) = normalizeWhitespace text.
Proof.
  assert (Ht : tidy (normalizeWhitespace text))
    by (apply trim_tidy, replaceRunsFrom_spaced).
  set (s := normalizeWhitespace text) in *.
  unfold normalizeWhitespace at 1. unfold replaceRuns.
  rewrite (replaceRunsFrom_id isLineBreak)
    by (apply (spaced_no_lineBreak true), Ht).
  rewrite collapse_spaced by (apply spaced_weaken, Ht).
  apply trim_id, Ht.
Qed.

Lemma replaceRunsFrom_Forall (P : N → Prop) (p : N → bool) (r : jsstring)
    (inRun : bool) (s : jsstring) :
  Forall P r → Forall P s → Forall P (replaceRunsFrom p r inRun s).
Proof.
  intros Hr. revert inRun. induction s as [|c t IH]; intros inRun Hs; simpl;
    [constructor|].
  inversion Hs as [|? ? Hc Ht]; subst.
  destruct (p c).
  - destruct inRun; [eauto|]. apply Forall_app. eauto.
  - constructor; eauto.
Qed.

Lemma trim_Forall (P : N → Prop) (s : jsstring) : Forall P s → Forall P (trim s).
Proof.
  intros H. unfold trim.
  destruct (trimStart_spec s) as (w & Hw & _ & _).
  destruct (trimEnd_spec (trimStart s)) as (w' & Hw' & _ & _).
  rewrite Hw in H. apply Forall_app in H as [_ H].
  rewrite Hw' in H. apply Forall_app in H as [H _]. exact H.
Qed.

(** X3. Whatever [toLowerCase] does, the result of [normalizeForMatching]
    holds none of the stripped punctuation characters, neither starts nor
    ends with whitespace, and each of its whitespace characters is a single
    U+0020 followed by a character that is not whitespace. *)
Theorem normalizeForMatching_shape (toLowerCase : jsstring → jsstring)
    (text : jsstring) :
  let r := normalizeForMatching toLowerCase text in
  (∀ c, c ∈ r → isStrippedPunctuation c = false) ∧
  (∀ c, head r = Some c → isWhitespace c = false) ∧
  (∀ c, last r = Some c → isWhitespace c = false) ∧
  (∀ i c, r !! i = Some c → isWhitespace c = true →
          c = 32%N ∧ ∃ d, r !! S i = Some d ∧ isWhitespace d = false).
Proof.
  intros r. assert (Ht : tidy r) by (apply trim_tidy, replaceRunsFrom_spaced).
  split.
  - apply Forall_forall. unfold r, normalizeForMatching.
    apply trim_Forall, replaceRunsFrom_Forall.
    + repeat constructor.
    + unfold removeChars. apply Forall_forall. intros c Hc.
      apply list_elem_of_filter in Hc as [Hc _]. exact Hc.
  - split; [apply spaced_startsClean, Ht|]. split; [apply Ht|].
    intros i c. apply tidy_lookup, Ht.
Qed.

(** ** Range of the similarity and of the scores *)

Lemma ratio_bounds (i u : nat) :
  (i <= u)%nat → (0 < u)%nat →
  (0 <= inject_Z (Z.of_nat i) / inject_Z (Z.of_nat u))%Q ∧
  (inject_Z (Z.of_nat i) / inject_Z (Z.of_nat u) <= 1)%Q.
Proof.
  intros Hi Hu.
  assert (Hpos : (0 < inject_Z (Z.of_nat u))%Q).
  { change 0%Q with (inject_Z 0). rewrite <- Zlt_Qlt. lia. }
  split.
  - apply Qle_shift_div_l; [exact Hpos|]. rewrite Qmult_0_l.
    change 0%Q with (inject_Z 0). rewrite <- Zle_Qle. lia.
  - apply Qle_shift_div_r; [exact Hpos|]. rewrite Qmult_1_l.
    rewrite <- Zle_Qle. lia.
Qed.

Lemma countShared_le_l (s1 s2 : gset jsstring) : (countShared s1 s2 <= size s1)%nat.
Proof.
  rewrite countShared_size. apply subseteq_size. apply intersection_subseteq_l.
Qed.

Lemma countShared_le_r (s1 s2 : gset jsstring) : (countShared s1 s2 <= size s2)%nat.
Proof.
  rewrite countShared_size. apply subseteq_size. apply intersection_subseteq_r.
Qed.

Lemma calculateNgramSimilarity_bounds (str1 str2 : jsstring) :
  (0 <= calculateNgramSimilarity str1 str2)%Q ∧
  (calculateNgramSimilarity str1 str2 <= 1)%Q.
Proof.
  unfold calculateNgramSimilarity.
  destruct (_ || _); [split; discriminate|].
  set (n1 := ngramsOf _). set (n2 := ngramsOf _).
  destruct (Nat.eqb_spec (size n1) 0) as [H1 | H1]; simpl.
  - destruct (_ || _); split; discriminate.
  - destruct (Nat.eqb_spec (size n2) 0) as [H2 | H2]; simpl.
    + destruct (_ || _); split; discriminate.
    + pose proof (countShared_le_l n1 n2). pose proof (countShared_le_r n1 n2).
      apply ratio_bounds; lia.
Qed.

(** X4. The similarity is a number between 0 and 1. *)
Theorem calculateNgramSimilarity_range (str1 str2 : jsstring) :
  (0 <= calculateNgramSimilarity str1 str2)%Q ∧
  (calculateNgramSimilarity str1 str2 <= 1)%Q.
Proof. apply calculateNgramSimilarity_bounds. Qed.

(** X5. Two non-empty strings that are equal once their whitespace is
    stripped, and are then at least 3 characters long, have similarity 1; in
    particular every such string has similarity 1 with itself. *)
Theorem calculateNgramSimilarity_same_text (str1 str2 : jsstring) :
  str1 ≠ [] → str2 ≠ [] →
  replaceRuns isWhitespace [] str1 = replaceRuns isWhitespace [] str2 →
  3 <= len (replaceRuns isWhitespace [] str1) →
  (calculateNgramSimilarity str1 str2 == 1)%Q.
Proof.
  intros H1 H2 Heq Hlen. unfold calculateNgramSimilarity.
  assert ((len str1 =? 0) = false) as ->
    by (destruct str1; [congruence | reflexivity]).
  assert ((len str2 =? 0) = false) as ->
    by (destruct str2; [congruence | reflexivity]).
  simpl. rewrite <- Heq.
  set (n := ngramsOf (replaceRuns isWhitespace [] str1)).
  assert (Hn : size n ≠ 0%nat).
  { intros H0. apply ngramsOf_size_0 in H0. lia. }
  destruct (Nat.eqb_spec (size n) 0) as [? | _]; [contradiction|]. simpl.
  assert (Hc : countShared n n = size n).
  { rewrite countShared_size. f_equal. apply (idemp_L (∩)). }
  rewrite Hc. replace (size n + size n - size n)%nat with (size n) by lia.
  unfold Qdiv. apply Qmult_inv_r.
  change 0%Q with (inject_Z 0). rewrite inject_Z_injective. lia.
Qed.

Lemma calculateNgramSimilarity_same_text_witness :
  (calculateNgramSimilarity (js "to be or not") (js "tobe ornot") == 1)%Q.
Proof.
  apply calculateNgramSimilarity_same_text.
  - discriminate.
  - discriminate.
  - vm_compute. reflexivity.
  - vm_compute. discriminate.
Defined.

Section Scores.

Variable toLowerCase : jsstring → jsstring.

Lemma growWindow_scores (targetText : jsstring) (minSim : Q)
    (windowStart score nWords : Z) (segs : list TranscriptSegment) (i : Z)
    (combinedText : jsstring) (m : MatchResult) :
  growWindow toLowerCase targetText minSim windowStart score nWords segs i
    combinedText = Some m →
  found m = true ∧
  (minSim <= similarity m)%Q ∧
  (∃ window, similarity m =
     calculateNgramSimilarity (normalizeForMatching toLowerCase targetText)
       (normalizeForMatching toLowerCase window)) ∧
  confidence m = qmin 1 (inject_Z score / inject_Z nWords).
Proof.
  revert i combinedText.
  induction segs as [|segment rest IH]; intros i combinedText; simpl; [discriminate|].
  destruct (Qle_bool minSim _) eqn:Hq.
  - intros [= <-]. simpl. apply Qle_bool_iff in Hq. eauto.
  - apply IH.
Qed.

Lemma scoreGet_elem_of (k v : Z) (scores : list (Z * Z)) :
  scoreGet k scores = Some v → (k, v) ∈ scores.
Proof.
  induction scores as [|[k0 w] scores IH]; simpl; [discriminate|].
  destruct (Z.eqb_spec k0 k) as [-> | Hne].
  - intros [= ->]. left.
  - intros H. right. auto.
Qed.

Lemma elem_of_scoreSet_value (k v : Z) (scores : list (Z * Z)) (x : Z * Z) :
  x ∈ scoreSet k v scores → x = (k, v) ∨ x ∈ scores.
Proof.
  induction scores as [|[k0 w] scores IH]; simpl.
  - intros H. apply list_elem_of_singleton in H. left. exact H.
  - destruct (Z.eqb_spec k0 k) as [-> | Hne]; intros H;
      apply elem_of_cons in H as [-> | H].
    + left. reflexivity.
    + right. right. exact H.
    + right. left.
    + destruct (IH H) as [? | ?]; [left | right; right]; assumption.
Qed.

Lemma tallyVotes_values (wi : gmap jsstring (list Z)) (startIdx : Z)
    (targetWords : list jsstring) (k v : Z) :
  (k, v) ∈ tallyVotes wi startIdx targetWords → 0 < v.
Proof.
  unfold tallyVotes.
  assert (Hfold : ∀ scores, (∀ k v, (k, v) ∈ scores → 0 < v) →
            ∀ k v, (k, v) ∈ foldl (voteWord wi startIdx) scores targetWords → 0 < v).
  { induction targetWords as [|w ws IH]; intros scores Hk; simpl; [exact Hk|].
    apply IH. unfold voteWord. clear IH. revert scores Hk.
    induction (postings wi w) as [|s l IHl]; intros scores Hk; simpl; [exact Hk|].
    apply IHl. unfold voteFor. destruct (Z.leb_spec startIdx s); [|exact Hk].
    intros k' v' Hin. apply elem_of_scoreSet_value in Hin as [[= -> ->] | Hin].
    - destruct (scoreGet s scores) as [w0|] eqn:Hget; simpl; [|lia].
      apply scoreGet_elem_of, Hk in Hget. lia.
    - exact (Hk k' v' Hin). }
  apply Hfold. intros k' v' Hin. inversion Hin.
Qed.

Lemma fuzzyStage_candidate (transcript : list TranscriptSegment)
    (targetText : jsstring) (index : TranscriptIndex) (options : MatchOptions)
    (m : MatchResult) :
  fuzzyStage toLowerCase transcript targetText index options = Some m →
  0 < len (wordsOf toLowerCase targetText) ∧
  ∃ candidateIdx score,
    (candidateIdx, score) ∈
      tallyVotes (wordIndex index) (startIdx options) (wordsOf toLowerCase targetText) ∧
    tryCandidate toLowerCase transcript targetText options
      (len (wordsOf toLowerCase targetText)) (candidateIdx, score) = Some m.
Proof.
  unfold fuzzyStage.
  destruct (Z.ltb_spec 0 (len (wordsOf toLowerCase targetText))) as [Hn | Hn];
    [|discriminate].
  intros H. split; [exact Hn|].
  apply tryCandidates_spec in H as ([c score] & Hin & Hc).
  exists c, score. split; [|exact Hc].
  apply elem_of_take in Hin as (i & Hin & _).
  apply list_elem_of_lookup_2, elem_of_sortByScore in Hin. exact Hin.
Qed.

Lemma qmin_bounds (x : Q) : (0 < x)%Q → (0 < qmin 1 x)%Q ∧ (qmin 1 x <= 1)%Q.
Proof.
  intros Hx. unfold qmin. destruct (Qle_bool 1 x) eqn:Hq.
  - split; [reflexivity | apply Qle_refl].
  - split; [exact Hx|].
    destruct (Qlt_le_dec x 1) as [Hlt | Hle]; [apply Qlt_le_weak, Hlt|].
    apply Qle_bool_iff in Hle. congruence.
Qed.

(** X6. The scores of a match. *)
Theorem findTextInTranscript_scores (transcript : list TranscriptSegment)
    (targetText : jsstring) (index : TranscriptIndex) (options : MatchOptions)
    (m : MatchResult) :
  findTextInTranscript toLowerCase transcript targetText index options = Some m →
  found m = true ∧
  (0 <= similarity m)%Q ∧ (similarity m <= 1)%Q ∧
  (0 < confidence m)%Q ∧ (confidence m <= 1)%Q ∧
  match matchStrategy m with
  | Exact => similarity m = 1%Q ∧ confidence m = 1%Q
  | Normalized => similarity m = (95 # 100)%Q ∧ confidence m = (95 # 100)%Q
  | FuzzyNgram => (minSimilarity options <= similarity m)%Q
  end.
Proof.
  intros H.
  apply findTextInTranscript_cases in H as [H | [[_ H] | (_ & _ & H)]].
  - unfold exactStage in H. destruct (negb _); [|discriminate].
    destruct (mapMatchToSegments _ _ _); [|discriminate].
    injection H as <-. simpl. repeat split; discriminate.
  - unfold normalizedStage in H. destruct (negb _); [|discriminate].
    destruct (mapNormalizedMatchToSegments _ _ _); [|discriminate].
    injection H as <-. simpl. repeat split; discriminate.
  - apply fuzzyStage_candidate in H as (Hn & c & score & Hin & H).
    pose proof (tryCandidate_spec _ _ _ _ _ _ _ _ H) as (_ & _ & Hst & _).
    unfold tryCandidate in H.
    apply growWindow_scores in H as (Hf & Hmin & [w Hsim] & Hconf).
    apply tallyVotes_values in Hin.
    destruct (calculateNgramSimilarity_bounds
                (normalizeForMatching toLowerCase targetText)
                (normalizeForMatching toLowerCase w)) as [H0 H1].
    rewrite <- Hsim in H0, H1.
    assert (Hratio : (0 < inject_Z score /
                          inject_Z (len (wordsOf toLowerCase targetText)))%Q).
    { apply Qlt_shift_div_l.
      - change 0%Q with (inject_Z 0). rewrite <- Zlt_Qlt. exact Hn.
      - rewrite Qmult_0_l. change 0%Q with (inject_Z 0). rewrite <- Zlt_Qlt. exact Hin. }
    destruct (qmin_bounds _ Hratio) as [Hc0 Hc1]. rewrite <- Hconf in Hc0, Hc1.
    rewrite Hst. repeat split; assumption.
Qed.

End Scores.

Lemma findTextInTranscript_scores_witness :
  found foxMatch = true ∧
  (0 <= similarity foxMatch)%Q ∧ (similarity foxMatch <= 1)%Q ∧
  (0 < confidence foxMatch)%Q ∧ (confidence foxMatch <= 1)%Q ∧
  (minSimilarity narrowOptions <= similarity foxMatch)%Q.
Proof.
  apply (findTextInTranscript_scores asciiLower fox
           (js "the quick brown fox jumped high")
           (buildTranscriptIndex asciiLower fox) narrowOptions foxMatch).
  vm_compute. reflexivity.
Defined.

(** ** Exact matches in the coordinates of the full text *)

Lemma spanLen_app (l1 l2 : list TranscriptSegment) :
  spanLen (l1 ++ l2) = spanLen l1 + spanLen l2.
Proof. induction l1 as [|s l IH]; simpl; lia. Qed.

Lemma segmentOffset_app (pre post : list TranscriptSegment) :
  segmentOffset (pre ++ post) (len pre) = spanLen pre.
Proof.
  unfold segmentOffset, len. rewrite Nat2Z.id, take_app_length. reflexivity.
Qed.

Lemma len_concat_spaced (l : list TranscriptSegment) :
  len (concat (map (λ y, SPACE ++ y) (map text l))) = spanLen l.
Proof.
  induction l as [|s l IH]; [reflexivity|].
  change (concat (map (λ y, SPACE ++ y) (map text (s :: l))))
    with ((SPACE ++ text s) ++ concat (map (λ y, SPACE ++ y) (map text l))).
  rewrite !len_app, IH. change (len SPACE) with 1. simpl spanLen. lia.
Qed.

(** The full text around one segment: [P] is what precedes its text, [S]
    what follows; a segment that is not the last is followed by a space. *)
Lemma fullText_at (pre post : list TranscriptSegment) (a : TranscriptSegment) :
  ∃ P S, joinWithSpace (map text (pre ++ a :: post)) = P ++ text a ++ S ∧
         len P = spanLen pre ∧ len S = Z.max 0 (spanLen post) ∧
         (post ≠ [] → head S = Some 32%N).
Proof.
  assert (Htail : len (concat (map (λ y, SPACE ++ y) (map text post)))
                  = Z.max 0 (spanLen post) ∧
                  (post ≠ [] → head (concat (map (λ y, SPACE ++ y) (map text post)))
                               = Some 32%N)).
  { rewrite len_concat_spaced. pose proof (spanLen_nonneg post). split; [lia|].
    destruct post; [congruence | reflexivity]. }
  destruct Htail as [HlenS HheadS].
  destruct pre as [|p pre].
  - exists [], (concat (map (λ y, SPACE ++ y) (map text post))).
    split; [|split; [reflexivity | split; assumption]].
    simpl app. simpl map. rewrite joinWithSpace_cons. reflexivity.
  - exists (text p ++ concat (map (λ y, SPACE ++ y) (map text pre)) ++ SPACE),
           (concat (map (λ y, SPACE ++ y) (map text post))).
    split; [|split; [|split; assumption]].
    + simpl app. simpl map. rewrite joinWithSpace_cons.
      rewrite map_app, map_app, concat_app. simpl.
      rewrite <- !app_assoc. reflexivity.
    + rewrite !len_app, len_concat_spaced. change (len SPACE) with 1.
      simpl spanLen. lia.
Qed.

Lemma fullText_len (toLowerCase : jsstring → jsstring)
    (transcript : list TranscriptSegment) :
  transcript ≠ [] →
  len (fullTextSpace (buildTranscriptIndex toLowerCase transcript))
  = spanLen transcript - 1.
Proof.
  intros Hne. rewrite fullTextSpace_buildTranscriptIndex.
  destruct transcript as [|s rest]; [congruence|].
  simpl map. rewrite joinWithSpace_cons, len_app, len_concat_spaced. simpl. lia.
Qed.

Section Coordinates.

Variable toLowerCase : jsstring → jsstring.

Lemma mapMatchLoop_coords (transcript : list TranscriptSegment)
    (matchStart matchEnd : Z) (segs pre : list TranscriptSegment)
    (ss es so eo : Z) :
  transcript = pre ++ segs → matchStart < matchEnd →
  matchEnd <= spanLen transcript - 1 →
  coordsInv transcript pre matchStart matchEnd ss es so eo →
  let r := mapMatchLoop matchStart matchEnd
             (boundariesFrom toLowerCase (len pre) (spanLen pre) segs) ss es so eo in
  spanStartSegmentIdx r ≠ -1 → spanEndSegmentIdx r ≠ -1 →
  segmentOffset transcript (spanStartSegmentIdx r) + spanStartCharOffset r
    = matchStart ∧
  segmentOffset transcript (spanEndSegmentIdx r) + spanEndCharOffset r
    <= matchEnd ∧
  matchEnd <= segmentOffset transcript (spanEndSegmentIdx r) + spanEndCharOffset r + 1.
Proof.
  revert pre ss es so eo.
  induction segs as [|segment rest IH]; intros pre ss es so eo Ht Hlt Hend Hinv.
  - simpl. intros Hss Hes. destruct Hinv as [[? | [_ Hs]] [? | (_ & He1 & He2)]];
      try contradiction.
    rewrite app_nil_r in Ht. subst pre.
    split; [exact Hs|]. split; [lia|]. destruct He2 as [? | [_ ?]]; lia.
  - assert (Ht' : transcript = (pre ++ [segment]) ++ rest)
      by (rewrite <- app_assoc; exact Ht).
    assert (Hlen' : len (pre ++ [segment]) = len pre + 1)
      by (rewrite len_app; reflexivity).
    assert (Hspan' : spanLen (pre ++ [segment]) = spanLen pre + len (text segment) + 1)
      by (rewrite spanLen_app; simpl; lia).
    assert (Hoff : segmentOffset transcript (len pre) = spanLen pre)
      by (rewrite Ht; apply segmentOffset_app).
    pose proof (len_nonneg pre) as Hpre.
    pose proof (len_nonneg (text segment)) as Htext.
    specialize (IH (pre ++ [segment])).
    rewrite Hlen', Hspan' in IH.
    destruct Hinv as [Hs He].
    simpl. set (pos := spanLen pre) in *.
    set (hit := (ss =? -1) && (pos <=? matchStart)
                && (matchStart <? pos + len (text segment))).
    assert (Hstart : (if hit then len pre else ss) = -1 ∨
              (0 <= (if hit then len pre else ss) ∧
               segmentOffset transcript (if hit then len pre else ss)
               + (if hit then matchStart - pos else so) = matchStart)).
    { destruct hit; [right; rewrite Hoff; lia | exact Hs]. }
    clearbody hit.
    destruct (Z.ltb_spec pos matchEnd) as [Hp | Hp];
      destruct (Z.leb_spec matchEnd (pos + len (text segment))) as [Hq | Hq];
      simpl.
    + intros Hss _. destruct Hstart as [? | [_ Hstart]]; [contradiction|].
      split; [exact Hstart|]. rewrite Hoff. lia.
    + destruct (Z.ltb_spec (pos + len (text segment)) matchEnd); [|lia].
      apply IH; [exact Ht' | exact Hlt | exact Hend |]. split; [exact Hstart|].
      right. rewrite Hoff. split; [lia|]. split; [lia|]. right. lia.
    + destruct (Z.ltb_spec (pos + len (text segment)) matchEnd); [lia|].
      apply IH; [exact Ht' | exact Hlt | exact Hend |]. split; [exact Hstart|].
      destruct He as [? | (He0 & He1 & He2)]; [left; assumption|].
      right. split; [exact He0|]. split; [exact He1|]. left.
      destruct He2 as [? | [_ ?]]; lia.
    + lia.
Qed.


(** The span given by the exact stage, read as positions of the full text. *)
Lemma exactStage_coordinates (transcript : list TranscriptSegment)
    (targetText : jsstring) (m : MatchResult) :
  let index := buildTranscriptIndex toLowerCase transcript in
  let p := segmentOffset transcript (startSegmentIdx m) + startCharOffset m in
  let e := segmentOffset transcript (endSegmentIdx m) + endCharOffset m in
  targetText ≠ [] →
  exactStage targetText index = Some m →
  occursAt (fullTextSpace index) targetText p ∧
  (∀ s, occursAt (fullTextSpace index) targetText s → p <= s) ∧
  e <= p + len targetText ∧ p + len targetText <= e + 1.
Proof.
  intros index p e Hne H.
  unfold exactStage in H. fold index in H.
  set (r := boyerMooreSearch (fullTextSpace index) targetText) in *.
  destruct (Z.eqb_spec r (-1)) as [Hr | Hr]; [discriminate|]. simpl in H.
  destruct (mapMatchToSegments r (len targetText) index) as [span|] eqn:Hspan;
    [|discriminate].
  injection H as <-. subst p e. simpl.
  destruct (boyerMooreSearch_spec (fullTextSpace index) targetText)
    as [[Hr' _] | [Ho Hleft]]; [contradiction|]. fold r in Ho, Hleft.
  assert (Hlen : 0 < len targetText).
  { destruct targetText; [congruence | unfold len; simpl; lia]. }
  unfold mapMatchToSegments in Hspan.
  apply spanIfFound_Some in Hspan as (-> & Hs & He).
  unfold index in Hs, He |- *.
  rewrite boundaries_buildTranscriptIndex in Hs, He |- *.
  assert (Htr : transcript ≠ []).
  { intros ->. simpl in Hs. congruence. }
  pose proof (fullText_len toLowerCase transcript Htr) as Hfull.
  destruct Ho as (Hr0 & Hr1 & Hr2). fold index in Hfull.
  destruct (mapMatchLoop_coords transcript r (r + len targetText) transcript []
              (-1) (-1) 0 0) as (Hp & He1 & He2);
    [reflexivity | lia | lia | split; left; reflexivity | exact Hs | exact He |].
  change (len (@nil TranscriptSegment)) with 0 in Hp, He1, He2.
  change (spanLen []) with 0 in Hp, He1, He2.
  rewrite Hp. split; [repeat split; assumption|]. split.
  - intros s Hs'. destruct (Z.le_gt_cases r s) as [? | Hgt]; [assumption|].
    destruct (Hleft s ltac:(lia) Hs').
  - lia.
Qed.

(** Where the loop of [mapMatchToSegments] leaves the end of the span:
    inside the text of a segment, at the end of the match, or at the end of
    the text of the last segment that ends before the end of the match. *)
Lemma mapMatchLoop_end (transcript : list TranscriptSegment)
    (matchStart matchEnd : Z) (segs pre : list TranscriptSegment)
    (ss es so eo : Z) :
  transcript = pre ++ segs →
  (es = -1 ∨
   ∃ segE, segmentAt transcript es = Some segE ∧ eo = len (text segE) ∧
           segmentOffset transcript es + eo < matchEnd) →
  let r := mapMatchLoop matchStart matchEnd
             (boundariesFrom toLowerCase (len pre) (spanLen pre) segs) ss es so eo in
  spanEndSegmentIdx r ≠ -1 →
  ∃ segE, segmentAt transcript (spanEndSegmentIdx r) = Some segE ∧
    ((0 < spanEndCharOffset r <= len (text segE) ∧
      segmentOffset transcript (spanEndSegmentIdx r) + spanEndCharOffset r
        = matchEnd) ∨
     (spanEndCharOffset r = len (text segE) ∧
      segmentOffset transcript (spanEndSegmentIdx r) + spanEndCharOffset r
        < matchEnd)).
Proof.
  revert pre ss es so eo.
  induction segs as [|segment rest IH]; intros pre ss es so eo Ht Hinv.
  - simpl. intros Hes. destruct Hinv as [? | (segE & Hat & Heo & Hlt)];
      [contradiction|].
    exists segE. split; [exact Hat|]. right. split; assumption.
  - assert (Ht' : transcript = (pre ++ [segment]) ++ rest)
      by (rewrite <- app_assoc; exact Ht).
    assert (Hlen' : len (pre ++ [segment]) = len pre + 1)
      by (rewrite len_app; reflexivity).
    assert (Hspan' : spanLen (pre ++ [segment]) = spanLen pre + len (text segment) + 1)
      by (rewrite spanLen_app; simpl; lia).
    assert (Hoff : segmentOffset transcript (len pre) = spanLen pre)
      by (rewrite Ht; apply segmentOffset_app).
    assert (Hat : segmentAt transcript (len pre) = Some segment)
      by (rewrite Ht; apply segmentAt_app_here).
    specialize (IH (pre ++ [segment])).
    rewrite Hlen', Hspan' in IH.
    simpl. set (pos := spanLen pre) in *.
    set (hit := (ss =? -1) && (pos <=? matchStart)
                && (matchStart <? pos + len (text segment))).
    clearbody hit.
    destruct (Z.ltb_spec pos matchEnd) as [Hp | Hp];
      destruct (Z.leb_spec matchEnd (pos + len (text segment))) as [Hq | Hq];
      simpl.
    + intros _. exists segment. split; [exact Hat|]. left. rewrite Hoff. lia.
    + destruct (Z.ltb_spec (pos + len (text segment)) matchEnd); [|lia].
      apply IH; [exact Ht'|]. right. exists segment.
      split; [exact Hat|]. split; [reflexivity|]. rewrite Hoff. lia.
    + destruct (Z.ltb_spec (pos + len (text segment)) matchEnd); [lia|].
      apply IH; [exact Ht' | exact Hinv].
    + destruct (Z.ltb_spec (pos + len (text segment)) matchEnd).
      * apply IH; [exact Ht'|]. right. exists segment.
        split; [exact Hat|]. split; [reflexivity|]. rewrite Hoff. lia.
      * apply IH; [exact Ht' | exact Hinv].
Qed.

(** The character of the full text that follows the text of a segment
    which is not the last is the joining space. *)
Lemma joining_space (transcript : list TranscriptSegment) (i : Z)
    (segment : TranscriptSegment) :
  segmentAt transcript i = Some segment →
  segmentOffset transcript i + len (text segment) + 1 <= spanLen transcript - 1 →
  i + 1 < len transcript ∧
  charAt (fullTextSpace (buildTranscriptIndex toLowerCase transcript))
    (segmentOffset transcript i + len (text segment)) = Some 32%N.
Proof.
  intros Hat Hroom. pose proof (segmentAt_Some _ _ _ Hat) as Hi.
  unfold segmentAt in Hat. destruct (Z.ltb_spec i 0); [lia|].
  pose proof (take_drop_middle _ _ _ Hat) as Hmid.
  unfold segmentOffset in *.
  set (pre := take (Z.to_nat i) transcript) in *.
  set (post := drop (S (Z.to_nat i)) transcript) in *.
  assert (Hspan : spanLen transcript = spanLen pre + len (text segment) + 1 + spanLen post).
  { rewrite <- Hmid, spanLen_app. simpl. lia. }
  assert (Hpost : post ≠ []).
  { intros Hnil. rewrite Hnil in Hspan. simpl in Hspan. lia. }
  split.
  - assert (Hl : (length post ≠ 0)%nat) by (destruct post; [congruence | discriminate]).
    unfold post in Hl. rewrite length_drop in Hl. unfold len. lia.
  - rewrite fullTextSpace_buildTranscriptIndex, <- Hmid.
    destruct (fullText_at pre post segment) as (P & Suf & -> & HP & _ & HS).
    specialize (HS Hpost). rewrite <- HP.
    pose proof (len_nonneg P). pose proof (len_nonneg (text segment)).
    rewrite charAt_Some by lia.
    replace (Z.to_nat (len P + len (text segment)))
      with (length P + (length (text segment) + 0))%nat by (unfold len; lia).
    rewrite lookup_app_r by lia.
    replace (length P + (length (text segment) + 0) - length P)%nat
      with (length (text segment) + 0)%nat by lia.
    rewrite lookup_app_r by lia.
    replace (length (text segment) + 0 - length (text segment))%nat with 0%nat by lia.
    destruct Suf; [discriminate | exact HS].
Qed.

(** The end of the span given by the exact stage. *)
Lemma exactStage_end (transcript : list TranscriptSegment)
    (targetText : jsstring) (m : MatchResult) :
  let index := buildTranscriptIndex toLowerCase transcript in
  let p := segmentOffset transcript (startSegmentIdx m) + startCharOffset m in
  let e := segmentOffset transcript (endSegmentIdx m) + endCharOffset m in
  targetText ≠ [] →
  exactStage targetText index = Some m →
  ∃ endSegment, segmentAt transcript (endSegmentIdx m) = Some endSegment ∧
    ((0 < endCharOffset m <= len (text endSegment) ∧ e = p + len targetText) ∨
     (endCharOffset m = len (text endSegment) ∧ e + 1 = p + len targetText ∧
      endSegmentIdx m + 1 < len transcript ∧
      charAt (fullTextSpace index) e = Some 32%N)).
Proof.
  intros index p e Hne H.
  unfold exactStage in H. fold index in H.
  set (r := boyerMooreSearch (fullTextSpace index) targetText) in *.
  destruct (Z.eqb_spec r (-1)) as [Hr | Hr]; [discriminate|]. simpl in H.
  destruct (mapMatchToSegments r (len targetText) index) as [span|] eqn:Hspan;
    [|discriminate].
  injection H as <-. subst p e. simpl.
  destruct (boyerMooreSearch_spec (fullTextSpace index) targetText)
    as [[Hr' _] | [Ho _]]; [contradiction|]. fold r in Ho.
  assert (Hlen : 0 < len targetText).
  { destruct targetText; [congruence | unfold len; simpl; lia]. }
  unfold mapMatchToSegments in Hspan.
  apply spanIfFound_Some in Hspan as (-> & Hs & He).
  unfold index in Hs, He |- *.
  rewrite boundaries_buildTranscriptIndex in Hs, He |- *.
  assert (Htr : transcript ≠ []).
  { intros ->. simpl in Hs. congruence. }
  pose proof (fullText_len toLowerCase transcript Htr) as Hfull.
  destruct Ho as (Hr0 & Hr1 & _). fold index in Hfull.
  destruct (mapMatchLoop_coords transcript r (r + len targetText)
              transcript [] (-1) (-1) 0 0) as (Hp & He1 & He2);
    [reflexivity | lia | lia | split; left; reflexivity | exact Hs | exact He |].
  destruct (mapMatchLoop_end transcript r (r + len targetText) transcript []
              (-1) (-1) 0 0 eq_refl (or_introl eq_refl) He)
    as (segE & Hat & Hcase).
  change (len (@nil TranscriptSegment)) with 0 in Hp, He1, He2, Hat, Hcase.
  change (spanLen []) with 0 in Hp, He1, He2, Hat, Hcase.
  exists segE. split; [exact Hat|]. rewrite Hp.
  destruct Hcase as [[Hpos Heq] | [Heo Hlt]].
  - left. split; [exact Hpos | exact Heq].
  - right. split; [exact Heo|]. split; [lia|].
    rewrite Heo. apply joining_space; [exact Hat|]. lia.
Qed.

Lemma exact_strategy_stage (transcript : list TranscriptSegment)
    (targetText : jsstring) (index : TranscriptIndex) (options : MatchOptions)
    (m : MatchResult) :
  findTextInTranscript toLowerCase transcript targetText index options = Some m →
  matchStrategy m = Exact → exactStage targetText index = Some m.
Proof.
  intros H Hst.
  apply findTextInTranscript_cases in H as [H | [[_ H] | (_ & _ & H)]];
    [exact H | |].
  - apply normalizedStage_strategy in H. congruence.
  - apply fuzzyStage_spec in H as (c & score & _ & H).
    apply tryCandidate_spec in H as (_ & _ & H & _). congruence.
Qed.

(** X7. An exact match lies on the first occurrence of the quote in the
    full text: its start, read as a position of the full text, is the least
    position where the quote occurs. Its end is the end of that occurrence
    when the occurrence ends inside the text of a segment; when the last
    character of the occurrence is the joining space that follows a segment,
    the match ends with the text of that segment, one position earlier. *)
Theorem exact_match_coordinates (transcript : list TranscriptSegment)
    (targetText : jsstring) (options : MatchOptions) (m : MatchResult) :
  let index := buildTranscriptIndex toLowerCase transcript in
  let p := segmentOffset transcript (startSegmentIdx m) + startCharOffset m in
  let e := segmentOffset transcript (endSegmentIdx m) + endCharOffset m in
  targetText ≠ [] →
  findTextInTranscript toLowerCase transcript targetText index options = Some m →
  matchStrategy m = Exact →
  occursAt (fullTextSpace index) targetText p ∧
  (∀ s, occursAt (fullTextSpace index) targetText s → p <= s) ∧
  ∃ endSegment, segmentAt transcript (endSegmentIdx m) = Some endSegment ∧
    ((0 < endCharOffset m <= len (text endSegment) ∧ e = p + len targetText) ∨
     (endCharOffset m = len (text endSegment) ∧ e + 1 = p + len targetText ∧
      endSegmentIdx m + 1 < len transcript ∧
      charAt (fullTextSpace index) e = Some 32%N)).
Proof.
  intros index p e Hne H Hst.
  pose proof (exact_strategy_stage _ _ _ _ _ H Hst) as Hstage.
  destruct (exactStage_coordinates transcript targetText m Hne Hstage)
    as (Hocc & Hleft & _).
  split; [exact Hocc|]. split; [exact Hleft|].
  apply exactStage_end; assumption.
Qed.

(** Once both indices are set, the loop keeps them set. *)
Lemma mapMatchLoop_keeps (matchStart matchEnd : Z) (segs : list TranscriptSegment)
    (idx pos ss es so eo : Z) :
  0 <= idx → ss ≠ -1 → es ≠ -1 →
  let r := mapMatchLoop matchStart matchEnd
             (boundariesFrom toLowerCase idx pos segs) ss es so eo in
  spanStartSegmentIdx r ≠ -1 ∧ spanEndSegmentIdx r ≠ -1.
Proof.
  revert idx pos es so eo. induction segs as [|segment rest IH];
    intros idx pos es so eo Hidx Hss Hes; simpl; [auto|].
  destruct (Z.eqb_spec ss (-1)); [contradiction|]. simpl.
  destruct (_ && _); simpl; [split; [assumption | lia]|].
  destruct (_ <? _); apply IH; try assumption; lia.
Qed.

(** A match that starts inside the text of a segment is mapped. *)
Lemma mapMatchLoop_finds (transcript : list TranscriptSegment)
    (matchStart matchEnd : Z) (segs pre : list TranscriptSegment)
    (es so eo : Z) :
  transcript = pre ++ segs → matchStart < matchEnd →
  spanLen pre <= matchStart → matchStart < spanLen transcript - 1 →
  (∀ pre' a post', transcript = pre' ++ a :: post' → post' ≠ [] →
                   matchStart ≠ spanLen pre' + len (text a)) →
  let r := mapMatchLoop matchStart matchEnd
             (boundariesFrom toLowerCase (len pre) (spanLen pre) segs)
             (-1) es so eo in
  spanStartSegmentIdx r ≠ -1 ∧ spanEndSegmentIdx r ≠ -1.
Proof.
  revert pre es so eo.
  induction segs as [|segment rest IH]; intros pre es so eo Ht Hlt Hpos Hin Hsep.
  - rewrite app_nil_r in Ht. subst pre. lia.
  - assert (Ht' : transcript = (pre ++ [segment]) ++ rest)
      by (rewrite <- app_assoc; exact Ht).
    assert (Hlen' : len (pre ++ [segment]) = len pre + 1)
      by (rewrite len_app; reflexivity).
    assert (Hspan' : spanLen (pre ++ [segment]) = spanLen pre + len (text segment) + 1)
      by (rewrite spanLen_app; simpl; lia).
    pose proof (len_nonneg pre) as Hpre.
    specialize (IH (pre ++ [segment])). rewrite Hlen', Hspan' in IH.
    simpl. destruct (Z.leb_spec (spanLen pre) matchStart); [|lia]. simpl.
    destruct (Z.ltb_spec matchStart (spanLen pre + len (text segment))) as [Hhit | Hmiss];
      simpl.
    + destruct (Z.ltb_spec (spanLen pre) matchEnd); [|lia].
      destruct (Z.leb_spec matchEnd (spanLen pre + len (text segment))); simpl.
      * split; lia.
      * destruct (Z.ltb_spec (spanLen pre + len (text segment)) matchEnd); [|lia].
        apply mapMatchLoop_keeps; lia.
    + assert (Hnext : spanLen pre + len (text segment) + 1 <= matchStart).
      { destruct rest as [|b rest'].
        - rewrite Ht, spanLen_app in Hin. simpl in Hin. lia.
        - specialize (Hsep pre segment (b :: rest') Ht ltac:(discriminate)). lia. }
      destruct (Z.ltb_spec (spanLen pre) matchEnd); [|lia].
      destruct (Z.leb_spec matchEnd (spanLen pre + len (text segment))); [lia|].
      simpl.
      destruct (Z.ltb_spec (spanLen pre + len (text segment)) matchEnd); [|lia].
      apply IH; assumption.
Qed.

(** A non-empty quote that does not start with a space and occurs in the
    full text is found by the exact stage. *)
Lemma exactStage_finds (transcript : list TranscriptSegment)
    (targetText : jsstring) (i : Z) :
  let index := buildTranscriptIndex toLowerCase transcript in
  targetText ≠ [] → head targetText ≠ Some 32%N →
  occursAt (fullTextSpace index) targetText i →
  ∃ m, exactStage targetText index = Some m.
Proof.
  intros index Hne Hhead Hocc.
  unfold exactStage. fold index.
  set (r := boyerMooreSearch (fullTextSpace index) targetText).
  destruct (boyerMooreSearch_spec (fullTextSpace index) targetText)
    as [[_ Hno] | [Ho _]]; [destruct (Hno i Hocc)|]. fold r in Ho.
  assert (Hlen : 0 < len targetText).
  { destruct targetText; [congruence | unfold len; simpl; lia]. }
  pose proof Ho as (Hr0 & Hr1 & _).
  destruct (Z.eqb_spec r (-1)); [lia|]. simpl.
  assert (Htr : transcript ≠ []).
  { intros ->. unfold index in Hr1. simpl in Hr1. unfold len in Hr1 at 2.
    simpl in Hr1. lia. }
  pose proof (fullText_len toLowerCase transcript Htr) as Hfull. fold index in Hfull.
  assert (Hchar : charAt (fullTextSpace index) r = head targetText).
  { apply occursAt_chars in Ho as (_ & _ & Hc). specialize (Hc 0 ltac:(lia)).
    rewrite Z.add_0_r in Hc. rewrite Hc. destruct targetText; reflexivity. }
  unfold mapMatchToSegments.
  replace (segmentBoundaries index) with (boundariesFrom toLowerCase 0 0 transcript)
    by (symmetry; apply boundaries_buildTranscriptIndex).
  destruct (mapMatchLoop_finds transcript r (r + len targetText) transcript []
              (-1) 0 0) as [Hs He]; [reflexivity | lia | simpl; lia | lia | |].
  { intros pre' a post' Ht Hpost Heq.
    destruct (fullText_at pre' post' a) as (P & S & Hjoin & HP & _ & HS).
    specialize (HS Hpost). apply Hhead. rewrite <- Hchar.
    unfold index. rewrite fullTextSpace_buildTranscriptIndex, Ht, Hjoin.
    rewrite charAt_Some by lia. rewrite Heq, <- HP.
    replace (Z.to_nat (len P + len (text a)))
      with (length P + (length (text a) + 0))%nat by (unfold len; lia).
    rewrite lookup_app_r by lia. replace (length P + (length (text a) + 0) - length P)%nat
      with (length (text a) + 0)%nat by lia.
    rewrite lookup_app_r by lia.
    replace (length (text a) + 0 - length (text a))%nat with 0%nat by lia.
    destruct S; [discriminate | exact HS]. }
  simpl in Hs, He. unfold spanIfFound.
  destruct (Z.eqb_spec (spanStartSegmentIdx (mapMatchLoop r (r + len targetText)
              (boundariesFrom toLowerCase 0 0 transcript) (-1) (-1) 0 0)) (-1));
    [contradiction|].
  destruct (Z.eqb_spec (spanEndSegmentIdx (mapMatchLoop r (r + len targetText)
              (boundariesFrom toLowerCase 0 0 transcript) (-1) (-1) 0 0)) (-1));
    [contradiction|].
  simpl. eexists. reflexivity.
Qed.


(** X8. A non-empty quote that does not start with a space and occurs
    verbatim in the full text is resolved by the exact stage, whatever the
    options. *)
Theorem verbatim_quote_is_exact (transcript : list TranscriptSegment)
    (targetText : jsstring) (options : MatchOptions) (i : Z) :
  let index := buildTranscriptIndex toLowerCase transcript in
  targetText ≠ [] → head targetText ≠ Some 32%N →
  occursAt (fullTextSpace index) targetText i →
  ∃ m, findTextInTranscript toLowerCase transcript targetText index options
         = Some m ∧
       matchStrategy m = Exact ∧ similarity m = 1%Q ∧ confidence m = 1%Q.
Proof.
  intros index Hne Hhead Hocc.
  destruct (exactStage_finds transcript targetText i Hne Hhead Hocc) as [m Hm].
  exists m. split; [|exact (exactStage_strategy _ _ _ Hm)].
  unfold findTextInTranscript, index. rewrite Hm. reflexivity.
Qed.

End Coordinates.

(** ** Structure of the transcript index *)

Section IndexStructure.

Variable toLowerCase : jsstring → jsstring.

Lemma boundariesFrom_length (segs : list TranscriptSegment) (idx pos : Z) :
  length (boundariesFrom toLowerCase idx pos segs) = length segs.
Proof.
  revert idx pos. induction segs as [|s rest IH]; intros idx pos; simpl;
    [reflexivity | f_equal; apply IH].
Qed.

Lemma boundariesFrom_lookup (segs : list TranscriptSegment) (idx pos : Z)
    (k : nat) (segment : TranscriptSegment) :
  segs !! k = Some segment →
  boundariesFrom toLowerCase idx pos segs !! k =
  Some {| segmentIdx := idx + Z.of_nat k;
          startPos := pos + spanLen (take k segs);
          endPos := pos + spanLen (take k segs) + len (text segment);
          boundaryText := text segment;
          boundaryNormalizedText := normalizeForMatching toLowerCase (text segment) |}.
Proof.
  revert idx pos k. induction segs as [|s rest IH]; intros idx pos k; [discriminate|].
  destruct k as [|k]; simpl.
  - intros [= ->]. rewrite !Z.add_0_r. reflexivity.
  - intros H. rewrite (IH _ _ _ H). f_equal. f_equal; lia.
Qed.

(** X9. One boundary record per segment, at the position of the segment,
    with its text and the offsets of this text in the full text. *)
Theorem boundary_records (transcript : list TranscriptSegment) :
  let index := buildTranscriptIndex toLowerCase transcript in
  length (segmentBoundaries index) = length transcript ∧
  ∀ k segment, transcript !! k = Some segment →
    ∃ b, segmentBoundaries index !! k = Some b ∧
         segmentIdx b = Z.of_nat k ∧
         boundaryText b = text segment ∧
         boundaryNormalizedText b = normalizeForMatching toLowerCase (text segment) ∧
         endPos b = startPos b + len (text segment) ∧
         occursAt (fullTextSpace index) (text segment) (startPos b).
Proof.
  intros index. unfold index. rewrite boundaries_buildTranscriptIndex.
  split; [apply boundariesFrom_length|].
  intros k segment Hk. eexists. split; [apply boundariesFrom_lookup, Hk|].
  cbn [segmentIdx startPos endPos boundaryText boundaryNormalizedText].
  rewrite !Z.add_0_l. split_and!; try reflexivity.
  rewrite fullTextSpace_buildTranscriptIndex.
  rewrite <- (take_drop_middle _ _ _ Hk) at 1.
  destruct (fullText_at (take k transcript) (drop (S k) transcript) segment)
    as (P & Suf & -> & HP & _). rewrite <- HP. apply occursAt_middle.
Qed.

(** X10. The boundaries tile the full text: the first starts at 0, each next
    one starts one character after the end of the previous one, this
    character being a space, and the last ends where the full text ends. *)
Theorem boundaries_tile (transcript : list TranscriptSegment) :
  let index := buildTranscriptIndex toLowerCase transcript in
  (∀ b, head (segmentBoundaries index) = Some b → startPos b = 0) ∧
  (∀ k b b', segmentBoundaries index !! k = Some b →
             segmentBoundaries index !! S k = Some b' →
             startPos b' = endPos b + 1 ∧
             charAt (fullTextSpace index) (endPos b) = Some 32%N) ∧
  (∀ b, last (segmentBoundaries index) = Some b →
        endPos b = len (fullTextSpace index)).
Proof.
  intros index. unfold index. rewrite boundaries_buildTranscriptIndex.
  assert (Hlookup : ∀ k b, boundariesFrom toLowerCase 0 0 transcript !! k = Some b →
            ∃ segment, transcript !! k = Some segment ∧
              startPos b = spanLen (take k transcript) ∧
              endPos b = spanLen (take k transcript) + len (text segment)).
  { intros k b Hb. pose proof (lookup_lt_Some _ _ _ Hb) as Hlt.
    rewrite boundariesFrom_length in Hlt.
    destruct (lookup_lt_is_Some_2 transcript k Hlt) as [segment Hk].
    rewrite (boundariesFrom_lookup _ _ _ _ _ Hk) in Hb. injection Hb as <-.
    exists segment. simpl. split; [exact Hk|]. split; lia. }
  split; [|split].
  - intros b Hb. rewrite head_lookup in Hb.
    destruct (Hlookup 0%nat b Hb) as (_ & _ & -> & _). reflexivity.
  - intros k b b' Hb Hb'.
    destruct (Hlookup _ _ Hb) as (sg & Hk & Hs & He).
    destruct (Hlookup _ _ Hb') as (sg' & Hk' & Hs' & _).
    rewrite (take_S_r _ _ _ Hk), spanLen_app in Hs'. simpl in Hs'.
    split; [lia|].
    rewrite fullTextSpace_buildTranscriptIndex.
    rewrite <- (take_drop_middle _ _ _ Hk) at 1.
    destruct (fullText_at (take k transcript) (drop (S k) transcript) sg)
      as (P & Suf & -> & HP & _ & HS).
    assert (Hne : drop (S k) transcript ≠ []).
    { intros Hnil. apply (f_equal length) in Hnil. rewrite length_drop in Hnil.
      apply lookup_lt_Some in Hk'. simpl in Hnil. lia. }
    specialize (HS Hne). rewrite He, <- HP.
    pose proof (len_nonneg P). pose proof (len_nonneg (text sg)).
    rewrite charAt_Some by lia.
    replace (Z.to_nat (len P + len (text sg)))
      with (length P + (length (text sg) + 0))%nat by (unfold len; lia).
    rewrite lookup_app_r by lia.
    replace (length P + (length (text sg) + 0) - length P)%nat
      with (length (text sg) + 0)%nat by lia.
    rewrite lookup_app_r by lia.
    replace (length (text sg) + 0 - length (text sg))%nat with 0%nat by lia.
    destruct Suf; [discriminate | exact HS].
  - intros b Hb. rewrite last_lookup, boundariesFrom_length in Hb.
    destruct (Hlookup _ _ Hb) as (sg & Hk & _ & He).
    assert (Htr : transcript ≠ []) by (intros ->; discriminate).
    rewrite (fullText_len toLowerCase transcript Htr), He.
    rewrite <- (take_drop_middle _ _ _ Hk) at 3.
    rewrite spanLen_app. simpl.
    assert (Hd : drop (S (Nat.pred (length transcript))) transcript = []).
    { apply drop_ge. lia. }
    rewrite Hd. simpl. lia.
Qed.

Lemma normalizedText_indexFrom (segs : list TranscriptSegment)
    (st : TranscriptIndex) (idx : Z) :
  0 < idx →
  normalizedText (indexFrom toLowerCase st idx segs) =
  normalizedText st ++
  concat (map (λ s, SPACE ++ normalizeForMatching toLowerCase (text s)) segs).
Proof.
  revert st idx. induction segs as [|s rest IH]; intros st idx Hidx; simpl.
  - rewrite app_nil_r. reflexivity.
  - rewrite IH by lia. simpl.
    destruct (Z.ltb_spec 0 idx); [|lia]. rewrite <- !app_assoc. reflexivity.
Qed.

(** X11. The texts of the index are the space-joined texts of the
    segments. *)
Theorem index_texts (transcript : list TranscriptSegment) :
  let index := buildTranscriptIndex toLowerCase transcript in
  fullTextSpace index = combineTranscript transcript ∧
  normalizedText index =
    joinWithSpace (map (λ s, normalizeForMatching toLowerCase (text s)) transcript).
Proof.
  intros index. split; [apply fullTextSpace_buildTranscriptIndex|].
  unfold index, buildTranscriptIndex. destruct transcript as [|s rest]; [reflexivity|].
  simpl indexFrom. rewrite normalizedText_indexFrom by lia.
  simpl map. rewrite joinWithSpace_cons, map_map. reflexivity.
Qed.


Lemma countOf_pos {A} `{EqDecision A} (x : A) (l : list A) :
  0 < countOf x l ↔ x ∈ l.
Proof.
  induction l as [|y l IH].
  - rewrite countOf_nil. split; [lia | inversion 1].
  - rewrite countOf_cons, elem_of_cons. pose proof (countOf_nonneg x l).
    destruct (decide (y = x)) as [-> | Hne].
    + split; [auto | lia].
    + rewrite Z.add_0_l, IH. split; [auto|]. intros [-> | ?]; [congruence | assumption].
Qed.

Lemma addWord_noEmpty (idx : Z) (wi : gmap jsstring (list Z)) (word : jsstring) :
  noEmptyPostings wi → noEmptyPostings (addWord idx wi word).
Proof.
  intros H w l. unfold addWord. destruct (2 <? len word); [|apply H].
  destruct (decide (word = w)) as [-> | Hne].
  - rewrite lookup_insert_eq. intros [= <-]. destruct (postings wi w); discriminate.
  - rewrite lookup_insert_ne by exact Hne. apply H.
Qed.

Lemma foldl_addWord_noEmpty (idx : Z) (words : list jsstring)
    (wi : gmap jsstring (list Z)) :
  noEmptyPostings wi → noEmptyPostings (foldl (addWord idx) wi words).
Proof.
  revert wi. induction words as [|w ws IH]; intros wi H; simpl; [exact H|].
  apply IH, addWord_noEmpty, H.
Qed.

Lemma addNgram_noEmpty (idx : Z) (ni : gmap jsstring (gset Z)) (ngram : jsstring) :
  noEmptySets ni → noEmptySets (addNgram idx ni ngram).
Proof.
  intros H g s. unfold addNgram.
  destruct (decide (ngram = g)) as [-> | Hne].
  - rewrite lookup_insert_eq. intros [= <-] Hempty.
    apply (not_elem_of_empty (C := gset Z) idx). rewrite <- Hempty.
    apply elem_of_union_r, elem_of_singleton. reflexivity.
  - rewrite lookup_insert_ne by exact Hne. apply H.
Qed.

Lemma foldl_addNgram_noEmpty (idx : Z) (grams : list jsstring)
    (ni : gmap jsstring (gset Z)) :
  noEmptySets ni → noEmptySets (foldl (addNgram idx) ni grams).
Proof.
  revert ni. induction grams as [|g gs IH]; intros ni H; simpl; [exact H|].
  apply IH, addNgram_noEmpty, H.
Qed.

Lemma indexFrom_noEmpty (segs : list TranscriptSegment) (st : TranscriptIndex)
    (idx : Z) :
  noEmptyPostings (wordIndex st) → noEmptySets (ngramIndex st) →
  noEmptyPostings (wordIndex (indexFrom toLowerCase st idx segs)) ∧
  noEmptySets (ngramIndex (indexFrom toLowerCase st idx segs)).
Proof.
  revert st idx. induction segs as [|s rest IH]; intros st idx Hw Hn; simpl; [auto|].
  apply IH; simpl.
  - apply foldl_addWord_noEmpty, Hw.
  - apply foldl_addNgram_noEmpty, Hn.
Qed.

Lemma foldl_addNgram_elem (idx : Z) (grams : list jsstring)
    (ni : gmap jsstring (gset Z)) (g : jsstring) (i : Z) :
  i ∈ default ∅ (foldl (addNgram idx) ni grams !! g) ↔
  i ∈ default ∅ (ni !! g) ∨ (i = idx ∧ g ∈ grams).
Proof.
  revert ni. induction grams as [|x gs IH]; intros ni; simpl.
  - split; [auto|]. intros [? | [_ H]]; [assumption | inversion H].
  - rewrite IH. unfold addNgram. rewrite elem_of_cons.
    destruct (decide (x = g)) as [-> | Hne].
    + rewrite lookup_insert_eq. simpl. rewrite elem_of_union, elem_of_singleton.
      tauto.
    + rewrite lookup_insert_ne by exact Hne.
      split; [tauto|]. intros [? | [? [-> | ?]]]; [tauto | congruence | tauto].
Qed.

Lemma ngramIndex_indexFrom (segs : list TranscriptSegment) (st : TranscriptIndex)
    (idx : Z) (g : jsstring) (i : Z) :
  i ∈ default ∅ (ngramIndex (indexFrom toLowerCase st idx segs) !! g) ↔
  i ∈ default ∅ (ngramIndex st !! g) ∨ g ∈ segmentNgrams toLowerCase segs (i - idx).
Proof.
  revert st idx. induction segs as [|s rest IH]; intros st idx.
  - simpl. unfold segmentNgrams, segmentAt. rewrite lookup_nil.
    destruct (_ <? _); split; auto; intros [? | H]; auto; inversion H.
  - simpl indexFrom. rewrite IH. simpl ngramIndex. rewrite foldl_addNgram_elem.
    unfold segmentNgrams. rewrite (segmentAt_cons s rest (i - idx)).
    replace (i - (idx + 1)) with (i - idx - 1) by lia.
    destruct (Z.eqb_spec (i - idx) 0) as [H0 | H0].
    + assert (segmentAt rest (i - idx - 1) = None) as ->.
      { unfold segmentAt. destruct (Z.ltb_spec (i - idx - 1) 0); [reflexivity | lia]. }
      split.
      * intros [[? | [_ ?]] | H]; [tauto | tauto | inversion H].
      * intros [? | ?]; [tauto|]. left. right. split; [lia | assumption].
    + split; [|tauto]. intros [[? | [? _]] | ?]; [tauto | lia | tauto].
Qed.

(** X12. The n-gram index maps a 3-gram to the set of the segments in whose
    normalised, whitespace-stripped text it occurs; a 3-gram that occurs in
    no segment is not a key. *)
Theorem ngramIndex_lookup (transcript : list TranscriptSegment) (g : jsstring) :
  let index := buildTranscriptIndex toLowerCase transcript in
  (∀ i, i ∈ default ∅ (ngramIndex index !! g) ↔ g ∈ segmentNgrams toLowerCase transcript i) ∧
  (ngramIndex index !! g = None ↔ ∀ i, g ∉ segmentNgrams toLowerCase transcript i).
Proof.
  intros index.
  assert (Hmem : ∀ i, i ∈ default ∅ (ngramIndex index !! g)
                      ↔ g ∈ segmentNgrams toLowerCase transcript i).
  { intros i. unfold index, buildTranscriptIndex. rewrite ngramIndex_indexFrom.
    simpl. rewrite lookup_empty, Z.sub_0_r. simpl.
    split; [intros [H | H]; [destruct (not_elem_of_empty (C := gset Z) i H) | exact H]
           | auto]. }
  split; [exact Hmem|].
  destruct (indexFrom_noEmpty transcript emptyIndex 0) as [_ Hne].
  { intros w l. simpl. rewrite lookup_empty. discriminate. }
  { intros g' s. simpl. rewrite lookup_empty. discriminate. }
  fold (buildTranscriptIndex toLowerCase transcript) in Hne. fold index in Hne.
  split.
  - intros Hnone i Hi. apply Hmem in Hi. revert Hi. rewrite Hnone. simpl.
    apply not_elem_of_empty.
  - intros Hall. destruct (ngramIndex index !! g) as [s|] eqn:Hs; [|reflexivity].
    exfalso. apply (Hne g s Hs). apply set_eq. intros i.
    split; [|intros Hi; destruct (not_elem_of_empty (C := gset Z) i Hi)].
    intros Hi. exfalso. apply (Hall i). apply Hmem. exact Hi.
Qed.

(** X13. The word index maps a word longer than 2 characters to the
    segments among whose normalised words it occurs; shorter words, and
    words that occur in no segment, are not keys. *)
Theorem wordIndex_lookup (transcript : list TranscriptSegment) (w : jsstring) :
  let index := buildTranscriptIndex toLowerCase transcript in
  (∀ i, i ∈ postings (wordIndex index) w ↔
        2 < len w ∧ w ∈ segmentWords toLowerCase transcript i) ∧
  (wordIndex index !! w = None ↔
   ¬ (2 < len w ∧ ∃ i, w ∈ segmentWords toLowerCase transcript i)).
Proof.
  intros index.
  assert (Hmem : ∀ i, i ∈ postings (wordIndex index) w ↔
                      2 < len w ∧ w ∈ segmentWords toLowerCase transcript i).
  { intros i. rewrite <- !countOf_pos. unfold index, buildTranscriptIndex.
    rewrite wordIndex_indexFrom. simpl. unfold postings at 1.
    rewrite lookup_empty. simpl. rewrite countOf_nil, Z.sub_0_r.
    pose proof (countOf_nonneg w (segmentWords toLowerCase transcript i)).
    case_decide; lia. }
  split; [exact Hmem|].
  destruct (indexFrom_noEmpty transcript emptyIndex 0) as [Hne _].
  { intros w' l. simpl. rewrite lookup_empty. discriminate. }
  { intros g' s. simpl. rewrite lookup_empty. discriminate. }
  fold (buildTranscriptIndex toLowerCase transcript) in Hne. fold index in Hne.
  split.
  - intros Hnone [Hlong [i Hi]].
    assert (Hin : i ∈ postings (wordIndex index) w) by (apply Hmem; auto).
    unfold postings in Hin. rewrite Hnone in Hin. inversion Hin.
  - intros Hall. destruct (wordIndex index !! w) as [l|] eqn:Hl; [|reflexivity].
    exfalso. pose proof (Hne w l Hl) as Hnil.
    destruct l as [|i l]; [congruence|].
    apply Hall. assert (Hin : i ∈ postings (wordIndex index) w).
    { unfold postings. rewrite Hl. left. }
    apply Hmem in Hin as [? ?]. eauto.
Qed.

End IndexStructure.

(** ** The contract of [findExactQuotes] *)

Lemma segmentsInRangeFrom_elem (ts te : Q) (segs : list TranscriptSegment)
    (idx i : Z) (s : TranscriptSegment) :
  (i, s) ∈ segmentsInRangeFrom ts te idx segs →
  idx <= i ∧ segs !! Z.to_nat (i - idx) = Some s.
Proof.
  revert idx. induction segs as [|segment rest IH]; intros idx; simpl.
  - inversion 1.
  - assert (Hrec : (i, s) ∈ segmentsInRangeFrom ts te (idx + 1) rest →
                   idx <= i ∧ (segment :: rest) !! Z.to_nat (i - idx) = Some s).
    { intros H. apply IH in H as [Hle H]. split; [lia|].
      replace (Z.to_nat (i - idx)) with (S (Z.to_nat (i - (idx + 1)))) by lia.
      exact H. }
    destruct (_ && _); [|exact Hrec].
    intros H. apply elem_of_cons in H as [[= -> ->] | H]; [|exact (Hrec H)].
    split; [lia|]. rewrite Z.sub_diag. reflexivity.
Qed.

Lemma segmentsInRangeFrom_head_le (ts te : Q) (segs : list TranscriptSegment)
    (idx : Z) (first : Z * TranscriptSegment) (others : list (Z * TranscriptSegment))
    (p : Z * TranscriptSegment) :
  segmentsInRangeFrom ts te idx segs = first :: others →
  p ∈ first :: others → first.1 <= p.1.
Proof.
  revert idx. induction segs as [|segment rest IH]; intros idx; simpl; [discriminate|].
  destruct (_ && _).
  - intros [= <- <-] Hp. apply elem_of_cons in Hp as [-> | Hp]; [lia|].
    destruct p as [i s]. apply segmentsInRangeFrom_elem in Hp as [Hp _]. simpl. lia.
  - apply IH.
Qed.

Lemma last_elem_of {A} (x : A) (l : list A) : List.last (x :: l) x ∈ x :: l.
Proof.
  pose proof (last_cons_default x x l) as H. apply last_Some_elem_of in H. exact H.
Qed.

Section Contract.

Variable toLowerCase : jsstring → jsstring.
Variable parseTimestampRange : jsstring → option (Q * Q).

Lemma resolvedFromMatch_contract (transcript : list TranscriptSegment)
    (quoteText : jsstring) (m : MatchResult) :
  (∃ segS segE,
     segmentAt transcript (startSegmentIdx m) = Some segS ∧
     segmentAt transcript (endSegmentIdx m) = Some segE ∧
     startSegmentIdx m <= endSegmentIdx m ∧
     0 <= startCharOffset m <= len (text segS) ∧
     0 <= endCharOffset m <= len (text segE)) →
  ∃ r, resolvedFromMatch transcript quoteText m = Normal (Some r) ∧
       resolvedValid transcript r ∧
       rText r = quoteText ∧ rConfidence r = confidence m ∧
       rStartSegmentIdx r = startSegmentIdx m ∧
       rStartCharOffset r = startCharOffset m ∧
       hasCompleteSentences r =
         match matchStrategy m with FuzzyNgram => false | _ => true end.
Proof.
  intros (segS & segE & HS & HE & Hle & Hso & Heo).
  unfold resolvedFromMatch. rewrite HS, HE. eexists. split; [reflexivity|].
  split; [|simpl; auto]. exists segS, segE. simpl. auto 10.
Qed.

(** The offsets of any match lie within the texts of its segments. *)
Lemma findTextInTranscript_span (transcript : list TranscriptSegment)
    (targetText : jsstring) (options : MatchOptions) (m : MatchResult) :
  toLowerCase [] = [] → targetText ≠ [] →
  findTextInTranscript toLowerCase transcript targetText
    (buildTranscriptIndex toLowerCase transcript) options = Some m →
  ∃ segS segE,
    segmentAt transcript (startSegmentIdx m) = Some segS ∧
    segmentAt transcript (endSegmentIdx m) = Some segE ∧
    startSegmentIdx m <= endSegmentIdx m ∧
    0 <= startCharOffset m <= len (text segS) ∧
    0 <= endCharOffset m <= len (text segE).
Proof.
  intros Hlower Hne H.
  assert (Hweak : validSpan transcript (startSegmentIdx m) (endSegmentIdx m)
                    (startCharOffset m) (endCharOffset m) →
                  ∃ segS segE,
                    segmentAt transcript (startSegmentIdx m) = Some segS ∧
                    segmentAt transcript (endSegmentIdx m) = Some segE ∧
                    startSegmentIdx m <= endSegmentIdx m ∧
                    0 <= startCharOffset m <= len (text segS) ∧
                    0 <= endCharOffset m <= len (text segE)).
  { intros (segS & segE & ? & ? & ? & ? & ? & _). exists segS, segE. auto. }
  apply findTextInTranscript_cases in H as [H | [[_ H] | (_ & _ & H)]].
  - apply exactStage_valid in H as [_ H]; [auto | exact Hne].
  - apply normalizedStage_valid in H as (_ & _ & H). auto.
  - apply fuzzyStage_spec in H as (c & score & _ & H).
    apply tryCandidate_spec in H as (Hs & Ho & _ & Hle & _ & sgE & HsgE & He & _).
    pose proof (segmentAt_Some _ _ _ HsgE) as Hrange.
    assert (HsgS : ∃ sgS, segmentAt transcript (startSegmentIdx m) = Some sgS).
    { unfold segmentAt.
      destruct (Z.ltb_spec (startSegmentIdx m) 0); [lia|].
      apply lookup_lt_is_Some. unfold len in Hrange. lia. }
    destruct HsgS as [sgS HsgS]. exists sgS, sgE.
    pose proof (len_nonneg (text sgS)). pose proof (len_nonneg (text sgE)).
    repeat split; try assumption; lia.
Qed.

Lemma fallback_contract (transcript : list TranscriptSegment) (ts te : Q)
    (first : Z * TranscriptSegment) (others : list (Z * TranscriptSegment)) :
  segmentsInRangeFrom ts te 0 transcript = first :: others →
  resolvedValid transcript
    (timestampFallback first (List.last (first :: others) first) (first :: others)).
Proof.
  intros Hsegs. set (lastSegment := List.last (first :: others) first).
  assert (Hfirst : first ∈ segmentsInRangeFrom ts te 0 transcript)
    by (rewrite Hsegs; left).
  assert (Hlast : lastSegment ∈ segmentsInRangeFrom ts te 0 transcript)
    by (rewrite Hsegs; apply last_elem_of).
  pose proof (segmentsInRangeFrom_head_le _ _ _ _ _ _ lastSegment Hsegs
                (last_elem_of first others)) as Hle.
  destruct first as [i0 s0], lastSegment as [i1 s1] eqn:Hl.
  apply segmentsInRangeFrom_elem in Hfirst as [H0 Hs0], Hlast as [H1 Hs1].
  rewrite Z.sub_0_r in Hs0, Hs1.
  exists s0, s1. unfold timestampFallback. simpl in *. unfold segmentAt.
  destruct (Z.ltb_spec i0 0); [lia|]. destruct (Z.ltb_spec i1 0); [lia|].
  pose proof (len_nonneg (text s0)). pose proof (len_nonneg (text s1)).
  repeat split; try assumption; try lia.
Qed.

(** With the index of the transcript, resolving a quote never throws, and
    a resolved quote keeps the contract of the renderer. *)
Lemma findExactQuote_normal (transcript : list TranscriptSegment)
    (quote : Quote) :
  toLowerCase [] = [] →
  ∃ outcome,
    findExactQuote toLowerCase parseTimestampRange transcript quote
      (buildTranscriptIndex toLowerCase transcript) = Normal outcome ∧
    ∀ r, outcome = Some r → resolvedValid transcript r.
Proof.
  intros Hlower. unfold findExactQuote.
  destruct (if len (quoteTimestamp quote) =? 0 then None
            else parseTimestampRange (quoteTimestamp quote)) as [[ts te]|];
    [|exists None; split; [reflexivity | discriminate]].
  set (q := trim (quoteText quote)).
  destruct (Z.eqb_spec (len q) 0) as [H0 | H0];
    [exists None; split; [reflexivity | discriminate]|].
  assert (Hq : q ≠ []) by (intros Hnil; rewrite Hnil in H0; apply H0; reflexivity).
  destruct (findTextInTranscript toLowerCase transcript q _ globalOptions)
    as [m|] eqn:Hglobal.
  - apply findTextInTranscript_span in Hglobal; [|assumption..].
    destruct (resolvedFromMatch_contract transcript q m Hglobal) as (r & -> & Hr & _).
    exists (Some r). split; [reflexivity|]. intros r' [= <-]. exact Hr.
  - unfold resolveByTimestamp.
    destruct (segmentsInRangeFrom ts te 0 transcript) as [|first others] eqn:Hsegs;
      [exists None; split; [reflexivity | discriminate]|].
    cbv beta iota zeta.
    pose proof (fallback_contract _ _ _ _ _ Hsegs) as Hfb.
    destruct (findTextInTranscript toLowerCase transcript q _ (rangeOptions _ _))
      as [rm|] eqn:Hrange.
    + destruct (_ <=? _).
      * apply findTextInTranscript_span in Hrange; [|assumption..].
        destruct (resolvedFromMatch_contract transcript q rm Hrange) as (r & -> & Hr & _).
        exists (Some r). split; [reflexivity|]. intros r' [= <-]. exact Hr.
      * eexists. split; [reflexivity|]. intros r' [= <-]. exact Hfb.
    + eexists. split; [reflexivity|]. intros r' [= <-]. exact Hfb.
Qed.

(** X14. With the index of the transcript, [findExactQuotes] never throws;
    it returns at most one result per quote, and every result designates
    two segments of the transcript, in order, with the start time of the
    first, the end time of the second, and offsets within their texts. *)
Theorem findExactQuotes_contract (transcript : list TranscriptSegment)
    (quotes : list Quote) :
  toLowerCase [] = [] →
  ∃ results,
    findExactQuotes toLowerCase parseTimestampRange transcript quotes
      (buildTranscriptIndex toLowerCase transcript) = Normal results ∧
    (length results <= length quotes)%nat ∧
    Forall (resolvedValid transcript) results.
Proof.
  intros Hlower. induction quotes as [|quote rest (rs & Hrs & Hlen & Hall)].
  - exists []. simpl. repeat split; [lia | constructor].
  - simpl. rewrite Hrs.
    destruct (findExactQuote_normal transcript quote Hlower) as (o & -> & Ho).
    destruct o as [r|].
    + exists (r :: rs). repeat split; [simpl; lia|]. constructor; auto.
    + exists rs. repeat split; [simpl; lia | exact Hall].
Qed.

(** X15. An empty transcript resolves no quote. *)
Theorem findExactQuotes_empty_transcript (quotes : list Quote) :
  findExactQuotes toLowerCase parseTimestampRange [] quotes
    (buildTranscriptIndex toLowerCase []) = Normal [].
Proof.
  induction quotes as [|quote rest IH]; [reflexivity|].
  simpl findExactQuotes. rewrite IH.
  assert (Hq : findExactQuote toLowerCase parseTimestampRange [] quote
                 (buildTranscriptIndex toLowerCase []) = Normal None).
  { unfold findExactQuote.
    destruct (if len (quoteTimestamp quote) =? 0 then None
              else parseTimestampRange (quoteTimestamp quote)) as [[ts te]|];
      [|reflexivity].
    set (q := trim (quoteText quote)).
    destruct (Z.eqb_spec (len q) 0) as [H0 | H0]; [reflexivity|].
    assert (Hq : q ≠ []) by (intros Hnil; rewrite Hnil in H0; apply H0; reflexivity).
    destruct (findTextInTranscript toLowerCase [] q _ globalOptions) as [m|] eqn:Hm.
    - apply findTextInTranscript_indices in Hm as (? & ? & Hlt); [|exact Hq].
      unfold len in Hlt. simpl in Hlt. lia.
    - reflexivity. }
  rewrite Hq. reflexivity.
Qed.

End Contract.

(** ** Verbatim quotes *)

Lemma trim_head (s : jsstring) : startsClean (trim s).
Proof.
  unfold trim. destruct (trimStart_spec s) as (_ & _ & _ & Hclean).
  destruct (trimEnd_spec (trimStart s)) as (w & Hw & _ & _).
  intros c Hc. apply Hclean. rewrite Hw.
  destruct (trimEnd (trimStart s)); [discriminate | exact Hc].
Qed.

Section Verbatim.

Variable toLowerCase : jsstring → jsstring.
Variable parseTimestampRange : jsstring → option (Q * Q).

(** X16. A quote whose trimmed text occurs verbatim in the full text, and
    whose timestamp parses, is resolved on the first occurrence of the text,
    with confidence 1, whatever the timestamp says. *)
Theorem findExactQuote_verbatim (transcript : list TranscriptSegment)
    (quote : Quote) (range : Q * Q) (i : Z) :
  let index := buildTranscriptIndex toLowerCase transcript in
  let q := trim (quoteText quote) in
  quoteTimestamp quote ≠ [] →
  parseTimestampRange (quoteTimestamp quote) = Some range →
  q ≠ [] →
  occursAt (fullTextSpace index) q i →
  ∃ r, findExactQuote toLowerCase parseTimestampRange transcript quote index
         = Normal (Some r) ∧
       rText r = q ∧ rConfidence r = 1%Q ∧ hasCompleteSentences r = true ∧
       let p := segmentOffset transcript (rStartSegmentIdx r)
                + rStartCharOffset r in
       occursAt (fullTextSpace index) q p ∧ p <= i.
Proof.
  intros index q Hts Hparse Hq Hocc.
  assert (Hhead : head q ≠ Some 32%N).
  { intros Hh. apply trim_head in Hh. discriminate. }
  destruct (exactStage_finds toLowerCase transcript q i Hq Hhead Hocc)
    as [m Hstage].
  destruct (exactStage_strategy _ _ _ Hstage) as (Hst & _ & Hconf).
  destruct (exactStage_coordinates toLowerCase transcript q m Hq Hstage)
    as (Hp & Hleft & _).
  assert (Hm : findTextInTranscript toLowerCase transcript q
                 (buildTranscriptIndex toLowerCase transcript) globalOptions
               = Some m).
  { unfold findTextInTranscript. rewrite Hstage. reflexivity. }
  apply exactStage_valid in Hstage as [_ (segS & segE & HS & HE & Hle & Hso & Heo & _)];
    [|exact Hq].
  destruct (resolvedFromMatch_contract transcript q m)
    as (r & Hr & _ & Htext & Hc & Hidx & Hoff & Hcs).
  { exists segS, segE. auto. }
  exists r. unfold findExactQuote. fold q.
  destruct (Z.eqb_spec (len (quoteTimestamp quote)) 0) as [H0 | _].
  { destruct (quoteTimestamp quote); [congruence | discriminate]. }
  rewrite Hparse. destruct range as [ts te].
  destruct (Z.eqb_spec (len q) 0) as [H0 | _].
  { destruct q; [congruence | discriminate]. }
  unfold index in *. rewrite Hm. split; [exact Hr|].
  rewrite Htext, Hc, Hconf, Hcs, Hst, Hidx, Hoff. split_and!; try reflexivity.
  - exact Hp.
  - apply Hleft, Hocc.
Qed.

End Verbatim.

Lemma exact_match_coordinates_witness :
  let index := buildTranscriptIndex asciiLower scenarioA in
  let p := segmentOffset scenarioA (startSegmentIdx discussMatch)
           + startCharOffset discussMatch in
  let e := segmentOffset scenarioA (endSegmentIdx discussMatch)
           + endCharOffset discussMatch in
  occursAt (fullTextSpace index) (js "we discuss") p ∧
  (∀ s, occursAt (fullTextSpace index) (js "we discuss") s → p <= s) ∧
  ∃ endSegment, segmentAt scenarioA (endSegmentIdx discussMatch) = Some endSegment ∧
    ((0 < endCharOffset discussMatch <= len (text endSegment) ∧
      e = p + len (js "we discuss")) ∨
     (endCharOffset discussMatch = len (text endSegment) ∧
      e + 1 = p + len (js "we discuss") ∧
      endSegmentIdx discussMatch + 1 < len scenarioA ∧
      charAt (fullTextSpace index) e = Some 32%N)).
Proof.
  apply (exact_match_coordinates asciiLower scenarioA (js "we discuss")
           defaultOptions discussMatch).
  - discriminate.
  - vm_compute. reflexivity.
  - reflexivity.
Defined.

Lemma verbatim_quote_is_exact_witness :
  ∃ m, findTextInTranscript asciiLower scenarioA (js "we discuss")
         (buildTranscriptIndex asciiLower scenarioA) defaultOptions = Some m ∧
       matchStrategy m = Exact ∧ similarity m = 1%Q ∧ confidence m = 1%Q.
Proof.
  apply (verbatim_quote_is_exact asciiLower scenarioA (js "we discuss")
           defaultOptions 27).
  - discriminate.
  - discriminate.
  - vm_compute. repeat split; discriminate.
Defined.

Lemma findExactQuote_verbatim_witness :
  ∃ r, findExactQuote asciiLower parseTimestampRangeModel scenarioA discussQuote
         (buildTranscriptIndex asciiLower scenarioA) = Normal (Some r) ∧
       rText r = js "we discuss" ∧ rConfidence r = 1%Q ∧
       hasCompleteSentences r = true ∧
       let p := segmentOffset scenarioA (rStartSegmentIdx r) + rStartCharOffset r in
       occursAt (fullTextSpace (buildTranscriptIndex asciiLower scenarioA))
         (js "we discuss") p ∧ p <= 27.
Proof.
  apply (findExactQuote_verbatim asciiLower parseTimestampRangeModel scenarioA
           discussQuote (0%Q, 2%Q) 27).
  - discriminate.
  - vm_compute. reflexivity.
  - discriminate.
  - vm_compute. repeat split; discriminate.
Defined.

Lemma findExactQuotes_contract_witness :
  ∃ results,
    findExactQuotes asciiLower parseTimestampRangeModel drift
      [driftQuote; blankQuote]
      (buildTranscriptIndex asciiLower drift) = Normal results ∧
    (length results <= 2)%nat ∧
    Forall (resolvedValid drift) results.
Proof.
  apply (findExactQuotes_contract asciiLower parseTimestampRangeModel drift
           [driftQuote; blankQuote]).
  reflexivity.
Defined.

(** ** Duplicate candidates and themes *)

Section KeepFirst.

Context {A : Type} (key : A → option jsstring).

Lemma keepFirst_sublist (seen : gset jsstring) (l : list A) :
  sublist (keepFirst key seen l) l.
Proof.
  revert seen. induction l as [|x rest IH]; intros seen; simpl; [constructor|].
  destruct (key x) as [k|]; [|apply sublist_cons, IH].
  destruct (decide (k ∈ seen)); [apply sublist_cons, IH | apply sublist_skip, IH].
Qed.

Lemma keepFirst_key (seen : gset jsstring) (l : list A) (x : A) :
  x ∈ keepFirst key seen l → ∃ k, key x = Some k ∧ k ∉ seen.
Proof.
  revert seen. induction l as [|y rest IH]; intros seen; simpl; [inversion 1|].
  destruct (key y) as [k|] eqn:Hk; [|apply IH].
  destruct (decide (k ∈ seen)) as [|Hnew]; [apply IH|].
  intros H. apply elem_of_cons in H as [-> | H]; [eauto|].
  apply IH in H as (k' & Hk' & Hnot). exists k'. split; [exact Hk'|].
  intros Hin. apply Hnot, elem_of_union_r, Hin.
Qed.

Lemma keepFirst_NoDup (seen : gset jsstring) (l : list A) :
  NoDup (map key (keepFirst key seen l)).
Proof.
  revert seen. induction l as [|x rest IH]; intros seen; simpl; [constructor|].
  destruct (key x) as [k|] eqn:Hk; [|apply IH].
  destruct (decide (k ∈ seen)); [apply IH|]. simpl. constructor; [|apply IH].
  rewrite Hk. intros Hin. apply list_elem_of_fmap in Hin as (y & Hy & Hin).
  apply keepFirst_key in Hin as (k' & Hk' & Hnot).
  apply Hnot. rewrite Hk' in Hy. injection Hy as ->.
  apply elem_of_union_l, elem_of_singleton. reflexivity.
Qed.

Lemma keepFirst_first (seen : gset jsstring) (pre post : list A) (x : A)
    (k : jsstring) :
  key x = Some k → k ∉ seen → (∀ y, y ∈ pre → key y ≠ Some k) →
  x ∈ keepFirst key seen (pre ++ x :: post).
Proof.
  revert seen. induction pre as [|y pre IH]; intros seen Hk Hnew Hpre; simpl.
  - rewrite Hk. destruct (decide (k ∈ seen)); [contradiction | left].
  - assert (Hpre' : ∀ z, z ∈ pre → key z ≠ Some k)
      by (intros z Hz; apply Hpre; right; exact Hz).
    destruct (key y) as [k'|] eqn:Hk'; [|apply IH; assumption].
    destruct (decide (k' ∈ seen)); [apply IH; assumption|].
    right. apply IH; [assumption | | assumption].
    intros Hin. apply elem_of_union in Hin as [Hin | Hin]; [|contradiction].
    apply elem_of_singleton in Hin. subst k'.
    apply (Hpre y); [left | exact Hk'].
Qed.

Lemma keepFirst_idempotent (seen : gset jsstring) (l : list A) :
  keepFirst key seen (keepFirst key seen l) = keepFirst key seen l.
Proof.
  revert seen. induction l as [|x rest IH]; intros seen; simpl; [reflexivity|].
  destruct (key x) as [k|] eqn:Hk; [|apply IH].
  destruct (decide (k ∈ seen)) as [|Hnew]; [apply IH|].
  simpl. rewrite Hk. destruct (decide (k ∈ seen)); [contradiction|].
  f_equal. apply IH.
Qed.

End KeepFirst.

Lemma dedupeFrom_keepFirst (seen : gset jsstring) (candidates : list CandidateTopic) :
  dedupeFrom seen candidates = keepFirst candidateKeyOf seen candidates.
Proof.
  revert seen. induction candidates as [|c rest IH]; intros seen; simpl;
    [reflexivity|].
  unfold candidateKeyOf. destruct (topicQuote c) as [q|]; [|apply IH].
  destruct (_ || _); [apply IH|].
  destruct (decide _); [apply IH | f_equal; apply IH].
Qed.

(** X17. [dedupeCandidates] keeps, in their order, exactly the first
    candidate of every key among those that have a timestamp and a text. *)
Theorem dedupeCandidates_first_of_each_key (candidates : list CandidateTopic) :
  let result := dedupeCandidates candidates in
  sublist result candidates ∧
  NoDup (map candidateKeyOf result) ∧
  (∀ c, c ∈ result → is_Some (candidateKeyOf c)) ∧
  (∀ pre c post, candidates = pre ++ c :: post →
     is_Some (candidateKeyOf c) →
     (∀ c', c' ∈ pre → candidateKeyOf c' ≠ candidateKeyOf c) →
     c ∈ result).
Proof.
  unfold dedupeCandidates. rewrite dedupeFrom_keepFirst. split_and!.
  - apply keepFirst_sublist.
  - apply keepFirst_NoDup.
  - intros c Hc. apply keepFirst_key in Hc as (k & -> & _). eauto.
  - intros pre c post -> [k Hk] Hpre.
    apply (keepFirst_first _ _ _ _ _ k Hk).
    + apply not_elem_of_empty.
    + intros c' Hc'. rewrite <- Hk. apply Hpre, Hc'.
Qed.

(** X18. Removing the duplicates twice changes nothing more. *)
Theorem dedupeCandidates_idempotent (candidates : list CandidateTopic) :
  dedupeCandidates (dedupeCandidates candidates) = dedupeCandidates candidates.
Proof.
  unfold dedupeCandidates. rewrite !dedupeFrom_keepFirst.
  apply keepFirst_idempotent.
Qed.

Lemma trim_tail (s : jsstring) : endsClean (trim s).
Proof.
  unfold trim. destruct (trimEnd_spec (trimStart s)) as (_ & _ & _ & H). exact H.
Qed.

Lemma trim_trim (s : jsstring) : trim (trim s) = trim s.
Proof.
  unfold trim at 1.
  rewrite (trimStart_id (trim s)) by apply trim_head.
  apply trimEnd_id, trim_tail.
Qed.

Section Themes.

Variable toLowerCase : jsstring → jsstring.

Lemma sanitizeFrom_keepFirst (unique : gset jsstring) (themes : list jsstring) :
  sanitizeFrom toLowerCase unique themes =
  keepFirst (themeKeyOf toLowerCase) unique (map trim themes).
Proof.
  revert unique. induction themes as [|t rest IH]; intros unique; simpl;
    [reflexivity|].
  unfold themeKeyOf. destruct (len (trim t) =? 0); [apply IH|].
  destruct (decide _); [apply IH | f_equal; apply IH].
Qed.

Lemma themeKeyOf_Some (s k : jsstring) :
  themeKeyOf toLowerCase s = Some k → s ≠ [] ∧ k = toLowerCase s.
Proof.
  destruct s as [|c s]; [discriminate|]. intros [= <-].
  split; [discriminate | reflexivity].
Qed.

Lemma sanitizeThemeList_elem (themes : list jsstring) (t : jsstring) :
  t ∈ sanitizeThemeList toLowerCase themes → t ≠ [] ∧ trim t = t.
Proof.
  unfold sanitizeThemeList. rewrite sanitizeFrom_keepFirst. intros Ht. split.
  - apply keepFirst_key in Ht as (k & Hk & _). apply (themeKeyOf_Some _ _ Hk).
  - pose proof (keepFirst_sublist (themeKeyOf toLowerCase) ∅ (map trim themes))
      as Hsub.
    apply (λ H, elem_of_sublist _ _ _ H Hsub) in Ht.
    apply list_elem_of_fmap in Ht as (s & -> & _). apply trim_trim.
Qed.

Lemma sanitizeThemeList_NoDup (themes : list jsstring) :
  NoDup (map toLowerCase (sanitizeThemeList toLowerCase themes)).
Proof.
  unfold sanitizeThemeList. rewrite sanitizeFrom_keepFirst.
  set (key := themeKeyOf toLowerCase).
  pose proof (keepFirst_NoDup key ∅ (map trim themes)) as Hnd.
  assert (Heq : map key (keepFirst key ∅ (map trim themes)) =
                map Some (map toLowerCase (keepFirst key ∅ (map trim themes)))).
  { rewrite map_map. apply map_ext_in. intros t Ht.
    apply list_elem_of_In, keepFirst_key in Ht as (k & Hk & _).
    rewrite Hk. f_equal. apply (themeKeyOf_Some _ _ Hk). }
  rewrite Heq in Hnd. apply (NoDup_fmap_1 Some) in Hnd. exact Hnd.
Qed.

(** X19. [sanitizeThemeList] returns trimmed themes, in their order: none
    is empty, no two are equal up to case, and every theme that is not blank
    is represented, up to case, by the first theme of its kind. *)
Theorem sanitizeThemeList_distinct (themes : list jsstring) :
  let result := sanitizeThemeList toLowerCase themes in
  sublist result (map trim themes) ∧
  (∀ t, t ∈ result → t ≠ [] ∧ trim t = t) ∧
  NoDup (map toLowerCase result) ∧
  (∀ pre t post, themes = pre ++ t :: post → trim t ≠ [] →
     (∀ t', t' ∈ pre → trim t' = [] ∨
                       toLowerCase (trim t') ≠ toLowerCase (trim t)) →
     trim t ∈ result).
Proof.
  split_and!.
  - unfold sanitizeThemeList. rewrite sanitizeFrom_keepFirst.
    apply keepFirst_sublist.
  - apply sanitizeThemeList_elem.
  - apply sanitizeThemeList_NoDup.
  - unfold sanitizeThemeList. rewrite sanitizeFrom_keepFirst.
    intros pre t post -> Ht Hpre. rewrite map_app. simpl.
    apply (keepFirst_first _ _ _ _ _ (toLowerCase (trim t))).
    + destruct (trim t) as [|c s] eqn:Htrim; [congruence | reflexivity].
    + apply not_elem_of_empty.
    + intros s Hs Hks. apply list_elem_of_fmap in Hs as (t' & -> & Ht').
      apply themeKeyOf_Some in Hks as [Hne Hks].
      destruct (Hpre t' Ht') as [H | H]; [contradiction | congruence].
Qed.

(** X20. Cleaning a cleaned list changes nothing more. *)
Theorem sanitizeThemeList_idempotent (themes : list jsstring) :
  sanitizeThemeList toLowerCase (sanitizeThemeList toLowerCase themes) =
  sanitizeThemeList toLowerCase themes.
Proof.
  pose proof (sanitizeThemeList_elem themes) as Htrim.
  unfold sanitizeThemeList in *. rewrite (sanitizeFrom_keepFirst ∅ (sanitizeFrom _ _ _)).
  replace (map trim (sanitizeFrom toLowerCase ∅ themes))
    with (sanitizeFrom toLowerCase ∅ themes).
  - rewrite sanitizeFrom_keepFirst. apply keepFirst_idempotent.
  - rewrite <- (map_id (sanitizeFrom toLowerCase ∅ themes)) at 1.
    apply map_ext_in. intros t Ht. symmetry.
    apply list_elem_of_In in Ht. apply (Htrim t Ht).
Qed.

End Themes.

(** ** Theme tokens and similar themes *)

Lemma splitWhitespaceFrom_pieces (P : N → Prop) (cur : jsstring) (inRun : bool)
    (s : jsstring) :
  Forall P cur → Forall (λ c, isWhitespace c = false → P c) s →
  Forall (Forall P) (splitWhitespaceFrom cur inRun s).
Proof.
  revert cur inRun. induction s as [|c t IH]; intros cur inRun Hcur Hs; simpl.
  - constructor; [apply Forall_rev, Hcur | constructor].
  - apply Forall_cons in Hs as [Hc Ht].
    destruct (isWhitespace c) eqn:Hw.
    + destruct inRun; [apply IH; assumption|].
      constructor; [apply Forall_rev, Hcur | apply IH; [constructor | assumption]].
    + apply IH; [constructor; auto | assumption].
Qed.

Lemma blankOthers_chars (s : jsstring) :
  Forall (λ c, isWhitespace c = false → isThemeChar c = true) (blankOthers s).
Proof.
  unfold blankOthers. apply Forall_fmap, Forall_forall. intros c _. simpl.
  destruct (isThemeChar c) eqn:Ht; simpl; [auto|].
  destruct (isWhitespace c) eqn:Hw; [congruence|].
  intros H. vm_compute in H. discriminate.
Qed.

Lemma pieces_themeChars (s : jsstring) :
  Forall (Forall (λ c, isThemeChar c = true)) (splitWhitespace (blankOthers s)).
Proof.
  apply splitWhitespaceFrom_pieces; [constructor | apply blankOthers_chars].
Qed.

Lemma startsWith_rev_elem (s : jsstring) (a b : N) :
  startsWith (rev s) [a; b] = true → b ∈ s.
Proof.
  intros H. apply startsWith_spec in H. simpl in H.
  destruct (rev s) as [|x [|y l]] eqn:Hr; simpl in H; try discriminate.
  injection H as -> ->.
  apply list_elem_of_In, in_rev. rewrite Hr. right. left. reflexivity.
Qed.

(** The possessive rule never fires on a piece made of letters and digits. *)
Lemma stripPossessive_themeChars (token : jsstring) :
  Forall (λ c, isThemeChar c = true) token → stripPossessive token = token.
Proof.
  intros Hall. unfold stripPossessive, endsWith.
  destruct (startsWith (rev token) (rev (js "'s"))) eqn:H; [|reflexivity].
  apply startsWith_rev_elem in H.
  rewrite Forall_forall in Hall. specialize (Hall _ H). discriminate.
Qed.

Lemma stripPlural_themeChars (token : jsstring) :
  Forall (λ c, isThemeChar c = true) token →
  Forall (λ c, isThemeChar c = true) (stripPlural token).
Proof.
  intros H. unfold stripPlural, dropLast. destruct (_ && _); [|exact H].
  apply Forall_take, H.
Qed.

Section ThemeTokens.

Variable toLowerCase : jsstring → jsstring.

(** X22. The possessive rule of [extractThemeTokens] is never applied: the
    apostrophe has become a space before the text is split. *)
Theorem extractThemeTokens_possessive_unused (theme : jsstring) :
  extractThemeTokens toLowerCase theme =
  filter (λ token, 0 < len token ∧ token ∉ THEME_STOP_WORDS)
    (map stripPlural (splitWhitespace (blankOthers (toLowerCase theme)))).
Proof.
  unfold extractThemeTokens. f_equal. f_equal.
  rewrite <- (map_id (splitWhitespace _)) at 2.
  apply map_ext_in. intros token Hin. apply stripPossessive_themeChars.
  pose proof (pieces_themeChars (toLowerCase theme)) as H.
  rewrite Forall_forall in H. apply H, list_elem_of_In, Hin.
Qed.

Lemma extractThemeTokens_elem (theme token : jsstring) :
  token ∈ extractThemeTokens toLowerCase theme →
  token ≠ [] ∧ Forall (λ c, isThemeChar c = true) token ∧
  token ∉ THEME_STOP_WORDS.
Proof.
  unfold extractThemeTokens. rewrite list_elem_of_filter.
  intros [[Hlen Hstop] Hin]. split_and!.
  - intros ->. unfold len in Hlen. simpl in Hlen. lia.
  - apply list_elem_of_fmap in Hin as (t1 & -> & Hin).
    apply list_elem_of_fmap in Hin as (t0 & -> & Hin).
    pose proof (pieces_themeChars (toLowerCase theme)) as H.
    rewrite Forall_forall in H. specialize (H _ Hin).
    rewrite stripPossessive_themeChars by exact H.
    apply stripPlural_themeChars, H.
  - exact Hstop.
Qed.

(** X21. Every token of a theme is a non-empty word of lower-case ASCII
    letters and digits that is not a stop word. *)
Theorem extractThemeTokens_shape (theme : jsstring) :
  Forall (λ token, token ≠ [] ∧ Forall (λ c, isThemeChar c = true) token ∧
                   token ∉ THEME_STOP_WORDS)
    (extractThemeTokens toLowerCase theme).
Proof. apply Forall_forall. intros token. apply extractThemeTokens_elem. Qed.

End ThemeTokens.

(** X23. [areThemesSimilar] does not depend on the order of its arguments. *)
Theorem areThemesSimilar_sym (aTokens bTokens : list jsstring) :
  areThemesSimilar aTokens bTokens = areThemesSimilar bTokens aTokens.
Proof.
  unfold areThemesSimilar.
  rewrite (orb_comm (len aTokens =? 0)).
  destruct (_ || _); [reflexivity|].
  rewrite (countShared_comm (list_to_set bTokens)).
  destruct (Nat.eqb _ 0); [reflexivity|].
  rewrite (Nat.min_comm (size (list_to_set bTokens))).
  rewrite (Nat.add_comm (size (list_to_set bTokens))).
  f_equal. destruct (decide (lastToken aTokens = lastToken bTokens)) as [-> | Hne].
  - reflexivity.
  - rewrite (bool_decide_eq_false_2 _ Hne).
    rewrite (bool_decide_eq_false_2 (lastToken bTokens = lastToken aTokens))
      by (intros H; apply Hne; symmetry; exact H).
    reflexivity.
Qed.

Lemma list_to_set_size_pos (l : list jsstring) :
  l ≠ [] → (0 < size (list_to_set l : gset jsstring))%nat.
Proof.
  destruct l as [|x l]; [congruence|]. intros _.
  destruct (size (list_to_set (x :: l) : gset jsstring)) eqn:Hs; [|lia].
  apply size_empty_iff in Hs. exfalso.
  assert (Hx : x ∈ (list_to_set (x :: l) : gset jsstring))
    by (apply elem_of_list_to_set; left).
  rewrite Hs in Hx. exact (not_elem_of_empty (C := gset jsstring) x Hx).
Qed.

(** X24. Two token lists are similar as soon as they are not empty and every
    token of the first is a token of the second. *)
Theorem areThemesSimilar_contained (aTokens bTokens : list jsstring) :
  aTokens ≠ [] → (∀ t, t ∈ aTokens → t ∈ bTokens) →
  areThemesSimilar aTokens bTokens = true.
Proof.
  intros Ha Hsub.
  assert (Hb : bTokens ≠ []).
  { destruct aTokens as [|t l]; [congruence|]. intros ->.
    specialize (Hsub t ltac:(left)). inversion Hsub. }
  unfold areThemesSimilar.
  destruct (Z.eqb_spec (len aTokens) 0) as [H0 | _].
  { destruct aTokens; [congruence | discriminate]. }
  destruct (Z.eqb_spec (len bTokens) 0) as [H0 | _].
  { destruct bTokens; [congruence | discriminate]. }
  simpl orb at 1.
  set (setA := list_to_set aTokens : gset jsstring).
  set (setB := list_to_set bTokens : gset jsstring).
  assert (Hincl : setA ⊆ setB).
  { intros t. unfold setA, setB. rewrite !elem_of_list_to_set. apply Hsub. }
  assert (Hshared : countShared setA setB = size setA).
  { rewrite countShared_size. f_equal.
    apply subseteq_intersection_1_L, Hincl. }
  pose proof (list_to_set_size_pos aTokens Ha) as Hpos. fold setA in Hpos.
  pose proof (subseteq_size _ _ Hincl) as Hle.
  rewrite Hshared. destruct (Nat.eqb_spec (size setA) 0) as [|_]; [lia|].
  rewrite Nat.min_l by exact Hle.
  assert (Hq : Qle_bool (75 # 100)
                 (inject_Z (Z.of_nat (size setA)) / inject_Z (Z.of_nat (size setA)))
               = true).
  { apply Qle_bool_iff. unfold Qdiv. rewrite Qmult_inv_r.
    - discriminate.
    - unfold Qeq. simpl. lia. }
  rewrite Hq. reflexivity.
Qed.

Lemma areThemesSimilar_contained_witness :
  js "pricing" :: [] ≠ [] ∧
  areThemesSimilar [js "pricing"] [js "saas"; js "pricing"; js "model"] = true.
Proof.
  split; [discriminate|].
  apply (areThemesSimilar_contained [js "pricing"]
           [js "saas"; js "pricing"; js "model"]).
  - discriminate.
  - intros t Ht. apply list_elem_of_singleton in Ht as ->. right. left.
Defined.

(** ** Promotion of distinct themes *)

Lemma distinctInfos_snoc (l : list ThemeTokenInfo) (item : ThemeTokenInfo) :
  distinctInfos l →
  existsb (λ sel, areThemesSimilar (themeTokens sel) (themeTokens item)) l = false →
  distinctInfos (l ++ [item]).
Proof.
  intros Hl Hex i j a b Hij Ha Hb.
  destruct (decide (j < length l)%nat) as [Hj | Hj].
  - rewrite lookup_app_l in Ha, Hb by lia. exact (Hl i j a b Hij Ha Hb).
  - rewrite lookup_app_r in Hb by lia.
    destruct (j - length l)%nat eqn:Hd; [|destruct n; discriminate].
    injection Hb as <-. rewrite lookup_app_l in Ha by lia.
    destruct (areThemesSimilar (themeTokens a) (themeTokens item)) eqn:Hs;
      [|reflexivity].
    assert (Htrue : existsb (λ sel, areThemesSimilar (themeTokens sel)
                                      (themeTokens item)) l = true).
    { apply existsb_exists. exists a. split; [|exact Hs].
      apply list_elem_of_In, (list_elem_of_lookup_2 _ i), Ha. }
    congruence.
Qed.

Lemma promoteLoop_spec (primaryCount : Z) (items s d sel def : list ThemeTokenInfo) :
  promoteLoop primaryCount s d items = (sel, def) →
  ∃ s' d', sel = s ++ s' ∧ def = d ++ d' ∧
    sublist s' items ∧ sublist d' items ∧ s' ++ d' ≡ₚ items ∧
    (len s <= Z.max 0 primaryCount → len sel <= Z.max 0 primaryCount) ∧
    (distinctInfos s → distinctInfos sel) ∧
    (len sel < primaryCount → ∀ x, x ∈ d' →
       ∃ y, y ∈ sel ∧ areThemesSimilar (themeTokens y) (themeTokens x) = true).
Proof.
  revert s d. induction items as [|item rest IH]; intros s d; simpl.
  - intros [= <- <-]. exists [], []. rewrite !app_nil_r.
    split_and!; auto; try constructor. intros _ x Hx. inversion Hx.
  - destruct (Z.ltb_spec (len s) primaryCount) as [Hlt | Hge]; simpl.
    + destruct (existsb _ s) eqn:Hex; simpl.
      * intros H. apply IH in H as (s' & d' & -> & -> & Hs & Hd & Hp & Hlen & Hdist & Hsim).
        exists s', (item :: d'). rewrite <- app_assoc. split_and!; auto.
        -- apply sublist_cons, Hs.
        -- apply sublist_skip, Hd.
        -- rewrite <- Permutation_middle. constructor. exact Hp.
        -- intros Hfull x Hx. apply elem_of_cons in Hx as [-> | Hx]; [|auto].
           apply existsb_exists in Hex as (y & Hy & Hys).
           exists y. split; [|exact Hys].
           apply elem_of_app. left. apply list_elem_of_In, Hy.
      * intros H. apply IH in H as (s' & d' & -> & -> & Hs & Hd & Hp & Hlen & Hdist & Hsim).
        exists (item :: s'), d'. rewrite <- app_assoc. split_and!; auto.
        -- apply sublist_skip, Hs.
        -- apply sublist_cons, Hd.
        -- simpl. constructor. exact Hp.
        -- intros _. rewrite <- app_assoc in Hlen. apply Hlen.
           rewrite len_app. unfold len at 2. simpl. lia.
        -- intros Hd0. rewrite <- app_assoc in Hdist. apply Hdist.
           apply distinctInfos_snoc; assumption.
        -- rewrite <- app_assoc in Hsim. exact Hsim.
    + intros H. apply IH in H as (s' & d' & -> & -> & Hs & Hd & Hp & Hlen & Hdist & Hsim).
      exists s', (item :: d'). rewrite <- app_assoc. split_and!; auto.
      * apply sublist_cons, Hs.
      * apply sublist_skip, Hd.
      * rewrite <- Permutation_middle. constructor. exact Hp.
      * intros Hfull. rewrite len_app in Hfull. pose proof (len_nonneg s'). lia.
Qed.

Section Promote.

Variable toLowerCase : jsstring → jsstring.

Lemma promoteDistinctThemes_loop (themes : list jsstring) (primaryCount : Z) :
  1 < len themes →
  promoteDistinctThemes toLowerCase themes primaryCount =
  let '(selected, deferred) :=
    promoteLoop primaryCount [] [] (map (withTokens toLowerCase) themes) in
  map themeValue (selected ++ deferred).
Proof.
  intros Hlen. unfold promoteDistinctThemes.
  destruct (Z.leb_spec (len themes) 1); [lia|].
  fold (withTokens toLowerCase).
  destruct (promoteLoop primaryCount [] [] (map (withTokens toLowerCase) themes)) as [sel def].
  destruct (len sel <? primaryCount); [|reflexivity].
  rewrite <- app_assoc, take_drop. reflexivity.
Qed.

Lemma map_value_withTokens (themes : list jsstring) :
  map themeValue (map (withTokens toLowerCase) themes) = themes.
Proof. rewrite map_map. simpl. apply map_id. Qed.

Lemma promoteDistinctThemes_perm (themes : list jsstring) (primaryCount : Z) :
  promoteDistinctThemes toLowerCase themes primaryCount ≡ₚ themes.
Proof.
  destruct (Z.le_gt_cases (len themes) 1) as [Hle | Hgt].
  - unfold promoteDistinctThemes.
    destruct (Z.leb_spec (len themes) 1); [reflexivity | lia].
  - rewrite promoteDistinctThemes_loop by lia.
    destruct (promoteLoop _ _ _ _) as [sel def] eqn:Hloop.
    apply promoteLoop_spec in Hloop as (s' & d' & -> & -> & _ & _ & Hp & _).
    simpl. rewrite Hp. rewrite map_value_withTokens. reflexivity.
Qed.

(** X25. [promoteDistinctThemes] only reorders the themes. *)
Theorem promoteDistinctThemes_permutation (themes : list jsstring)
    (primaryCount : Z) :
  promoteDistinctThemes toLowerCase themes primaryCount ≡ₚ themes.
Proof. apply promoteDistinctThemes_perm. Qed.

Lemma withTokens_sublist (l : list ThemeTokenInfo) (themes : list jsstring) :
  sublist l (map (withTokens toLowerCase) themes) →
  sublist (map themeValue l) themes ∧ l = map (withTokens toLowerCase) (map themeValue l).
Proof.
  intros H. split.
  - rewrite <- (map_value_withTokens themes). apply (fmap_sublist themeValue), H.
  - rewrite map_map. rewrite <- (map_id l) at 1. apply map_ext_in.
    intros a Ha. apply list_elem_of_In in Ha.
    apply (λ H', elem_of_sublist _ _ _ H' H) in Ha.
    apply list_elem_of_fmap in Ha as (t & -> & _). reflexivity.
Qed.

Lemma distinctInfos_themes (l : list jsstring) :
  distinctInfos (map (withTokens toLowerCase) l) → distinctThemes toLowerCase l.
Proof.
  intros H i j a b Hij Ha Hb.
  apply (H i j ((withTokens toLowerCase) a) ((withTokens toLowerCase) b) Hij).
  - change (map (withTokens toLowerCase) l) with ((withTokens toLowerCase) <$> l).
    rewrite list_lookup_fmap, Ha. reflexivity.
  - change (map (withTokens toLowerCase) l) with ((withTokens toLowerCase) <$> l).
    rewrite list_lookup_fmap, Hb. reflexivity.
Qed.

(** X26. The result is made of two groups, each in the order of the input:
    first at most [primaryCount] themes that are pairwise dissimilar, led by
    the first theme, then the others; when the first group is not full,
    every other theme is similar to one of the first group. *)
Theorem promoteDistinctThemes_groups (themes : list jsstring) (primaryCount : Z) :
  ∃ selected deferred,
    promoteDistinctThemes toLowerCase themes primaryCount = selected ++ deferred ∧
    sublist selected themes ∧ sublist deferred themes ∧
    len selected <= Z.max 0 primaryCount ∧
    distinctThemes toLowerCase selected ∧
    (0 < primaryCount → head selected = head themes) ∧
    (len selected < primaryCount → ∀ d, d ∈ deferred →
       ∃ s, s ∈ selected ∧
            areThemesSimilar (extractThemeTokens toLowerCase s)
                             (extractThemeTokens toLowerCase d) = true).
Proof.
  destruct (Z.le_gt_cases (len themes) 1) as [Hle | Hgt].
  - assert (Hid : promoteDistinctThemes toLowerCase themes primaryCount = themes).
    { unfold promoteDistinctThemes.
      destruct (Z.leb_spec (len themes) 1); [reflexivity | lia]. }
    rewrite Hid.
    destruct (Z.lt_ge_cases 0 primaryCount) as [Hpc | Hpc].
    + exists themes, []. rewrite app_nil_r. split_and!; auto.
      * apply sublist_nil_l.
      * lia.
      * intros i j a b Hij Ha Hb. apply lookup_lt_Some in Hb.
        unfold len in Hle. lia.
      * intros _ d Hd. inversion Hd.
    + exists [], themes. split_and!; auto.
      * apply sublist_nil_l.
      * unfold len. simpl. lia.
      * intros i j a b _ Ha. discriminate.
      * lia.
      * unfold len. simpl. lia.
  - rewrite promoteDistinctThemes_loop by lia.
    destruct (promoteLoop _ _ _ _) as [sel def] eqn:Hloop.
    pose proof Hloop as Hfirst.
    apply promoteLoop_spec in Hloop
      as (s' & d' & -> & -> & Hs & Hd & _ & Hlen & Hdist & Hsim).
    simpl in *. apply withTokens_sublist in Hs as [Hs Hs'], Hd as [Hd Hd'].
    exists (map themeValue s'), (map themeValue d').
    split_and!; auto.
    + apply map_app.
    + unfold len in *. rewrite length_map. apply Hlen. simpl. lia.
    + apply distinctInfos_themes. rewrite <- Hs'. apply Hdist.
      intros i j a b _ Ha. discriminate.
    + intros Hpc. destruct themes as [|t rest]; [unfold len in Hgt; simpl in Hgt; lia|].
      simpl in Hfirst. destruct (Z.ltb_spec (len (@nil ThemeTokenInfo)) primaryCount) as [_ | H0];
        [|unfold len in H0; simpl in H0; lia].
      simpl in Hfirst. apply promoteLoop_spec in Hfirst as (s1 & _ & -> & _).
      reflexivity.
    + intros Hfull d Hd0. apply list_elem_of_fmap in Hd0 as (x & -> & Hx).
      unfold len in Hfull, Hsim. rewrite length_map in Hfull.
      destruct (Hsim Hfull x Hx) as (y & Hy & Hyx).
      exists (themeValue y). split; [apply list_elem_of_fmap; eauto|].
      assert (Hty : ∀ z, z ∈ s' ++ d' →
                themeTokens z = extractThemeTokens toLowerCase (themeValue z)).
      { intros z Hz. apply elem_of_app in Hz as [Hz | Hz].
        - rewrite Hs' in Hz. apply list_elem_of_fmap in Hz as (t & -> & _). reflexivity.
        - rewrite Hd' in Hz. apply list_elem_of_fmap in Hz as (t & -> & _). reflexivity. }
      rewrite <- !Hty; [exact Hyx | apply elem_of_app; auto..].
Qed.

(** X27. After [sanitizeThemeList], promoting keeps what cleaning gave:
    the same themes, none empty, no two equal up to case. *)
Theorem promoted_themes_stay_clean (themes : list jsstring) (primaryCount : Z) :
  let cleaned := sanitizeThemeList toLowerCase themes in
  let result := promoteDistinctThemes toLowerCase cleaned primaryCount in
  result ≡ₚ cleaned ∧
  Forall (λ t, t ≠ [] ∧ trim t = t) result ∧
  NoDup (map toLowerCase result).
Proof.
  intros cleaned result.
  pose proof (promoteDistinctThemes_perm cleaned primaryCount) as Hp.
  fold result in Hp.
  pose proof (sanitizeThemeList_elem toLowerCase themes) as Hne.
  pose proof (sanitizeThemeList_NoDup toLowerCase themes) as Hnd.
  fold cleaned in Hne, Hnd. split_and!.
  - exact Hp.
  - apply Forall_forall. intros t Ht. apply Hne. rewrite <- Hp. exact Ht.
  - assert (Hm : map toLowerCase result ≡ₚ map toLowerCase cleaned)
      by (apply Permutation_map, Hp).
    rewrite Hm. exact Hnd.
Qed.

End Promote.

(** ** Chunks of a transcript *)

Lemma qlt_spec (a b : Q) : qlt a b = true ↔ (a < b)%Q.
Proof.
  unfold qlt. rewrite negb_true_iff. split.
  - intros H. apply Qnot_le_lt. intros Hle. apply Qle_bool_iff in Hle. congruence.
  - intros H. destruct (Qle_bool b a) eqn:Hq; [|reflexivity].
    apply Qle_bool_iff in Hq. exfalso. exact (Qlt_not_le _ _ H Hq).
Qed.

Lemma Qle_bool_false (a b : Q) : Qle_bool a b = false ↔ (b < a)%Q.
Proof.
  rewrite <- qlt_spec. unfold qlt. rewrite negb_true_iff. reflexivity.
Qed.

Lemma qmax_lower (a b : Q) : (a <= qmax a b)%Q.
Proof.
  unfold qmax. destruct (Qle_bool a b) eqn:H; [apply Qle_bool_iff, H | apply Qle_refl].
Qed.

Lemma stepOf_lower (chunkDurationSeconds overlapSeconds : Q) :
  (60 <= stepOf chunkDurationSeconds overlapSeconds)%Q.
Proof. apply qmax_lower. Qed.

(** [collectChunk] extends [chunkSegments] with a prefix of [rest]. *)
Lemma collectChunk_spec (target : Q) (acc rest : list TranscriptSegment) :
  ∃ taken dropped, rest = taken ++ dropped ∧
                   collectChunk target acc rest = acc ++ taken ∧
                   (acc = [] → rest ≠ [] → taken ≠ []).
Proof.
  revert acc. induction rest as [|segment rest IH]; intros acc; simpl.
  - exists [], []. split_and!; [reflexivity | symmetry; apply app_nil_r | congruence].
  - destruct (qlt target (start segment) && (0 <? len acc)) eqn:Hstop.
    + exists [], (segment :: rest).
      split_and!; [reflexivity | symmetry; apply app_nil_r |].
      intros ->. rewrite andb_false_r in Hstop. discriminate.
    + destruct (Qle_bool target _ && _).
      * exists [segment], rest.
        split_and!; [reflexivity | reflexivity | intros _ _; discriminate].
      * destruct (IH (acc ++ [segment])) as (taken & dropped & -> & -> & _).
        exists (segment :: taken), dropped. rewrite <- app_assoc.
        split_and!; [reflexivity | reflexivity | intros _ _; discriminate].
Qed.

Lemma advanceAnchor_spec (w : Q) (a : Z) (rest : list TranscriptSegment) :
  let a' := advanceAnchor w a rest in
  a <= a' <= a + len rest ∧
  (∀ seg, rest !! Z.to_nat (a' - a) = Some seg →
          (w < start seg + duration seg)%Q) ∧
  (∀ seg, head rest = Some seg → (start seg + duration seg <= w)%Q → a < a').
Proof.
  revert a. induction rest as [|segment rest IH]; intros a; simpl.
  - split; [unfold len; simpl; lia|]. split; [|discriminate].
    intros seg. rewrite Z.sub_diag. discriminate.
  - assert (Hlen : len (segment :: rest) = len rest + 1)
      by (unfold len; simpl; lia).
    pose proof (len_nonneg rest) as Hrest.
    destruct (Qle_bool _ w) eqn:Hq.
    + destruct (IH (a + 1)) as ((H1 & H2) & H3 & _).
      split; [lia|]. split.
      * intros seg Hseg. apply H3.
        replace (Z.to_nat (advanceAnchor w (a + 1) rest - a))
          with (S (Z.to_nat (advanceAnchor w (a + 1) rest - (a + 1)))) in Hseg by lia.
        exact Hseg.
      * intros _ _ _. lia.
    + split; [lia|]. split.
      * intros seg. rewrite Z.sub_diag. intros [= <-].
        apply Qle_bool_false, Hq.
      * intros seg [= <-] Hle. apply Qle_bool_iff in Hle. congruence.
Qed.

Lemma chunkLoop_unfold (fuel : nat) (segments : list TranscriptSegment)
    (effectiveChunkDuration step totalDuration windowStart : Q) (anchorIdx : Z)
    (chunks : list TranscriptChunk) :
  chunkLoop (S fuel) segments effectiveChunkDuration step totalDuration
    windowStart anchorIdx chunks =
  if qlt windowStart totalDuration && (anchorIdx <? len segments) then
    let anchorIdx' :=
      advanceAnchor windowStart anchorIdx (drop (Z.to_nat anchorIdx) segments) in
    match segmentAt segments anchorIdx' with
    | None => Some (Normal chunks)
    | Some anchor =>
        let chunkSegments :=
          collectChunk (windowStart + effectiveChunkDuration) []
            (drop (Z.to_nat anchorIdx') segments) in
        let chunkSegments :=
          if len chunkSegments =? 0 then [anchor] else chunkSegments in
        match head chunkSegments, last chunkSegments with
        | Some firstOfChunk, Some lastOfChunk =>
            chunkLoop fuel segments effectiveChunkDuration step totalDuration
              (start firstOfChunk + step) anchorIdx'
              (chunks ++ [makeChunk chunks (start firstOfChunk)
                            (start lastOfChunk + duration lastOfChunk)
                            chunkSegments])
        | _, _ => Some Throw
        end
    end
  else Some (Normal chunks).
Proof. reflexivity. Qed.

(** What one turn of the loop pushes when [segments[anchorIdx]] exists: a
    run of segments that starts with it. *)
Lemma collected_chunk (segments : list TranscriptSegment) (target : Q) (a : Z)
    (anchor : TranscriptSegment) :
  segmentAt segments a = Some anchor →
  ∃ others lastOfChunk,
    (let chunkSegments := collectChunk target [] (drop (Z.to_nat a) segments) in
     if len chunkSegments =? 0 then [anchor] else chunkSegments)
    = anchor :: others ∧
    last (anchor :: others) = Some lastOfChunk ∧
    sublist (anchor :: others) segments.
Proof.
  intros Ha. unfold segmentAt in Ha. destruct (a <? 0); [discriminate|].
  destruct (collectChunk_spec target [] (drop (Z.to_nat a) segments))
    as (taken & dropped & Hsplit & Hc & Hne).
  cbv zeta. rewrite Hc. simpl.
  pose proof (take_drop_middle _ _ _ Ha) as Hmid.
  rewrite (drop_S _ _ _ Ha) in Hsplit.
  destruct taken as [|t taken].
  { exfalso. apply Hne; [reflexivity | rewrite (drop_S _ _ _ Ha); discriminate | reflexivity]. }
  injection Hsplit as <- Hrest.
  exists taken. destruct (last (anchor :: taken)) as [l|] eqn:Hl.
  - exists l. split_and!; [reflexivity | reflexivity |].
    rewrite <- Hmid, Hrest. apply sublist_inserts_l.
    change (anchor :: taken ++ dropped) with ((anchor :: taken) ++ dropped).
    apply sublist_inserts_r. reflexivity.
  - apply last_None in Hl. discriminate.
Qed.

(** From the window that starts [step] after a segment that lasts longer
    than [step], a turn of the loop comes back to the same window. *)
Lemma chunkLoop_stuck (firstSegment : TranscriptSegment)
    (rest : list TranscriptSegment) (effectiveChunkDuration step totalDuration : Q)
    (fuel : nat) (chunks : list TranscriptChunk) :
  (step < duration firstSegment)%Q →
  (start firstSegment + step < totalDuration)%Q →
  chunkLoop fuel (firstSegment :: rest) effectiveChunkDuration step totalDuration
    (start firstSegment + step) 0 chunks = None.
Proof.
  intros Hlong Hin. revert chunks. induction fuel as [|fuel IH]; intros chunks;
    [reflexivity|].
  rewrite chunkLoop_unfold.
  apply qlt_spec in Hin as Hguard. rewrite Hguard.
  change (0 <? len (firstSegment :: rest)) with true.
  cbv beta iota zeta. simpl andb. cbv iota.
  change (drop (Z.to_nat 0) (firstSegment :: rest)) with (firstSegment :: rest).
  assert (Hanchor : advanceAnchor (start firstSegment + step) 0
                      (firstSegment :: rest) = 0).
  { simpl. replace (Qle_bool _ _) with false; [reflexivity|].
    symmetry. apply Qle_bool_false. apply Qplus_lt_r. exact Hlong. }
  rewrite Hanchor.
  change (segmentAt (firstSegment :: rest) 0) with (Some firstSegment).
  cbv iota.
  destruct (collected_chunk (firstSegment :: rest)
              (start firstSegment + step + effectiveChunkDuration) 0 firstSegment
              eq_refl) as (others & l & Hc & Hl & _).
  cbv zeta in Hc. rewrite Hc, Hl. cbn [head]. apply IH.
Qed.

(** X28. With times and parameters that are whole numbers of seconds,
    [chunkTranscript] does not return on a transcript whose first segment
    lasts longer than the step between two windows while the transcript goes
    on after that step: every turn of its loop starts again from the same
    window. *)
Theorem chunkTranscript_hangs (firstSegment : TranscriptSegment)
    (rest : list TranscriptSegment) (chunkDurationSeconds overlapSeconds : Q)
    (fuel : nat) :
  let segments := firstSegment :: rest in
  let step := stepOf chunkDurationSeconds overlapSeconds in
  wholeSeconds chunkDurationSeconds → wholeSeconds overlapSeconds →
  Forall (λ s, wholeSeconds (start s) ∧ wholeSeconds (duration s)) segments →
  (step < duration firstSegment)%Q →
  (start firstSegment + step < totalDurationOf segments)%Q →
  chunkTranscript fuel segments chunkDurationSeconds overlapSeconds = None.
Proof.
  intros segments step _ _ _ Hlong Hin.
  unfold chunkTranscript, totalDurationOf in *.
  subst segments. destruct (last (firstSegment :: rest)) as [lastSegment|] eqn:Hlast.
  2: { apply last_None in Hlast. discriminate. }
  unfold chunkTranscript. rewrite Hlast. fold step.
  assert (Hstep : (60 <= step)%Q) by apply stepOf_lower.
  destruct fuel as [|fuel]; [reflexivity|].
  rewrite chunkLoop_unfold.
  assert (Hguard : qlt (start firstSegment) (start lastSegment + duration lastSegment)
                   = true).
  { apply qlt_spec. eapply Qle_lt_trans; [|exact Hin].
    rewrite <- (Qplus_0_r (start firstSegment)) at 1.
    apply Qplus_le_r. eapply Qle_trans; [|exact Hstep]. discriminate. }
  rewrite Hguard. change (0 <? len (firstSegment :: rest)) with true.
  simpl andb. cbv iota zeta.
  change (drop (Z.to_nat 0) (firstSegment :: rest)) with (firstSegment :: rest).
  assert (Hanchor : advanceAnchor (start firstSegment) 0 (firstSegment :: rest) = 0).
  { simpl. replace (Qle_bool _ _) with false; [reflexivity|].
    symmetry. apply Qle_bool_false.
    rewrite <- (Qplus_0_r (start firstSegment)) at 1. apply Qplus_lt_r.
    eapply Qlt_le_trans; [|apply Qlt_le_weak, Hlong].
    eapply Qlt_le_trans; [|exact Hstep]. reflexivity. }
  rewrite Hanchor.
  change (segmentAt (firstSegment :: rest) 0) with (Some firstSegment).
  cbv iota.
  destruct (collected_chunk (firstSegment :: rest)
              (start firstSegment + effectiveChunkDurationOf chunkDurationSeconds)
              0 firstSegment eq_refl) as (others & l & Hc & Hl & _).
  cbv zeta in Hc. rewrite Hc, Hl. cbn [head].
  rewrite chunkLoop_stuck; [reflexivity | exact Hlong | exact Hin].
Qed.

Lemma chunkTranscript_hangs_witness :
  chunkTranscript 1000 longTalk 300 45 = None.
Proof.
  apply (chunkTranscript_hangs (seg "a very long monologue" 0 1000) [] 300 45
           1000%nat).
  - exists 300. split; [lia | reflexivity].
  - exists 45. split; [lia | reflexivity].
  - repeat constructor; [exists 0 | exists 1000]; (split; [lia | reflexivity]).
  - vm_compute. reflexivity.
  - vm_compute. reflexivity.
Defined.

Lemma numbered_snoc (chunks : list TranscriptChunk) (chunkStart chunkEnd : Q)
    (chunkSegments : list TranscriptSegment) :
  numbered chunks →
  numbered (chunks ++ [makeChunk chunks chunkStart chunkEnd chunkSegments]).
Proof.
  intros H i c Hc. destruct (decide (i < length chunks)%nat) as [Hi | Hi].
  - rewrite lookup_app_l in Hc by exact Hi. apply H, Hc.
  - rewrite lookup_app_r in Hc by lia.
    destruct (i - length chunks)%nat eqn:Hd; [|destruct n; discriminate].
    injection Hc as <-. unfold makeChunk. cbn [cId]. unfold len.
    replace (Z.of_nat i) with (Z.of_nat (length chunks)) by lia. reflexivity.
Qed.

Lemma segmentAt_drop_head (segments : list TranscriptSegment) (a : Z) :
  0 <= a → head (drop (Z.to_nat a) segments) = segmentAt segments a.
Proof.
  intros Ha. unfold segmentAt. destruct (Z.ltb_spec a 0); [lia|].
  rewrite head_lookup, lookup_drop, Nat.add_0_r. reflexivity.
Qed.

Section Returns.

Variable segments : list TranscriptSegment.
Variables effectiveChunkDuration step totalDuration : Q.
Hypothesis short : ∀ seg, seg ∈ segments → (duration seg <= step)%Q.

(** With segments no longer than [step], every turn but the first moves the
    anchor forward: [slack] is 1 before the first turn, 0 afterwards. *)
Lemma chunkLoop_returns (fuel : nat) (windowStart : Q) (anchorIdx slack : Z)
    (chunks : list TranscriptChunk) :
  0 <= anchorIdx <= len segments → 0 <= slack →
  (slack = 0 → ∀ seg, segmentAt segments anchorIdx = Some seg →
                      (start seg + duration seg <= windowStart)%Q) →
  len segments - anchorIdx + 1 + slack <= Z.of_nat fuel →
  Forall (chunkOk segments) chunks → numbered chunks →
  ∃ chunks',
    chunkLoop fuel segments effectiveChunkDuration step totalDuration
      windowStart anchorIdx chunks = Some (Normal chunks') ∧
    Forall (chunkOk segments) chunks' ∧ numbered chunks' ∧
    len chunks' <= len chunks + Z.max 0 (len segments - anchorIdx - 1 + slack).
Proof.
  revert windowStart anchorIdx slack chunks.
  induction fuel as [|fuel IH]; intros w a slack chunks Ha Hslack Hstale Hfuel Hok Hnum.
  { lia. }
  rewrite chunkLoop_unfold.
  destruct (qlt w totalDuration && (a <? len segments)) eqn:Hguard.
  2: { exists chunks. split_and!; auto. lia. }
  apply andb_true_iff in Hguard as [_ Hlt]. apply Z.ltb_lt in Hlt.
  cbv zeta.
  destruct (advanceAnchor_spec w a (drop (Z.to_nat a) segments)) as ((Hlo & Hhi) & _ & Hmove).
  set (a' := advanceAnchor w a (drop (Z.to_nat a) segments)) in *.
  assert (Hdrop : len (drop (Z.to_nat a) segments) = len segments - a).
  { unfold len. rewrite length_drop. unfold len in Hlt. lia. }
  rewrite Hdrop in Hhi.
  assert (Ha' : a + 1 - slack <= a').
  { destruct (Z.eq_dec slack 0) as [H0 | H0]; [|lia].
    destruct (segmentAt segments a) as [seg|] eqn:Hseg.
    - specialize (Hmove seg). rewrite segmentAt_drop_head in Hmove by lia.
      specialize (Hmove Hseg (Hstale H0 seg eq_refl)). lia.
    - unfold segmentAt in Hseg. destruct (Z.ltb_spec a 0); [lia|].
      apply lookup_ge_None in Hseg. unfold len in Hlt. lia. }
  destruct (segmentAt segments a') as [anchor|] eqn:Hanchor.
  2: { exists chunks. split_and!; auto. lia. }
  pose proof (segmentAt_Some _ _ _ Hanchor) as Hrange.
  destruct (collected_chunk segments (w + effectiveChunkDuration) a' anchor Hanchor)
    as (others & l & Hc & Hl & Hsub).
  cbv zeta in Hc. rewrite Hc, Hl. cbn [head].
  destruct (IH (start anchor + step)%Q a' 0
              (chunks ++ [makeChunk chunks (start anchor) (start l + duration l)
                            (anchor :: others)]))
    as (chunks' & Hrun & Hok' & Hnum' & Hcount).
  - lia.
  - lia.
  - intros _ seg Hseg. rewrite Hanchor in Hseg. injection Hseg as <-.
    apply Qplus_le_r, short.
    unfold segmentAt in Hanchor. destruct (a' <? 0); [discriminate|].
    apply (list_elem_of_lookup_2 _ _ _ Hanchor).
  - lia.
  - apply Forall_app. split; [exact Hok|]. constructor; [|constructor].
    split; [exact Hsub|]. exists anchor, l. simpl. auto.
  - apply numbered_snoc, Hnum.
  - exists chunks'. split_and!; auto.
    rewrite len_app in Hcount.
    change (len [makeChunk chunks (start anchor) (start l + duration l)
                   (anchor :: others)]) with 1 in Hcount.
    lia.
Qed.

End Returns.

Lemma addTail_ok (segments : list TranscriptSegment) (firstSegment : TranscriptSegment)
    (effectiveChunkDuration totalDuration : Q) (chunks : list TranscriptChunk) :
  Forall (chunkOk segments) chunks → numbered chunks →
  let chunks' :=
    addTail segments firstSegment effectiveChunkDuration totalDuration chunks in
  Forall (chunkOk segments) chunks' ∧ numbered chunks' ∧
  len chunks' <= len chunks + 1.
Proof.
  intros Hok Hnum. unfold addTail.
  assert (Hsame : Forall (chunkOk segments) chunks ∧ numbered chunks ∧
                  len chunks <= len chunks + 1) by (split_and!; auto; lia).
  destruct (last chunks) as [lastChunk|]; [|exact Hsame].
  destruct (qlt 5 _); [|exact Hsame]. cbv zeta.
  set (tailSegments := filter _ segments).
  destruct (head tailSegments) as [tailFirst|] eqn:Hhead; [|exact Hsame].
  destruct (last tailSegments) as [tailLast|] eqn:Hlast; [|exact Hsame].
  destruct (qlt _ _); [|exact Hsame]. split_and!.
  - apply Forall_app. split; [exact Hok|]. constructor; [|constructor].
    split; [apply sublist_filter|]. exists tailFirst, tailLast. simpl. auto.
  - apply numbered_snoc, Hnum.
  - rewrite len_app. unfold len at 2. simpl. lia.
Qed.

(** X29. When no segment lasts longer than the step between two windows,
    [chunkTranscript] returns, after at most one turn of its loop per
    segment and one more: at most one chunk per segment and the tail chunk,
    numbered from 1, each made of segments of the transcript in their order
    and spanning from the start of its first segment to the end of its
    last. *)
Theorem chunkTranscript_returns (segments : list TranscriptSegment)
    (chunkDurationSeconds overlapSeconds : Q) (fuel : nat) :
  (∀ seg, seg ∈ segments →
          (duration seg <= stepOf chunkDurationSeconds overlapSeconds)%Q) →
  (length segments + 2 <= fuel)%nat →
  ∃ chunks,
    chunkTranscript fuel segments chunkDurationSeconds overlapSeconds
      = Some (Normal chunks) ∧
    Forall (chunkOk segments) chunks ∧ numbered chunks ∧
    len chunks <= len segments + 1.
Proof.
  intros Hshort Hfuel. unfold chunkTranscript.
  destruct segments as [|firstSegment rest].
  { exists []. split_and!; [reflexivity | constructor | | unfold len; simpl; lia].
    intros i c Hc. discriminate. }
  destruct (last (firstSegment :: rest)) as [lastSegment|] eqn:Hlast.
  2: { apply last_None in Hlast. congruence. }
  cbv iota. set (segments := firstSegment :: rest) in *.
  destruct (chunkLoop_returns segments
              (effectiveChunkDurationOf chunkDurationSeconds)
              (stepOf chunkDurationSeconds overlapSeconds)
              (start lastSegment + duration lastSegment) Hshort fuel
              (start firstSegment) 0 1 [])
    as (chunks & Hrun & Hok & Hnum & Hcount).
  - pose proof (len_nonneg segments). lia.
  - lia.
  - intros H. discriminate.
  - unfold len. lia.
  - constructor.
  - intros i c Hc. discriminate.
  - rewrite Hrun.
    destruct (addTail_ok segments firstSegment
                (effectiveChunkDurationOf chunkDurationSeconds)
                (start lastSegment + duration lastSegment) chunks Hok Hnum)
      as (Hok' & Hnum' & Hcount').
    eexists. split_and!; [reflexivity | exact Hok' | exact Hnum' |].
    pose proof (len_nonneg segments). unfold len in Hcount at 2.
    simpl in Hcount. lia.
Qed.

Lemma chunkTranscript_returns_witness :
  ∃ chunks,
    chunkTranscript 6 talk 300 45 = Some (Normal chunks) ∧
    Forall (chunkOk talk) chunks ∧ numbered chunks ∧
    len chunks <= len talk + 1.
Proof.
  apply (chunkTranscript_returns talk 300 45 6).
  - intros s Hs. vm_compute in Hs |- *.
    repeat (apply elem_of_cons in Hs as [-> | Hs]; [vm_compute; discriminate|]).
    inversion Hs.
  - vm_compute. lia.
Defined.

(** ** Fallback topics *)

Lemma qmin_upper_l (a b : Q) : (qmin a b <= a)%Q.
Proof.
  unfold qmin. destruct (Qle_bool a b) eqn:H; [apply Qle_refl|].
  apply Qlt_le_weak, Qle_bool_false, H.
Qed.

Lemma qmin_upper_r (a b : Q) : (qmin a b <= b)%Q.
Proof.
  unfold qmin. destruct (Qle_bool a b) eqn:H; [apply Qle_bool_iff, H | apply Qle_refl].
Qed.

Lemma qmax_upper (a b k : Q) : (a <= k)%Q → (b <= k)%Q → (qmax a b <= k)%Q.
Proof. intros Ha Hb. unfold qmax. destruct (Qle_bool a b); assumption. Qed.

Lemma fallbackCount_bounds (maxTopics : Q) :
  (1 <= qmin 6 (qmax 1 maxTopics))%Q ∧ (qmin 6 (qmax 1 maxTopics) <= 6)%Q.
Proof.
  split; [|apply qmin_upper_l].
  unfold qmin. destruct (Qle_bool 6 _); [discriminate | apply qmax_lower].
Qed.

Lemma chunkSize_spec (n : Z) (fallbackCount : Q) :
  0 < n → (1 <= fallbackCount)%Q →
  let chunkSize := Qceiling (inject_Z n / fallbackCount) in
  1 <= chunkSize.
Proof.
  intros Hn Hfc chunkSize.
  assert (Hpos : (0 < inject_Z n / fallbackCount)%Q).
  { apply Qlt_shift_div_l.
    - eapply Qlt_le_trans; [|exact Hfc]. reflexivity.
    - rewrite Qmult_0_l. change 0%Q with (inject_Z 0). rewrite <- Zlt_Qlt. exact Hn. }
  pose proof (Qle_ceiling (inject_Z n / fallbackCount)) as Hc. fold chunkSize in Hc.
  assert (H0 : (inject_Z 0 < inject_Z chunkSize)%Q)
    by (eapply Qlt_le_trans; [exact Hpos | exact Hc]).
  rewrite <- Zlt_Qlt in H0. lia.
Qed.

Lemma slice_nonempty {A} (s e : Z) (l : list A) :
  0 <= s < e → s < len l →
  ∃ x y, head (slice s e l) = Some x ∧ last (slice s e l) = Some y.
Proof.
  intros Hse Hs. unfold slice.
  assert (Hne : take (Z.to_nat (e - s)) (drop (Z.to_nat s) l) ≠ []).
  { intros Hnil. apply (f_equal length) in Hnil.
    rewrite length_take, length_drop in Hnil. unfold len in Hs. simpl in Hnil. lia. }
  destruct (take _ _) as [|x t] eqn:Ht; [congruence|].
  exists x. destruct (last (x :: t)) as [y|] eqn:Hl; [eauto|].
  apply last_None in Hl. discriminate.
Qed.

Section Fallback.

Variable transcript : list TranscriptSegment.
Variable fallbackCount : Q.
Variable chunkSize : Z.
Hypothesis chunkSize_pos : 1 <= chunkSize.
Hypothesis fallbackCount_pos : (0 < fallbackCount)%Q.

(** Without theme, turn [i] of the loop pushes the topic [Part i+1]. *)
Lemma fallbackLoop_spec (fuel : nat) (theme : option jsstring) (i : Z)
    (fallbackTopics : list ParsedTopic) :
  truthy theme = false → 0 <= i → len fallbackTopics = i →
  len transcript - i <= Z.of_nat fuel →
  (∀ (k : nat) topic, fallbackTopics !! k = Some topic →
     pTitle topic = js "Part " ++ decimal (Z.of_nat k + 1) ∧ usableTopic topic) →
  ∃ topics,
    fallbackLoop fuel transcript theme fallbackCount chunkSize i fallbackTopics
      = Some topics ∧
    (∀ (k : nat) topic, topics !! k = Some topic →
       pTitle topic = js "Part " ++ decimal (Z.of_nat k + 1) ∧ usableTopic topic) ∧
    len fallbackTopics <= len topics ∧
    (0 < len transcript → i = 0 → 1 <= len topics) ∧
    (i < len topics → (inject_Z (len topics - 1) < fallbackCount)%Q ∧
                      (len topics - 1) * chunkSize < len transcript).
Proof.
  intros Htheme. revert i fallbackTopics.
  induction fuel as [|fuel IH]; intros i topics0 Hi Hlen Hfuel Hok.
  - unfold fallbackLoop.
    destruct (Z.ltb_spec (i * chunkSize) (len transcript)) as [Hlt | Hge]; [nia|].
    rewrite andb_false_r. exists topics0. split_and!; auto; lia.
  - cbn [fallbackLoop].
    destruct (qlt (inject_Z i) fallbackCount && (i * chunkSize <? len transcript))
      eqn:Hguard.
    2: { exists topics0. split_and!; auto; try lia.
         intros Hn ->. apply andb_false_iff in Hguard as [Hg | Hg].
         - apply qlt_spec in fallbackCount_pos. change (inject_Z 0) with 0%Q in Hg.
           congruence.
         - apply Z.ltb_ge in Hg. lia. }
    apply andb_true_iff in Hguard as [Hq Hlt]. apply qlt_spec in Hq.
    apply Z.ltb_lt in Hlt. cbv zeta.
    destruct (slice_nonempty (i * chunkSize)
                (Z.min ((i + 1) * chunkSize) (len transcript)) transcript)
      as (x & y & -> & ->); [nia | exact Hlt|].
    set (topic := {| pTitle := _; pQuote := _ |}).
    destruct (IH (i + 1) (topics0 ++ [topic])) as (topics & Hrun & Hall & Hle & _ & Hlast).
    + lia.
    + rewrite len_app. change (len [topic]) with 1. lia.
    + nia.
    + intros k t Hk. destruct (decide (k < length topics0)%nat) as [Hk0 | Hk0].
      * rewrite lookup_app_l in Hk by exact Hk0. apply Hok, Hk.
      * rewrite lookup_app_r in Hk by lia.
        destruct (k - length topics0)%nat eqn:Hd; [|destruct n; discriminate].
        injection Hk as <-. split.
        -- unfold topic. cbn [pTitle]. unfold titleFor.
           destruct theme as [t|]; [|].
           ++ simpl in Htheme. rewrite Htheme.
              replace (Z.of_nat k) with i by (unfold len in Hlen; lia). reflexivity.
           ++ replace (Z.of_nat k) with i by (unfold len in Hlen; lia). reflexivity.
        -- eexists. split; [reflexivity|]. cbn [quoteTimestamp quoteText].
           split_and!; [discriminate | |].
           ++ intros Hnil. apply (f_equal length) in Hnil.
              rewrite length_app in Hnil. simpl in Hnil. lia.
           ++ rewrite len_app. change (len (js "...")) with 3.
              unfold len. rewrite length_take. lia.
    + rewrite len_app in Hle. change (len [topic]) with 1 in Hle.
      exists topics. split_and!; auto; try lia.
      intros _. destruct (Z.eq_dec (len topics) (i + 1)) as [He | Hne].
      * rewrite He. replace (i + 1 - 1) with i by lia. split; [exact Hq | exact Hlt].
      * apply Hlast. lia.
Qed.

End Fallback.

(** X30. [buildFallbackTopics] returns after at most one turn of its loop per
    segment. With a theme it returns nothing. Without theme and with a
    transcript, it returns at least one topic and at most six, and no more
    than [maxTopics] when this is a whole number; the topics are titled
    [Part 1], [Part 2], ... in order, and each has a timestamp and a text
    of at most 203 code units. *)
Theorem buildFallbackTopics_parts (fuel : nat) (transcript : list TranscriptSegment)
    (maxTopics : Q) (fullText : jsstring) (theme : option jsstring) :
  (length transcript <= fuel)%nat →
  ∃ topics,
    buildFallbackTopics fuel transcript maxTopics fullText theme = Some topics ∧
    (truthy theme = true → topics = []) ∧
    (truthy theme = false → transcript ≠ [] →
       1 <= len topics <= 6 ∧ len topics <= len transcript ∧
       (∀ k : Z, 1 <= k → (maxTopics <= inject_Z k)%Q → len topics <= k) ∧
       ∀ (k : nat) topic, topics !! k = Some topic →
         pTitle topic = js "Part " ++ decimal (Z.of_nat k + 1) ∧
         usableTopic topic).
Proof.
  intros Hfuel. unfold buildFallbackTopics.
  destruct (truthy theme) eqn:Htheme.
  { exists []. split_and!; [reflexivity | reflexivity | discriminate]. }
  destruct (Z.eqb_spec (len transcript) 0) as [H0 | H0].
  { assert (transcript = []) as -> by (destruct transcript; [reflexivity | discriminate]).
    destruct (len fullText =? 0); eexists; (split_and!; [reflexivity | discriminate | congruence]). }
  cbv zeta.
  destruct (fallbackCount_bounds maxTopics) as [Hfc1 Hfc6].
  set (fallbackCount := qmin 6 (qmax 1 maxTopics)) in *.
  pose proof (len_nonneg transcript) as Hn.
  assert (Hcs : 1 <= Qceiling (inject_Z (len transcript) / fallbackCount))
    by (apply chunkSize_spec; [lia | exact Hfc1]).
  set (chunkSize := Qceiling (inject_Z (len transcript) / fallbackCount)) in *.
  assert (Hfc0 : (0 < fallbackCount)%Q)
    by (eapply Qlt_le_trans; [|exact Hfc1]; reflexivity).
  destruct (fallbackLoop_spec transcript fallbackCount chunkSize Hcs Hfc0 fuel theme 0 [])
    as (topics & -> & Hall & _ & Hone & Hlast); [exact Htheme | lia | reflexivity | | |].
  { unfold len. lia. }
  { intros k topic Hk. discriminate. }
  specialize (Hone ltac:(lia) eq_refl). specialize (Hlast ltac:(lia)).
  destruct Hlast as [Hq Hcover].
  destruct (Z.eqb_spec (len topics) 0) as [? | _]; [lia|]. simpl andb. cbv iota.
  exists topics. split_and!; [reflexivity | discriminate |].
  intros _ _. split_and!.
  - exact Hone.
  - assert (H6 : (inject_Z (len topics - 1) < inject_Z 6)%Q)
      by (eapply Qlt_le_trans; [exact Hq | exact Hfc6]).
    rewrite <- Zlt_Qlt in H6. lia.
  - nia.
  - intros k Hk Hmax.
    assert (Hk' : (inject_Z (len topics - 1) < inject_Z k)%Q).
    { eapply Qlt_le_trans; [exact Hq|].
      eapply Qle_trans; [apply qmin_upper_r|].
      apply qmax_upper; [|exact Hmax].
      change 1%Q with (inject_Z 1). rewrite <- Zle_Qle. exact Hk. }
    rewrite <- Zlt_Qlt in Hk'. lia.
  - exact Hall.
Qed.

Lemma buildFallbackTopics_parts_witness :
  ∃ topics,
    buildFallbackTopics 5 lecture 5 (js "good morning everyone") None
      = Some topics ∧
    (truthy None = true → topics = []) ∧
    (truthy None = false → lecture ≠ [] →
       1 <= len topics <= 6 ∧ len topics <= len lecture ∧
       (∀ k : Z, 1 <= k → (5 <= inject_Z k)%Q → len topics <= k) ∧
       ∀ (k : nat) topic, topics !! k = Some topic →
         pTitle topic = js "Part " ++ decimal (Z.of_nat k + 1) ∧
         usableTopic topic).
Proof.
  apply (buildFallbackTopics_parts 5 lecture 5 (js "good morning everyone") None).
  vm_compute. lia.
Defined.
